(** * folk-stream-mux: frame extraction, selection, control and sink

    A shallow embedding of [presenter/folk-stream-mux.c].

    - Bytes are [Z] values (a [uint8_t] is a [Z] in [0, 256)); a buffer
      is the list of the bytes it holds; [size_t] and [int] values are
      [Z].  Offsets into a buffer stand for pointers into it.
    - The operating system (pipes, clock, signals, the standard output)
      is an explicit argument of each function that touches it.
    - Loops that are not structural carry fuel; each entry point hands
      out enough of it and a lemma shows that it never runs out.
    - [elapsed_ms] computes on [double]s in the source; the model
      evaluates the same expression over the rationals.

    The first part holds the definitions, the second part the proofs. *)

From Stdlib Require Import ZArith List Lia Bool QArith String Ascii.
Import ListNotations.
Open Scope Z_scope.

(** * Part I: the program *)

(** ** Constants ([#define]s of the source) *)

Definition MAX_INPUTS : Z := 8.
Definition READ_BUF_SIZE : Z := 2 * 1024 * 1024.
Definition MAX_FRAME_SIZE : Z := 1 * 1024 * 1024.
Definition CTL_BUF_SIZE : Z := 4096.

(** [int] is 32 bits wide. *)
Definition INT_MIN : Z := - 2 ^ 31.
Definition INT_MAX : Z := 2 ^ 31 - 1.

(** The value of an expression of type [size_t] (64 bits, wraps). *)
Definition size_t (x : Z) : Z := x mod 2 ^ 64.

(** Result of a loop that runs on fuel. *)
Inductive run (A : Type) : Type :=
| Ret (a : A)
| OutOfFuel.
Arguments Ret {A} a.
Arguments OutOfFuel {A}.

(** ** Data *)

Record timespec : Type := { tv_sec : Z; tv_nsec : Z }.

Inductive MuxMode : Type := MODE_AUTO | MODE_SOURCE | MODE_TESTCARD.

(** [Input]: [read_buf] is the list of the [read_used] bytes that the
    read buffer holds, [frame] the [frame_size] bytes of the latest
    complete frame.  [path] and [fd] belong to the operating system. *)
Record Input : Type := {
  read_buf : list Z;
  frame : list Z;
  frame_size : Z;
  frame_time : timespec
}.

Definition read_used (inp : Input) : Z := Z.of_nat (List.length (read_buf inp)).

(** The globals of the program that selection and control read and
    write.  [testcard] is [None] for the [NULL] pointer. *)
Record Mux : Type := {
  inputs : list Input;
  num_inputs : Z;
  mode : MuxMode;
  selected : Z;
  testcard : option (list Z);
  testcard_size : Z;
  timeout_ms : Z
}.

(** A zero-initialised [Input], as the static array holds them. *)
Definition zero_input : Input :=
  {| read_buf := []; frame := []; frame_size := 0;
     frame_time := {| tv_sec := 0; tv_nsec := 0 |} |}.

(** [inputs[i]] *)
Definition input_at (st : Mux) (i : Z) : Input :=
  nth (Z.to_nat i) (inputs st) zero_input.

(** [elapsed_ms(a, b)] *)
Definition elapsed_ms (a b : timespec) : Q :=
  (inject_Z (tv_sec b - tv_sec a) * 1000 +
   inject_Z (tv_nsec b - tv_nsec a) / 1000000)%Q.

(** [x < y] on the values of [elapsed_ms] *)
Definition Qltb (x y : Q) : bool := negb (Qle_bool y x).

(** ** JPEG frame extraction *)

(** [buf[i]]: the byte at index [i]. *)
Definition byte_at (buf : list Z) (i : Z) : Z := nth (Z.to_nat i) buf 0.

(** [buf[pos] == 0xFF && buf[pos + 1] == 0xD8] *)
Definition is_soi (buf : list Z) (pos : Z) : bool :=
  (byte_at buf pos =? 0xFF) && (byte_at buf (pos + 1) =? 0xD8).

(** [buf[j] == 0xFF && buf[j + 1] == 0xD9] *)
Definition is_eoi (buf : list Z) (j : Z) : bool :=
  (byte_at buf j =? 0xFF) && (byte_at buf (j + 1) =? 0xD9).

(** The inner loop of [last_jpeg]:
    [while (j + 1 < buflen) { if (EOI at j) ...goto next; j++; }].
    [Some j] is the index of the end marker found, [None] the fall
    through to [break]. *)
Fixpoint find_eoi (fuel : nat) (buf : list Z) (buflen j : Z)
  : run (option Z) :=
  if j + 1 <? buflen then
    if is_eoi buf j then Ret (Some j)
    else match fuel with
         | O => OutOfFuel
         | S fuel' => find_eoi fuel' buf buflen (j + 1)
         end
  else Ret None.

(** The outer loop of [last_jpeg], from position [pos] with the current
    [best_soi]/[best_len] pair ([None] is [best_soi == NULL]; offsets
    stand for pointers into [buf]). *)
Fixpoint scan (fuel : nat) (buf : list Z) (buflen pos : Z)
  (best : option (Z * Z)) : run (option (Z * Z)) :=
  if pos + 1 <? buflen then
    if is_soi buf pos then
      match find_eoi (Z.to_nat buflen) buf buflen (pos + 2) with
      | Ret (Some j) =>
          let flen := (j + 2) - pos in
          let best' :=
            if flen <=? MAX_FRAME_SIZE then Some (pos, flen) else best in
          match fuel with
          | O => OutOfFuel
          | S fuel' => scan fuel' buf buflen (j + 2) best'
          end
      | Ret None => Ret best
      | OutOfFuel => OutOfFuel
      end
    else match fuel with
         | O => OutOfFuel
         | S fuel' => scan fuel' buf buflen (pos + 1) best
         end
  else Ret best.

(** [last_jpeg(buf, buflen, &len)]: offset of the returned pointer in
    [buf] and the length stored in [*len]; [None] is [NULL].  The
    positions [pos] and [j] never pass [buflen], the size of an object
    in memory, so the [size_t] sums [pos + 1], [j + 1] and [j + 2] of
    the source do not wrap. *)
Definition last_jpeg (buf : list Z) (buflen : Z) : option (Z * Z) :=
  match scan (Z.to_nat buflen) buf buflen 0 None with
  | Ret r => r
  | OutOfFuel => None
  end.

(** *** Delimited frames of a buffer *)

Definition soi_at (buf : list Z) (p : Z) : Prop :=
  byte_at buf p = 0xFF /\ byte_at buf (p + 1) = 0xD8.

Definition eoi_at (buf : list Z) (e : Z) : Prop :=
  byte_at buf e = 0xFF /\ byte_at buf (e + 1) = 0xD9.

(** Every start marker before [p] has met an end marker before [p]:
    position [p] is not inside a region that is still open. *)
Definition closed_before (buf : list Z) (p : Z) : Prop :=
  forall q, 0 <= q < p -> soi_at buf q ->
    exists e, q + 2 <= e /\ e + 2 <= p /\ eoi_at buf e.

(** A complete delimited frame of [l] bytes at offset [p]: a start
    marker that opens a region, closed by the first end marker that
    follows it, all within the first [buflen] bytes. *)
Definition frame_at (buf : list Z) (buflen p l : Z) : Prop :=
  0 <= p /\ 4 <= l /\ p + l <= buflen /\
  soi_at buf p /\ eoi_at buf (p + l - 2) /\
  (forall e, p + 2 <= e < p + l - 2 -> ~ eoi_at buf e) /\
  closed_before buf p.

(** What the extractor owes its caller: the last frame that fits the
    size bound, or nothing when no frame fits. *)
Definition last_fitting (buf : list Z) (buflen : Z)
  (r : option (Z * Z)) : Prop :=
  match r with
  | None => forall p l, frame_at buf buflen p l -> MAX_FRAME_SIZE < l
  | Some (o, n) =>
      frame_at buf buflen o n /\ n <= MAX_FRAME_SIZE /\
      forall p l, frame_at buf buflen p l -> l <= MAX_FRAME_SIZE -> p <= o
  end.

(** Loop invariant on [best] when the scan stands at [pos]. *)
Definition best_upto (buf : list Z) (buflen pos : Z)
  (best : option (Z * Z)) : Prop :=
  match best with
  | None =>
      forall p l, frame_at buf buflen p l -> l <= MAX_FRAME_SIZE -> pos <= p
  | Some (o, n) =>
      frame_at buf buflen o n /\ n <= MAX_FRAME_SIZE /\ o < pos /\
      forall p l, frame_at buf buflen p l -> l <= MAX_FRAME_SIZE ->
        p <= o \/ pos <= p
  end.

(** ** Draining an input FIFO *)

(** What a non-blocking FIFO will hand out: the chunks that successive
    [read] calls can return.  No chunk left is [EAGAIN]; an empty chunk
    is a read of zero bytes. *)
Definition pipe : Type := list (list Z).

Definition pipe_bytes (p : pipe) : nat :=
  fold_right (fun c n => (List.length c + n)%nat) 0%nat p.

(** [read(fd, buf, space)]: the return value, the bytes stored and the
    pipe afterwards.  At most [space] bytes are returned; what does not
    fit stays in the pipe. *)
Definition read (p : pipe) (space : Z) : Z * list Z * pipe :=
  match p with
  | [] => (-1, [], [])
  | c :: rest =>
      let n := Z.min (Z.of_nat (List.length c)) space in
      (n, firstn (Z.to_nat n) c,
       if Z.of_nat (List.length c) <=? space then rest
       else skipn (Z.to_nat n) c :: rest)
  end.

(** The first half of the body of the [for (;;)] loop of [drain]: when
    [space == 0] the first half of the buffer is discarded
    ([memmove] of the second half to the front, [read_used -= half]). *)
Definition make_room (buf : list Z) : list Z :=
  let space := size_t (READ_BUF_SIZE - Z.of_nat (List.length buf)) in
  let half := READ_BUF_SIZE / 2 in
  if space =? 0 then skipn (Z.to_nat half) buf else buf.

(** The [for (;;)] loop of [drain] on the read buffer [buf]. *)
Fixpoint fill (fuel : nat) (buf : list Z) (p : pipe) : run (list Z * pipe) :=
  let buf1 := make_room buf in
  let space := size_t (READ_BUF_SIZE - Z.of_nat (List.length buf1)) in
  match read p space with
  | (n, data, p') =>
      if n <=? 0 then Ret (buf1, p')
      else match fuel with
           | O => OutOfFuel
           | S fuel' => fill fuel' (buf1 ++ data) p'
           end
  end.

(** [drain(inp)] with the pipe behind [inp->fd] and the reading [now]
    of the monotonic clock. *)
Definition drain (inp : Input) (p : pipe) (now : timespec) : Input * pipe :=
  match fill (pipe_bytes p) (read_buf inp) p with
  | OutOfFuel => (inp, p)
  | Ret (buf, p') =>
      let used := Z.of_nat (List.length buf) in
      let kept :=
        {| read_buf := buf; frame := frame inp;
           frame_size := frame_size inp; frame_time := frame_time inp |} in
      if used =? 0 then (kept, p')
      else
        match last_jpeg buf used with
        | Some (off, flen) =>
            if 0 <? flen then
              let consumed := off + flen in
              ({| read_buf :=
                    if consumed <? used then skipn (Z.to_nat consumed) buf
                    else [];
                  frame := firstn (Z.to_nat flen) (skipn (Z.to_nat off) buf);
                  frame_size := flen;
                  frame_time := now |}, p')
            else (kept, p')
        | None => (kept, p')
        end
  end.

(** Successive calls of [drain] on one input. *)
Fixpoint drains (inp : Input) (steps : list (pipe * timespec)) : Input :=
  match steps with
  | [] => inp
  | (p, now) :: rest => drains (fst (drain inp p now)) rest
  end.

(** [new] holds the newest bytes of [old ++ added]: only bytes at the
    front (the oldest) are missing. *)
Definition keeps_newest (old added new : list Z) : Prop :=
  exists dropped, old ++ added = dropped ++ new.

(** ** Control pipe *)

Definition is_lead (c : ascii) : bool :=
  (c =? " ")%char || (c =? "009")%char.

Definition is_trail (c : ascii) : bool :=
  (c =? "010")%char || (c =? "013")%char || (c =? " ")%char.

(** The first loop of [process_ctl_line]: advance [line] while it points
    at a space or a tab. *)
Fixpoint skip_lead (line : string) : string :=
  match line with
  | String c rest => if is_lead c then skip_lead rest else line
  | EmptyString => line
  end.

(** The second loop: while [len > 0] and [line[len-1]] is a newline, a
    carriage return or a space, cut the line at [--len].  Returns the
    final [len]. *)
Fixpoint trim_len (line : string) (len : nat) : nat :=
  match len with
  | O => O
  | S k =>
      match String.get k line with
      | Some c => if is_trail c then trim_len line k else len
      | None => len
      end
  end.

(** The line as the comparisons see it, after both trimming loops. *)
Definition trimmed (line : string) : string :=
  let l := skip_lead line in
  String.substring 0 (trim_len l (String.length l)) l.

(** The C library's [isspace] in the C locale. *)
Definition isspace (c : ascii) : bool :=
  (c =? " ")%char || (c =? "009")%char || (c =? "010")%char ||
  (c =? "011")%char || (c =? "012")%char || (c =? "013")%char.

Definition digit_of (c : ascii) : option Z :=
  let n := Z.of_nat (nat_of_ascii c) in
  if (48 <=? n) && (n <=? 57) then Some (n - 48) else None.

Fixpoint skip_space (s : string) : string :=
  match s with
  | String c rest => if isspace c then skip_space rest else s
  | EmptyString => s
  end.

(** The number that a run of leading decimal digits denotes. *)
Fixpoint digits (acc : Z) (s : string) : Z :=
  match s with
  | String c rest =>
      match digit_of c with
      | Some d => digits (10 * acc + d) rest
      | None => acc
      end
  | EmptyString => acc
  end.

(** The C library's [atoi] (ISO C: white space, an optional sign, then
    decimal digits; the behaviour is undefined when the value is not
    representable in an [int], which is [None] here). *)
Definition atoi (s : string) : option Z :=
  let s1 := skip_space s in
  let v :=
    match s1 with
    | String "-"%char rest => - digits 0 rest
    | String "+"%char rest => digits 0 rest
    | _ => digits 0 s1
    end in
  if (INT_MIN <=? v) && (v <=? INT_MAX) then Some v else None.

Definition set_mode (st : Mux) (m : MuxMode) (sel : Z) : Mux :=
  {| inputs := inputs st; num_inputs := num_inputs st;
     mode := m; selected := sel;
     testcard := testcard st; testcard_size := testcard_size st;
     timeout_ms := timeout_ms st |}.

(** [process_ctl_line(line)], where [line] is the text before the
    terminating NUL.  [None] is undefined behaviour (of [atoi]). *)
Definition process_ctl_line (st : Mux) (line : string) : option Mux :=
  let line := trimmed line in
  if (String.length line =? 0)%nat then Some st
  else if String.prefix "source " line then
    match atoi (String.substring 7 (String.length line - 7) line) with
    | Some n =>
        if (0 <=? n) && (n <? num_inputs st)
        then Some (set_mode st MODE_SOURCE n)
        else Some st
    | None => None
    end
  else if (line =? "testcard")%string then Some (set_mode st MODE_TESTCARD (-1))
  else if (line =? "auto")%string then Some (set_mode st MODE_AUTO (-1))
  else Some st.

(** The calls of [process_ctl_line] that [drain_ctl] makes for a run of
    complete lines. *)
Fixpoint process_ctl_lines (st : Mux) (lines : list string) : option Mux :=
  match lines with
  | [] => Some st
  | l :: rest =>
      match process_ctl_line st l with
      | Some st' => process_ctl_lines st' rest
      | None => None
      end
  end.

(** Every character of [s] satisfies [f]. *)
Fixpoint all_chars (f : ascii -> bool) (s : string) : bool :=
  match s with
  | EmptyString => true
  | String c rest => f c && all_chars f rest
  end.

(** The last character of [s]. *)
Fixpoint last_char (s : string) : option ascii :=
  match s with
  | EmptyString => None
  | String c EmptyString => Some c
  | String _ rest => last_char rest
  end.

(** The relation between [mode] and [selected]. *)
Definition mode_selected_ok (st : Mux) : Prop :=
  (mode st = MODE_SOURCE -> 0 <= selected st < num_inputs st) /\
  (mode st = MODE_AUTO \/ mode st = MODE_TESTCARD -> selected st = -1).

(** ** Frame selection *)

(** The buffer that a pointer returned by [choose_frame] points to. *)
Inductive frame_ptr : Type :=
| InputFrame (i : Z)
| TestcardFrame.

(** [inp->frame_size > 0 && elapsed_ms(&inp->frame_time, &now) < timeout_ms] *)
Definition recent (st : Mux) (inp : Input) (now : timespec) : bool :=
  (0 <? frame_size inp) &&
  Qltb (elapsed_ms (frame_time inp) now) (inject_Z (timeout_ms st)).

(** The code at label [use_testcard]. *)
Definition use_testcard (st : Mux) : option (frame_ptr * Z) :=
  match testcard st with
  | Some _ =>
      if 0 <? testcard_size st then Some (TestcardFrame, testcard_size st)
      else None
  | None => None
  end.

(** [for (int i = num_inputs - 1; i >= 0; i--)], with [n] the number of
    indices still to visit; [None] when the loop runs to its end. *)
Fixpoint auto_scan (st : Mux) (now : timespec) (n : nat)
  : option (frame_ptr * Z) :=
  match n with
  | O => None
  | S k =>
      let i := Z.of_nat k in
      let inp := input_at st i in
      if recent st inp now then Some (InputFrame i, frame_size inp)
      else auto_scan st now k
  end.

Definition is_source (m : MuxMode) : bool :=
  match m with MODE_SOURCE => true | _ => false end.

(** [choose_frame(&len)]: the pointer returned and [*len]; [None] is
    [NULL]. *)
Definition choose_frame (st : Mux) (now : timespec) : option (frame_ptr * Z) :=
  match mode st with
  | MODE_TESTCARD => use_testcard st
  | _ =>
      if is_source (mode st) && (0 <=? selected st) &&
         (selected st <? num_inputs st)
      then
        let inp := input_at st (selected st) in
        if recent st inp now then Some (InputFrame (selected st), frame_size inp)
        else use_testcard st
      else
        match auto_scan st now (Z.to_nat (num_inputs st)) with
        | Some r => Some r
        | None => use_testcard st
        end
  end.

(** ** Output *)

(** One pass through the loop of [write_stdout] as the system answers
    it: the value of [write], whether [errno] is [EAGAIN] or
    [EWOULDBLOCK] when that value is negative, and the value of the
    [poll] that follows in that case. *)
Record write_ev : Type := { w_ret : Z; w_again : bool; w_poll : Z }.

(** [write_stdout(data, len)] from [total] bytes written; the boolean is
    the return value.  The frame counter and the throughput report at
    its end write to the log only.  A trace that ends early is
    [OutOfFuel]. *)
Fixpoint write_stdout (len total : Z) (evs : list write_ev)
  : run (bool * list write_ev) :=
  if total <? len then
    match evs with
    | [] => OutOfFuel
    | ev :: rest =>
        if w_ret ev <? 0 then
          if w_again ev then
            if w_poll ev <=? 0 then Ret (false, rest)
            else write_stdout len total rest
          else Ret (false, rest)
        else if w_ret ev =? 0 then Ret (false, rest)
        else write_stdout len (total + w_ret ev) rest
    end
  else Ret (true, evs).

(** An answer of the system that makes [write_stdout] give up: a
    negative [write] that is not a would-block, a would-block whose
    [poll] does not report the output writable, or a [write] of zero
    bytes. *)
Definition fatal (ev : write_ev) : bool :=
  if w_ret ev <? 0 then
    if w_again ev then w_poll ev <=? 0 else true
  else w_ret ev =? 0.

(** ** Main *)

Definition MSG_WRITE_FAILED : string := "mux: stdout write failed, exiting".
Definition MSG_DONE : string := "folk-stream-mux: done".

(** [n_inputs] after the two clamps of [main]. *)
Definition clamp_inputs (n : Z) : Z :=
  let n1 := if n <? 1 then 1 else n in
  if MAX_INPUTS <? n1 then MAX_INPUTS else n1.

(** The globals when the main loop starts: static initialisers, the
    options [-n] and [-T], and the test card as [load_testcard] left
    it. *)
Definition startup (n_inputs timeout : Z) (card : option (list Z))
  (card_size : Z) : Mux :=
  {| inputs := repeat zero_input (Z.to_nat (clamp_inputs n_inputs));
     num_inputs := clamp_inputs n_inputs;
     mode := MODE_AUTO; selected := -1;
     testcard := card; testcard_size := card_size;
     timeout_ms := timeout |}.

(** [inputs[i] := inp] *)
Fixpoint set_nth (l : list Input) (i : nat) (inp : Input) : list Input :=
  match l, i with
  | [], _ => []
  | _ :: rest, O => inp :: rest
  | x :: rest, S k => x :: set_nth rest k inp
  end.

Definition set_input (st : Mux) (i : Z) (inp : Input) : Mux :=
  {| inputs := set_nth (inputs st) (Z.to_nat i) inp;
     num_inputs := num_inputs st; mode := mode st; selected := selected st;
     testcard := testcard st; testcard_size := testcard_size st;
     timeout_ms := timeout_ms st |}.

(** What the system does during one iteration of the main loop. *)
Record tick : Type := {
  (* SIGINT or SIGTERM is delivered during the iteration *)
  t_signal : bool;
  (* no descriptor could be opened: [nfds == 0] *)
  t_idle : bool;
  (* inputs that [poll] reports readable, in index order, each with the
     bytes in its pipe and the clock reading inside [drain] *)
  t_inputs : list (Z * pipe * timespec);
  (* the complete lines that [drain_ctl] passes on *)
  t_ctl : list string;
  (* the clock reading before the output step *)
  t_now : timespec;
  (* the answers to [write] and [poll] in [write_stdout] *)
  t_writes : list write_ev
}.

Inductive outcome : Type :=
| Exit (status : Z) (log : list string)
| Undefined
| Starved.

Definition drain_ready (st : Mux) (r : Z * pipe * timespec) : Mux :=
  match r with
  | (i, p, now) => set_input st i (fst (drain (input_at st i) p now))
  end.

(** The output step of the main loop: the new [last_out] and whether
    [write_stdout] failed. *)
Definition output_step (interval_ms : Z) (st : Mux) (last_out now : timespec)
  (evs : list write_ev) : run (timespec * bool) :=
  if (tv_sec last_out =? 0) ||
     Qle_bool (inject_Z interval_ms) (elapsed_ms last_out now)
  then
    match choose_frame st now with
    | Some (_, flen) =>
        if 0 <? flen then
          match write_stdout flen 0 evs with
          | Ret (ok, _) => Ret (now, negb ok)
          | OutOfFuel => OutOfFuel
          end
        else Ret (now, false)
    | None => Ret (now, false)
    end
  else Ret (last_out, false).

(** [while (running) { ... }] followed by the cleanup and [return 0] of
    [main].  The log holds the two messages on the way out. *)
Fixpoint main_loop (interval_ms : Z) (st : Mux) (last_out : timespec)
  (running : bool) (log : list string) (ticks : list tick) : outcome :=
  if running then
    match ticks with
    | [] => Starved
    | t :: rest =>
        if t_idle t then
          main_loop interval_ms st last_out (negb (t_signal t)) log rest
        else
          let st1 := fold_left drain_ready (t_inputs t) st in
          match process_ctl_lines st1 (t_ctl t) with
          | None => Undefined
          | Some st2 =>
              match output_step interval_ms st2 last_out (t_now t)
                      (t_writes t) with
              | OutOfFuel => Starved
              | Ret (last_out', failed) =>
                  if failed then
                    main_loop interval_ms st2 last_out' false
                      (log ++ [MSG_WRITE_FAILED])
                      rest
                  else
                    main_loop interval_ms st2 last_out'
                      (negb (t_signal t)) log rest
              end
          end
    end
  else Exit 0 (log ++ [MSG_DONE]).

(** [main] from the start of its loop. *)
Definition main (n_inputs timeout target_fps : Z) (card : option (list Z))
  (card_size : Z) (ticks : list tick) : outcome :=
  if target_fps =? 0 then Undefined
  else
    main_loop (Z.quot 1000 target_fps)
      (startup n_inputs timeout card card_size)
      {| tv_sec := 0; tv_nsec := 0 |} true [] ticks.

(** ** Sample buffers *)

(** [pre], then [n] zero bytes, then [post]. *)
Definition padded (pre : list Z) (n : nat) (post : list Z) : list Z :=
  pre ++ repeat 0 n ++ post.

(** A four-byte frame followed by a frame with [n] bytes of content. *)
Definition short_then_long (n : nat) : list Z :=
  padded [0xFF; 0xD8; 0xFF; 0xD9; 0xFF; 0xD8] n [0xFF; 0xD9].

(** A frame with [n] bytes of content followed by a four-byte frame. *)
Definition long_then_short (n : nat) : list Z :=
  padded [0xFF; 0xD8] n [0xFF; 0xD9; 0xFF; 0xD8; 0xFF; 0xD9].

(** ** Sample states *)

(** An input whose read buffer is full, of zero bytes, and whose frame
    cache is empty. *)
Definition full_input : Input :=
  {| read_buf := repeat 0 (Z.to_nat READ_BUF_SIZE); frame := [];
     frame_size := 0; frame_time := {| tv_sec := 0; tv_nsec := 0 |} |}.

(** An input whose cached frame has [size] bytes and was captured at
    [sec] seconds. *)
Definition input_with (size sec : Z) : Input :=
  {| read_buf := []; frame := repeat 0 (Z.to_nat size); frame_size := size;
     frame_time := {| tv_sec := sec; tv_nsec := 0 |} |}.

(** Three inputs, a test card of four bytes, a timeout of 500 ms. *)
Definition mux_with (i0 i1 i2 : Input) (m : MuxMode) (sel : Z) : Mux :=
  {| inputs := [i0; i1; i2]; num_inputs := 3; mode := m; selected := sel;
     testcard := Some [0xFF; 0xD8; 0xFF; 0xD9]; testcard_size := 4;
     timeout_ms := 500 |}.

(** A clock reading of [sec] seconds and [ms] milliseconds. *)
Definition at_time (sec ms : Z) : timespec :=
  {| tv_sec := sec; tv_nsec := ms * 1000000 |}.

(** Line terminators for sample control lines. *)
Definition CR : string := String "013"%char EmptyString.
Definition LF : string := String "010"%char EmptyString.
Definition TAB : string := String "009"%char EmptyString.

(** One iteration in which nothing is readable, the output step is due
    and the only [write] fails with an error other than would-block. *)
Definition failing_tick : tick :=
  {| t_signal := false; t_idle := false; t_inputs := []; t_ctl := [];
     t_now := at_time 5 0;
     t_writes := [{| w_ret := -1; w_again := false; w_poll := 0 |}] |}.

(** One iteration in which nothing is readable, the output step writes
    its four bytes in one [write], and SIGINT is delivered. *)
Definition interrupt_tick : tick :=
  {| t_signal := true; t_idle := false; t_inputs := []; t_ctl := [];
     t_now := at_time 5 0;
     t_writes := [{| w_ret := 4; w_again := false; w_poll := 0 |}] |}.

(** One iteration in which no descriptor could be opened and no signal
    is delivered. *)
Definition idle_tick : tick :=
  {| t_signal := false; t_idle := true; t_inputs := []; t_ctl := [];
     t_now := at_time 4 0; t_writes := [] |}.

(** ** Further notions used in Part II *)

(** [buf] and [buf'] hold the same bytes at the indices below [n]. *)
Definition same_bytes (buf buf' : list Z) (n : Z) : Prop :=
  forall i, 0 <= i < n -> byte_at buf i = byte_at buf' i.

(** The bytes [g] are one complete frame from their first byte to their
    last. *)
Definition one_frame (g : list Z) : Prop :=
  frame_at g (Z.of_nat (List.length g)) 0 (Z.of_nat (List.length g)).

(** The frame cache of an input is empty or holds one complete frame
    of [frame_size] bytes, at most [MAX_FRAME_SIZE]. *)
Definition cache_ok (inp : Input) : Prop :=
  frame_size inp = 0 \/
  (one_frame (frame inp) /\
   frame_size inp = Z.of_nat (List.length (frame inp)) /\
   frame_size inp <= MAX_FRAME_SIZE).

(** All the bytes that a run of [drain] calls is offered. *)
Definition offered (steps : list (pipe * timespec)) : list Z :=
  List.concat (map (fun s => List.concat (fst s)) steps).

(** No [read] of the run returns zero bytes. *)
Definition no_empty_chunk (p : pipe) : Prop :=
  forall c, In c p -> c <> [].

(** What [drain] makes of an input once its read buffer holds [buf]:
    the last fitting frame of [buf] goes to the frame cache, stamped
    [now], and the bytes behind it stay in the read buffer; without
    such a frame only the read buffer changes. *)
Definition extract_from (inp : Input) (buf : list Z) (now : timespec)
  : Input :=
  match last_jpeg buf (Z.of_nat (List.length buf)) with
  | Some (off, flen) =>
      {| read_buf := skipn (Z.to_nat (off + flen)) buf;
         frame := firstn (Z.to_nat flen) (skipn (Z.to_nat off) buf);
         frame_size := flen;
         frame_time := now |}
  | None =>
      {| read_buf := buf; frame := frame inp;
         frame_size := frame_size inp; frame_time := frame_time inp |}
  end.

(** A clock reading in nanoseconds. *)
Definition nanos (t : timespec) : Z := tv_sec t * 1000000000 + tv_nsec t.

(** The decimal digit [n], for [n] from 0 to 9, as a one-character
    string. *)
Definition digit_string (n : Z) : string :=
  String (ascii_of_nat (48 + Z.to_nat n)) EmptyString.

(** The text that the second trimming loop of [process_ctl_line]
    leaves of [l]. *)
Definition rstrip (l : string) : string :=
  String.substring 0 (trim_len l (String.length l)) l.

(** ** Reading the control pipe *)

(** What the control FIFO will hand out, as [pipe] does for an input. *)
Definition ctl_pipe : Type := list string.

Definition ctl_bytes (p : ctl_pipe) : nat :=
  fold_right (fun c n => (String.length c + n)%nat) 0%nat p.

(** [read(ctl_fd, ctl_buf + ctl_used, space)] *)
Definition read_ctl (p : ctl_pipe) (space : Z) : Z * string * ctl_pipe :=
  match p with
  | [] => (-1, EmptyString, [])
  | c :: rest =>
      let n := Z.min (Z.of_nat (String.length c)) space in
      (n, String.substring 0 (Z.to_nat n) c,
       if Z.of_nat (String.length c) <=? space then rest
       else String.substring (Z.to_nat n) (String.length c - Z.to_nat n) c
            :: rest)
  end.

(** The [for (;;)] loop of [drain_ctl]; [buf] is the text of the
    [ctl_used] characters that [ctl_buf] holds.  When no room is left
    for another character and the terminator, the buffer is emptied. *)
Fixpoint fill_ctl (fuel : nat) (buf : string) (p : ctl_pipe)
  : run (string * ctl_pipe) :=
  let used := Z.of_nat (String.length buf) in
  let space := size_t (CTL_BUF_SIZE - used - 1) in
  let buf1 := if space =? 0 then EmptyString else buf in
  let space1 := if space =? 0 then CTL_BUF_SIZE - 1 else space in
  match read_ctl p space1 with
  | (n, data, p') =>
      if n <=? 0 then Ret (buf1, p')
      else match fuel with
           | O => OutOfFuel
           | S fuel' => fill_ctl fuel' (buf1 ++ data)%string p'
           end
  end.

(** [strchr(start, '\n')] on the text [s] from [start] to the end of
    the buffer: the number of characters before the first newline.
    The search ends at the first NUL, where the C string ends. *)
Fixpoint find_newline (s : string) : option nat :=
  match s with
  | EmptyString => None
  | String c rest =>
      if (c =? "000")%char then None
      else if (c =? "010")%char then Some O
      else option_map S (find_newline rest)
  end.

(** The [while] loop of [drain_ctl] over complete lines, on the state
    [st] and the text [s] from [start] on.  Returns the state and the
    text that stays in the buffer; [None] is undefined behaviour in
    [process_ctl_line]. *)
Fixpoint ctl_lines (fuel : nat) (st : Mux) (s : string)
  : run (option (Mux * string)) :=
  match find_newline s with
  | None => Ret (Some (st, s))
  | Some k =>
      match process_ctl_line st (String.substring 0 k s) with
      | None => Ret None
      | Some st' =>
          match fuel with
          | O => OutOfFuel
          | S fuel' =>
              ctl_lines fuel' st'
                (String.substring (S k) (String.length s - S k) s)
          end
      end
  end.

(** [drain_ctl()] on the state [st], the buffered text [buf] and the
    pipe [p]: the new state, the text kept in the buffer, the pipe. *)
Definition drain_ctl (st : Mux) (buf : string) (p : ctl_pipe)
  : run (option (Mux * string * ctl_pipe)) :=
  match fill_ctl (ctl_bytes p) buf p with
  | OutOfFuel => OutOfFuel
  | Ret (buf1, p') =>
      match ctl_lines (String.length buf1) st buf1 with
      | OutOfFuel => OutOfFuel
      | Ret None => Ret None
      | Ret (Some (st', rest)) => Ret (Some (st', rest, p'))
      end
  end.

(** The lines of a text that end in a newline, without it, and the
    unterminated text behind the last newline. *)
Fixpoint split_lines (s : string) : list string * string :=
  match s with
  | EmptyString => ([], EmptyString)
  | String c rest =>
      match split_lines rest with
      | (ls, tail) =>
          if (c =? "010")%char then (EmptyString :: ls, tail)
          else match ls with
               | [] => ([], String c tail)
               | l :: ls' => (String c l :: ls', tail)
               end
      end
  end.

(** The text holds no NUL character. *)
Definition no_nul (s : string) : bool :=
  all_chars (fun c => negb (c =? "000")%char) s.

(** All the text of a control pipe. *)
Definition ctl_text (p : ctl_pipe) : string :=
  fold_right String.append EmptyString p.

(** [process_ctl_lines] with an undefined start. *)
Definition then_lines (st : option Mux) (lines : list string) : option Mux :=
  match st with
  | Some s => process_ctl_lines s lines
  | None => None
  end.

(** No [read] of the control pipe returns zero characters. *)
Definition no_empty_text (p : ctl_pipe) : Prop :=
  forall c, In c p -> c <> EmptyString.

(** ** The state of the main loop *)

(** The bytes that the answers [evs] to [write] report as written. *)
Fixpoint written (evs : list write_ev) : Z :=
  match evs with
  | [] => 0
  | ev :: rest => (if 0 <? w_ret ev then w_ret ev else 0) + written rest
  end.

(** The globals after the input and control steps of one iteration of
    the main loop, as [main_loop] computes them; [None] is undefined
    behaviour in [process_ctl_line]. *)
Definition tick_state (st : Mux) (t : tick) : option Mux :=
  if t_idle t then Some st
  else process_ctl_lines (fold_left drain_ready (t_inputs t) st) (t_ctl t).

(** The globals after a run of iterations. *)
Fixpoint run_ticks (st : Mux) (ticks : list tick) : option Mux :=
  match ticks with
  | [] => Some st
  | t :: rest =>
      match tick_state st t with
      | Some st' => run_ticks st' rest
      | None => None
      end
  end.

(** What holds of the globals throughout: the mode and the selected
    index fit each other, [num_inputs] is the number of inputs, between
    1 and [MAX_INPUTS], and every input has a read buffer within its
    capacity and a frame cache that is empty or one complete frame. *)
Definition mux_ok (st : Mux) : Prop :=
  mode_selected_ok st /\
  Z.of_nat (List.length (inputs st)) = num_inputs st /\
  1 <= num_inputs st <= MAX_INPUTS /\
  forall i, 0 <= i < num_inputs st ->
    read_used (input_at st i) <= READ_BUF_SIZE /\
    cache_ok (input_at st i).

(** * Part II: proofs *)

(** ** The frame extractor *)

Module FrameExtractor.

Section Facts.

Variable buf : list Z.
Variable buflen : Z.

Lemma is_soi_spec p : is_soi buf p = true <-> soi_at buf p.
Proof.
  unfold is_soi, soi_at. rewrite andb_true_iff, !Z.eqb_eq. reflexivity.
Qed.

Lemma is_eoi_spec e : is_eoi buf e = true <-> eoi_at buf e.
Proof.
  unfold is_eoi, eoi_at. rewrite andb_true_iff, !Z.eqb_eq. reflexivity.
Qed.

Lemma soi_not_eoi p : soi_at buf p -> ~ eoi_at buf p.
Proof. intros [_ H] [_ H']. rewrite H in H'. discriminate. Qed.

(** Markers cannot overlap by one byte: the second byte of a marker is
    never [0xFF]. *)
Lemma soi_then_not_eoi_next p : soi_at buf p -> ~ eoi_at buf (p + 1).
Proof. intros [_ H] [H' _]. rewrite H in H'. discriminate. Qed.

Lemma eoi_then_not_soi_next e : eoi_at buf e -> ~ soi_at buf (e + 1).
Proof. intros [_ H] [H' _]. rewrite H in H'. discriminate. Qed.

Lemma soi_then_not_soi_next p : soi_at buf p -> ~ soi_at buf (p + 1).
Proof. intros [_ H] [H' _]. rewrite H in H'. discriminate. Qed.

Lemma find_eoi_eq fuel j :
  find_eoi fuel buf buflen j =
  if j + 1 <? buflen then
    if is_eoi buf j then Ret (Some j)
    else match fuel with
         | O => OutOfFuel
         | S fuel' => find_eoi fuel' buf buflen (j + 1)
         end
  else Ret None.
Proof. destruct fuel; reflexivity. Qed.

Lemma scan_eq fuel pos best :
  scan fuel buf buflen pos best =
  if pos + 1 <? buflen then
    if is_soi buf pos then
      match find_eoi (Z.to_nat buflen) buf buflen (pos + 2) with
      | Ret (Some j) =>
          let flen := (j + 2) - pos in
          let best' :=
            if flen <=? MAX_FRAME_SIZE then Some (pos, flen) else best in
          match fuel with
          | O => OutOfFuel
          | S fuel' => scan fuel' buf buflen (j + 2) best'
          end
      | Ret None => Ret best
      | OutOfFuel => OutOfFuel
      end
    else match fuel with
         | O => OutOfFuel
         | S fuel' => scan fuel' buf buflen (pos + 1) best
         end
  else Ret best.
Proof. destruct fuel; reflexivity. Qed.

(** The inner loop finds the first end marker at or after [j], and
    reports its absence only when there is none. *)
Lemma find_eoi_spec fuel :
  forall j, (Z.to_nat (buflen - j) <= fuel)%nat ->
  match find_eoi fuel buf buflen j with
  | Ret (Some e) =>
      j <= e /\ e + 1 < buflen /\ eoi_at buf e /\
      forall k, j <= k < e -> ~ eoi_at buf k
  | Ret None => forall k, j <= k -> k + 1 < buflen -> ~ eoi_at buf k
  | OutOfFuel => False
  end.
Proof.
  induction fuel as [|fuel IH]; intros j Hf; rewrite find_eoi_eq.
  - destruct (j + 1 <? buflen) eqn:Hc.
    + apply Z.ltb_lt in Hc. lia.
    + apply Z.ltb_ge in Hc. intros k Hk Hk'. lia.
  - destruct (j + 1 <? buflen) eqn:Hc.
    + apply Z.ltb_lt in Hc.
      destruct (is_eoi buf j) eqn:He.
      * apply is_eoi_spec in He.
        split; [lia|]. split; [lia|]. split; [exact He|]. intros k Hk. lia.
      * assert (Hne : ~ eoi_at buf j).
        { intros H. apply is_eoi_spec in H. congruence. }
        specialize (IH (j + 1)).
        assert (Hf' : (Z.to_nat (buflen - (j + 1)) <= fuel)%nat) by lia.
        specialize (IH Hf').
        destruct (find_eoi fuel buf buflen (j + 1)) as [[e|]|]; auto.
        -- destruct IH as (H1 & H2 & H3 & H4).
           split; [lia|]. split; [lia|]. split; [exact H3|].
           intros k Hk. destruct (Z.eq_dec k j) as [-> | Hkj]; auto.
           apply H4. lia.
        -- intros k Hk Hk'. destruct (Z.eq_dec k j) as [-> | Hkj]; auto.
           apply IH; lia.
    + apply Z.ltb_ge in Hc. intros k Hk Hk'. lia.
Qed.

(** A frame is determined by its offset. *)
Lemma frame_at_length_unique p l1 l2 :
  frame_at buf buflen p l1 -> frame_at buf buflen p l2 -> l1 = l2.
Proof.
  intros (_ & Hl1 & _ & _ & He1 & Hn1 & _) (_ & Hl2 & _ & _ & He2 & Hn2 & _).
  destruct (Z.lt_trichotomy l1 l2) as [H|[H|H]]; auto.
  - exfalso. apply (Hn2 (p + l1 - 2)); [lia|exact He1].
  - exfalso. apply (Hn1 (p + l2 - 2)); [lia|exact He2].
Qed.

(** Frames do not overlap: a later frame starts after an earlier one
    ends. *)
Lemma frame_at_disjoint p l p' l' :
  frame_at buf buflen p l -> frame_at buf buflen p' l' -> p < p' ->
  p + l <= p'.
Proof.
  intros (Hp & Hl & _ & Hs & He & Hn & _) (_ & _ & _ & _ & _ & _ & Hc) Hlt.
  destruct (Hc p) as (e & H1 & H2 & H3); auto; try lia.
  destruct (Z_lt_le_dec e (p + l - 2)) as [H|H]; try lia.
  exfalso. apply (Hn e); [lia|exact H3].
Qed.

(** Moving past a position that holds no start marker. *)
Lemma closed_before_skip pos :
  closed_before buf pos -> ~ soi_at buf pos -> closed_before buf (pos + 1).
Proof.
  intros Hc Hs q Hq Hsq.
  destruct (Z.eq_dec q pos) as [-> | Hne]; [contradiction|].
  destruct (Hc q) as (e & H1 & H2 & H3); auto; try lia.
  exists e. split; [lia|]. split; [lia|exact H3].
Qed.

(** Moving past a region that was just closed at [e]. *)
Lemma closed_before_jump pos e :
  closed_before buf pos -> soi_at buf pos -> pos + 2 <= e ->
  eoi_at buf e -> closed_before buf (e + 2).
Proof.
  intros Hc Hs Hle He q Hq Hsq.
  destruct (Z_lt_le_dec q pos) as [Hlt|Hge].
  - destruct (Hc q) as (e' & H1 & H2 & H3); auto; try lia.
    exists e'. split; [lia|]. split; [lia|exact H3].
  - destruct (Z_le_gt_dec (q + 2) e) as [Hin|Hout].
    + exists e. split; [lia|]. split; [lia|exact He].
    + exfalso.
      assert (Hcases : q = e - 1 \/ q = e \/ q = e + 1) by lia.
      destruct Hcases as [-> | [-> | ->]].
      * apply (soi_then_not_eoi_next (e - 1)); auto.
        replace (e - 1 + 1) with e by lia. exact He.
      * apply (soi_not_eoi e); auto.
      * apply (eoi_then_not_soi_next e); auto.
Qed.

(** The region that the scan delimits at [pos] is a frame. *)
Lemma frame_here pos e :
  0 <= pos -> closed_before buf pos -> soi_at buf pos ->
  pos + 2 <= e -> e + 1 < buflen -> eoi_at buf e ->
  (forall k, pos + 2 <= k < e -> ~ eoi_at buf k) ->
  frame_at buf buflen pos (e + 2 - pos).
Proof.
  intros Hpos Hc Hs Hle Hlt He Hn. unfold frame_at.
  replace (pos + (e + 2 - pos) - 2) with e by lia.
  split; [lia|]. split; [lia|]. split; [lia|]. split; [exact Hs|].
  split; [exact He|]. split; [exact Hn|exact Hc].
Qed.

(** No frame starts strictly inside an open region. *)
Lemma no_frame_inside pos e p l :
  0 <= pos -> soi_at buf pos ->
  (forall k, pos + 2 <= k < e -> ~ eoi_at buf k) ->
  frame_at buf buflen p l -> pos < p -> p < e + 2 -> False.
Proof.
  intros Hpos Hs Hn (_ & _ & _ & _ & _ & _ & Hc) H1 H2.
  destruct (Hc pos) as (e' & Ha & Hb & He'); [lia|exact Hs|].
  apply (Hn e'); [lia|exact He'].
Qed.

Lemma best_upto_skip pos best :
  best_upto buf buflen pos best -> ~ soi_at buf pos ->
  best_upto buf buflen (pos + 1) best.
Proof.
  intros Hb Hs.
  assert (Hno : forall p l, frame_at buf buflen p l -> p <> pos).
  { intros p l (_ & _ & _ & Hsp & _) ->. contradiction. }
  destruct best as [[o n]|]; simpl in *.
  - destruct Hb as (Hf & Hn & Ho & Hall).
    split; [exact Hf|]. split; [exact Hn|]. split; [lia|].
    intros p l Hp Hl. specialize (Hno p l Hp).
    destruct (Hall p l Hp Hl); [left|right]; lia.
  - intros p l Hp Hl. specialize (Hno p l Hp). specialize (Hb p l Hp Hl). lia.
Qed.

Lemma best_upto_jump pos flen next best :
  next = pos + flen ->
  best_upto buf buflen pos best ->
  frame_at buf buflen pos flen ->
  (forall p l, frame_at buf buflen p l -> pos < p -> next <= p) ->
  best_upto buf buflen next
    (if flen <=? MAX_FRAME_SIZE then Some (pos, flen) else best).
Proof.
  intros -> Hb Hf Hin.
  assert (H4 : 4 <= flen) by (destruct Hf as (_ & H & _); exact H).
  destruct (flen <=? MAX_FRAME_SIZE) eqn:Hfit.
  - apply Z.leb_le in Hfit. simpl.
    split; [exact Hf|]. split; [exact Hfit|]. split; [lia|].
    intros p l Hp Hl.
    destruct (Z_le_gt_dec p pos) as [Hle|Hgt]; [left; exact Hle|right].
    apply (Hin p l Hp). lia.
  - apply Z.leb_gt in Hfit.
    assert (Hnot : forall p l, frame_at buf buflen p l ->
                     l <= MAX_FRAME_SIZE -> p <> pos).
    { intros p l Hp Hl ->.
      pose proof (frame_at_length_unique _ _ _ Hp Hf). lia. }
    destruct best as [[o n]|]; simpl in *.
    + destruct Hb as (Hfo & Hn & Ho & Hall).
      split; [exact Hfo|]. split; [exact Hn|]. split; [lia|].
      intros p l Hp Hl. specialize (Hnot p l Hp Hl).
      destruct (Hall p l Hp Hl) as [H|H]; [left; exact H|right].
      apply (Hin p l Hp). lia.
    + intros p l Hp Hl. specialize (Hnot p l Hp Hl).
      specialize (Hb p l Hp Hl). apply (Hin p l Hp). lia.
Qed.

Lemma best_upto_final pos best :
  best_upto buf buflen pos best ->
  (forall p l, frame_at buf buflen p l -> p < pos) ->
  last_fitting buf buflen best.
Proof.
  intros Hb Hno. destruct best as [[o n]|]; simpl in *.
  - destruct Hb as (Hf & Hn & Ho & Hall).
    split; [exact Hf|]. split; [exact Hn|].
    intros p l Hp Hl. specialize (Hno p l Hp).
    destruct (Hall p l Hp Hl); lia.
  - intros p l Hp. specialize (Hno p l Hp).
    destruct (Z_lt_le_dec MAX_FRAME_SIZE l) as [H|H]; [exact H|].
    specialize (Hb p l Hp H). lia.
Qed.

(** The outer loop, run with enough fuel from a position outside any
    open region, returns the last frame that fits. *)
Lemma scan_correct fuel :
  forall pos best,
    0 <= pos -> (Z.to_nat (buflen - pos) <= fuel)%nat ->
    closed_before buf pos -> best_upto buf buflen pos best ->
    exists r, scan fuel buf buflen pos best = Ret r /\
              last_fitting buf buflen r.
Proof.
  induction fuel as [|fuel IH]; intros pos best Hpos Hfuel Hc Hb;
    rewrite scan_eq.
  - assert (Hlen : buflen <= pos) by lia.
    destruct (pos + 1 <? buflen) eqn:Ht; [apply Z.ltb_lt in Ht; lia|].
    exists best. split; [reflexivity|].
    apply (best_upto_final pos); [exact Hb|].
    intros p l (_ & H4 & Hin & _). lia.
  - destruct (pos + 1 <? buflen) eqn:Ht.
    + apply Z.ltb_lt in Ht.
      destruct (is_soi buf pos) eqn:Hs.
      * apply is_soi_spec in Hs.
        pose proof (find_eoi_spec (Z.to_nat buflen) (pos + 2)) as Hfe.
        assert (Hfu : (Z.to_nat (buflen - (pos + 2)) <= Z.to_nat buflen)%nat)
          by lia.
        specialize (Hfe Hfu).
        destruct (find_eoi (Z.to_nat buflen) buf buflen (pos + 2))
          as [[e|]|]; [| |contradiction].
        -- destruct Hfe as (He1 & He2 & He3 & He4).
           pose proof (frame_here pos e Hpos Hc Hs He1 He2 He3 He4) as Hf.
           cbv zeta.
           apply IH.
           ++ lia.
           ++ lia.
           ++ apply (closed_before_jump pos e); assumption.
           ++ apply best_upto_jump; [lia|exact Hb|exact Hf|].
              intros p l Hp Hlt.
              destruct (Z_lt_le_dec p (e + 2)) as [Hin|Hout]; [|lia].
              exfalso.
              apply (no_frame_inside pos e p l Hpos Hs He4 Hp Hlt Hin).
        -- exists best. split; [reflexivity|].
           apply (best_upto_final pos); [exact Hb|].
           intros p l Hp.
           destruct (Z_lt_le_dec p pos) as [Hlt|Hge]; [exact Hlt|exfalso].
           destruct Hp as (_ & H4 & Hin & _ & Hep & _ & Hcp).
           destruct (Z.eq_dec p pos) as [-> | Hne].
           ++ apply (Hfe (pos + l - 2)); [lia|lia|exact Hep].
           ++ destruct (Hcp pos) as (e & Ha & Hb' & He); [lia|exact Hs|].
              apply (Hfe e); [lia|lia|exact He].
      * assert (Hns : ~ soi_at buf pos).
        { intros H. apply is_soi_spec in H. congruence. }
        apply IH.
        -- lia.
        -- lia.
        -- apply closed_before_skip; assumption.
        -- apply best_upto_skip; assumption.
    + apply Z.ltb_ge in Ht.
      exists best. split; [reflexivity|].
      apply (best_upto_final pos); [exact Hb|].
      intros p l (_ & H4 & Hin & _). lia.
Qed.

(** The fuel handed to the outer loop by [last_jpeg] is enough. *)
Lemma last_jpeg_total :
  exists r, scan (Z.to_nat buflen) buf buflen 0 None = Ret r.
Proof.
  destruct (scan_correct (Z.to_nat buflen) 0 None) as (r & Hr & _).
  - lia.
  - rewrite Z.sub_0_r. apply Nat.le_refl.
  - intros q Hq. lia.
  - simpl. intros p l (Hp & _) _. exact Hp.
  - exists r. exact Hr.
Qed.

(** [last_jpeg] returns the last frame that fits [MAX_FRAME_SIZE]. *)
Lemma last_jpeg_spec : last_fitting buf buflen (last_jpeg buf buflen).
Proof.
  unfold last_jpeg.
  destruct (scan_correct (Z.to_nat buflen) 0 None) as (r & Hr & Hspec).
  - lia.
  - rewrite Z.sub_0_r. apply Nat.le_refl.
  - intros q Hq. lia.
  - simpl. intros p l (Hp & _) _. exact Hp.
  - rewrite Hr. exact Hspec.
Qed.

(** [last_fitting] determines the result. *)
Lemma last_fitting_unique r1 r2 :
  last_fitting buf buflen r1 -> last_fitting buf buflen r2 -> r1 = r2.
Proof.
  destruct r1 as [[o1 n1]|], r2 as [[o2 n2]|]; simpl.
  - intros (Hf1 & Hn1 & H1) (Hf2 & Hn2 & H2).
    pose proof (H1 _ _ Hf2 Hn2). pose proof (H2 _ _ Hf1 Hn1).
    assert (o1 = o2) by lia. subst o2.
    rewrite (frame_at_length_unique _ _ _ Hf1 Hf2). reflexivity.
  - intros (Hf1 & Hn1 & _) H2. specialize (H2 _ _ Hf1). lia.
  - intros H1 (Hf2 & Hn2 & _). specialize (H1 _ _ Hf2). lia.
  - reflexivity.
Qed.

Lemma last_jpeg_eq r : last_fitting buf buflen r -> last_jpeg buf buflen = r.
Proof.
  intros H. apply last_fitting_unique; [apply last_jpeg_spec|exact H].
Qed.

End Facts.

(** *** Bytes and frames of the sample buffers *)

Lemma byte_at_padded_pre pre n post i :
  0 <= i < Z.of_nat (List.length pre) ->
  byte_at (padded pre n post) i = byte_at pre i.
Proof.
  intros H. unfold byte_at, padded. apply app_nth1. lia.
Qed.

Lemma byte_at_padded_mid pre n post i :
  Z.of_nat (List.length pre) <= i < Z.of_nat (List.length pre) + Z.of_nat n ->
  byte_at (padded pre n post) i = 0.
Proof.
  intros H. unfold byte_at, padded.
  rewrite app_nth2 by lia.
  rewrite app_nth1 by (rewrite repeat_length; lia).
  apply nth_repeat.
Qed.

Lemma byte_at_padded_post pre n post i :
  Z.of_nat (List.length pre) + Z.of_nat n <= i ->
  byte_at (padded pre n post) i =
  byte_at post (i - Z.of_nat (List.length pre) - Z.of_nat n).
Proof.
  intros H. unfold byte_at, padded.
  rewrite app_nth2 by lia.
  rewrite app_nth2 by (rewrite repeat_length; lia).
  f_equal. rewrite repeat_length. lia.
Qed.

Lemma byte_at_beyond l i :
  Z.of_nat (List.length l) <= i -> byte_at l i = 0.
Proof. intros H. unfold byte_at. apply nth_overflow. lia. Qed.

(** A marker does not touch the zero padding. *)
Lemma padded_marker pre n post p :
  (1 <= n)%nat -> 0 <= p ->
  byte_at (padded pre n post) p = 0xFF ->
  byte_at (padded pre n post) (p + 1) <> 0 ->
  p + 1 < Z.of_nat (List.length pre) \/
  Z.of_nat (List.length pre) + Z.of_nat n <= p.
Proof.
  intros Hn Hp H1 H2.
  destruct (Z_lt_le_dec (p + 1) (Z.of_nat (List.length pre))) as [Ha|Ha];
    [left; exact Ha|].
  destruct (Z_lt_le_dec p (Z.of_nat (List.length pre) + Z.of_nat n))
    as [Hb|Hb]; [exfalso|right; exact Hb].
  destruct (Z_lt_le_dec p (Z.of_nat (List.length pre))) as [Hc|Hc].
  - apply H2. apply byte_at_padded_mid. lia.
  - rewrite byte_at_padded_mid in H1 by lia. discriminate.
Qed.

Lemma padded_soi pre n post p :
  (1 <= n)%nat -> 0 <= p -> soi_at (padded pre n post) p ->
  p + 1 < Z.of_nat (List.length pre) \/
  Z.of_nat (List.length pre) + Z.of_nat n <= p.
Proof.
  intros Hn Hp [H1 H2]. apply (padded_marker pre n post p); auto.
  rewrite H2. discriminate.
Qed.

Lemma padded_eoi pre n post p :
  (1 <= n)%nat -> 0 <= p -> eoi_at (padded pre n post) p ->
  p + 1 < Z.of_nat (List.length pre) \/
  Z.of_nat (List.length pre) + Z.of_nat n <= p.
Proof.
  intros Hn Hp [H1 H2]. apply (padded_marker pre n post p); auto.
  rewrite H2. discriminate.
Qed.

(** The start markers of [short_then_long n] are at 0 and 4. *)
Lemma short_then_long_soi n p :
  (1 <= n)%nat -> 0 <= p -> soi_at (short_then_long n) p -> p = 0 \/ p = 4.
Proof.
  intros Hn Hp Hs.
  destruct (padded_soi _ _ _ _ Hn Hp Hs) as [H|H]; simpl List.length in H.
  - destruct Hs as [H1 H2]. unfold short_then_long in *.
    rewrite byte_at_padded_pre in H1 by (simpl List.length; lia).
    rewrite byte_at_padded_pre in H2 by (simpl List.length; lia).
    assert (Hc : p = 0 \/ p = 1 \/ p = 2 \/ p = 3 \/ p = 4) by lia.
    destruct Hc as [-> | [-> | [-> | [-> | ->]]]];
      try (left; reflexivity); try (right; reflexivity);
      try discriminate H1; discriminate H2.
  - exfalso. destruct Hs as [H1 H2]. unfold short_then_long in *.
    rewrite byte_at_padded_post in H1 by (simpl List.length; lia).
    rewrite byte_at_padded_post in H2 by (simpl List.length; lia).
    simpl List.length in *.
    destruct (Z.eq_dec p (6 + Z.of_nat n)) as [-> | Hne].
    + replace (6 + Z.of_nat n + 1 - Z.of_nat 6 - Z.of_nat n) with 1 in H2
        by lia.
      discriminate H2.
    + destruct (Z.eq_dec p (7 + Z.of_nat n)) as [-> | Hne'].
      * replace (7 + Z.of_nat n - Z.of_nat 6 - Z.of_nat n) with 1 in H1
          by lia.
        discriminate H1.
      * rewrite byte_at_beyond in H1 by (simpl List.length; lia). discriminate H1.
Qed.

Lemma short_then_long_first n :
  frame_at (short_then_long n) (Z.of_nat n + 8) 0 4.
Proof.
  unfold frame_at.
  split; [lia|]. split; [lia|]. split; [lia|].
  split; [split; reflexivity|]. split; [split; reflexivity|].
  split; [intros e He; lia|intros q Hq; lia].
Qed.

Lemma short_then_long_second n :
  (1 <= n)%nat ->
  frame_at (short_then_long n) (Z.of_nat n + 8) 4 (Z.of_nat n + 4).
Proof.
  intros Hn. unfold frame_at.
  split; [lia|]. split; [lia|]. split; [lia|].
  split; [split; reflexivity|].
  split.
  { unfold eoi_at, short_then_long.
    rewrite !byte_at_padded_post by (simpl List.length; lia). simpl List.length.
    replace (4 + (Z.of_nat n + 4) - 2 - Z.of_nat 6 - Z.of_nat n) with 0 by lia.
    replace (4 + (Z.of_nat n + 4) - 2 + 1 - Z.of_nat 6 - Z.of_nat n) with 1
      by lia.
    split; reflexivity. }
  split.
  { intros e He [H1 _]. unfold short_then_long in H1.
    rewrite byte_at_padded_mid in H1 by (simpl List.length; lia). discriminate H1. }
  intros q Hq Hs.
  destruct (short_then_long_soi n q Hn) as [-> | ->]; [lia|exact Hs| |lia].
  exists 2. split; [lia|]. split; [lia|]. split; reflexivity.
Qed.

(** [short_then_long]: when the second frame is too long, the first one
    is what [last_jpeg] returns. *)
Lemma short_then_long_result n :
  (1 <= n)%nat -> MAX_FRAME_SIZE < Z.of_nat n + 4 ->
  last_jpeg (short_then_long n) (Z.of_nat n + 8) = Some (0, 4).
Proof.
  intros Hn Hbig. apply last_jpeg_eq. simpl.
  split; [apply short_then_long_first|].
  split; [unfold MAX_FRAME_SIZE; lia|].
  intros p l Hp Hl.
  assert (Hs : soi_at (short_then_long n) p) by (destruct Hp as (_&_&_&H&_); exact H).
  assert (H0 : 0 <= p) by (destruct Hp as (H&_); exact H).
  destruct (short_then_long_soi n p Hn H0 Hs) as [-> | ->]; [lia|].
  pose proof (frame_at_length_unique _ _ _ _ _ Hp (short_then_long_second n Hn)).
  lia.
Qed.

Lemma long_then_short_first n :
  (1 <= n)%nat ->
  frame_at (long_then_short n) (Z.of_nat n + 8) 0 (Z.of_nat n + 4).
Proof.
  intros Hn. unfold frame_at.
  split; [lia|]. split; [lia|]. split; [lia|].
  split; [split; reflexivity|].
  split.
  { unfold eoi_at, long_then_short.
    rewrite !byte_at_padded_post by (simpl List.length; lia). simpl List.length.
    replace (0 + (Z.of_nat n + 4) - 2 - Z.of_nat 2 - Z.of_nat n) with 0 by lia.
    replace (0 + (Z.of_nat n + 4) - 2 + 1 - Z.of_nat 2 - Z.of_nat n) with 1
      by lia.
    split; reflexivity. }
  split.
  { intros e He [H1 _]. unfold long_then_short in H1.
    rewrite byte_at_padded_mid in H1 by (simpl List.length; lia). discriminate H1. }
  intros q Hq. lia.
Qed.

Lemma long_then_short_second n :
  (1 <= n)%nat ->
  frame_at (long_then_short n) (Z.of_nat n + 8) (Z.of_nat n + 4) 4.
Proof.
  intros Hn. unfold frame_at.
  split; [lia|]. split; [lia|]. split; [lia|].
  split.
  { unfold soi_at, long_then_short.
    rewrite !byte_at_padded_post by (simpl List.length; lia). simpl List.length.
    replace (Z.of_nat n + 4 - Z.of_nat 2 - Z.of_nat n) with 2 by lia.
    replace (Z.of_nat n + 4 + 1 - Z.of_nat 2 - Z.of_nat n) with 3 by lia.
    split; reflexivity. }
  split.
  { unfold eoi_at, long_then_short.
    rewrite !byte_at_padded_post by (simpl List.length; lia). simpl List.length.
    replace (Z.of_nat n + 4 + 4 - 2 - Z.of_nat 2 - Z.of_nat n) with 4 by lia.
    replace (Z.of_nat n + 4 + 4 - 2 + 1 - Z.of_nat 2 - Z.of_nat n) with 5
      by lia.
    split; reflexivity. }
  split; [intros e He; lia|].
  intros q Hq Hs.
  assert (Hq0 : q = 0).
  { destruct (padded_soi _ _ _ _ Hn (proj1 Hq) Hs) as [H|H]; simpl List.length in H;
      [lia|exfalso].
    destruct Hs as [H1 H2]. unfold long_then_short in *.
    rewrite byte_at_padded_post in H1 by (simpl List.length; lia).
    rewrite byte_at_padded_post in H2 by (simpl List.length; lia).
    simpl List.length in *.
    destruct (Z.eq_dec q (2 + Z.of_nat n)) as [-> | Hne].
    - replace (2 + Z.of_nat n + 1 - Z.of_nat 2 - Z.of_nat n) with 1 in H2
        by lia.
      discriminate H2.
    - assert (q = 3 + Z.of_nat n) by lia. subst q.
      replace (3 + Z.of_nat n - Z.of_nat 2 - Z.of_nat n) with 1 in H1 by lia.
      discriminate H1. }
  subst q. exists (Z.of_nat n + 2).
  split; [lia|]. split; [lia|].
  destruct (long_then_short_first n Hn) as (_ & _ & _ & _ & He & _).
  replace (0 + (Z.of_nat n + 4) - 2) with (Z.of_nat n + 2) in He by lia.
  exact He.
Qed.


(** *** What [last_jpeg] returns *)

(** On a frame, the inner loop stops at the frame's end marker. *)
Lemma find_eoi_frame buf buflen p l :
  frame_at buf buflen p l ->
  find_eoi (Z.to_nat buflen) buf buflen (p + 2) = Ret (Some (p + l - 2)).
Proof.
  intros (Hp & Hl & Hin & Hs & He & Hn & _).
  pose proof (find_eoi_spec buf buflen (Z.to_nat buflen) (p + 2)) as Hfe.
  assert (Hfu : (Z.to_nat (buflen - (p + 2)) <= Z.to_nat buflen)%nat) by lia.
  specialize (Hfe Hfu).
  destruct (find_eoi (Z.to_nat buflen) buf buflen (p + 2)) as [[e|]|];
    [| |contradiction].
  - destruct Hfe as (H1 & H2 & H3 & H4).
    destruct (Z.lt_trichotomy e (p + l - 2)) as [H|[H|H]].
    + exfalso. apply (Hn e); [lia|exact H3].
    + subst e. reflexivity.
    + exfalso. apply (H4 (p + l - 2)); [lia|exact He].
  - exfalso. apply (Hfe (p + l - 2)); [lia|lia|exact He].
Qed.

(** One pass of the outer loop over a frame that is too long leaves
    [best] as it is and resumes behind the frame. *)
Lemma scan_skips_oversized buf buflen p l fuel best :
  frame_at buf buflen p l -> MAX_FRAME_SIZE < l ->
  scan (S fuel) buf buflen p best = scan fuel buf buflen (p + l) best.
Proof.
  intros Hf Hbig. rewrite scan_eq. rewrite (find_eoi_frame _ _ _ _ Hf).
  destruct Hf as (Hp & Hl & Hin & Hs & _).
  apply is_soi_spec in Hs. rewrite Hs.
  assert (Ht : (p + 1 <? buflen) = true) by (apply Z.ltb_lt; lia).
  rewrite Ht. cbv zeta.
  assert (Hno : (p + l - 2 + 2 - p <=? MAX_FRAME_SIZE) = false)
    by (apply Z.leb_gt; lia).
  rewrite Hno. replace (p + l - 2 + 2) with (p + l) by lia. reflexivity.
Qed.

(** C1 (as amended): when a buffer holds at least two complete frames
    and the last of them is no longer than [MAX_FRAME_SIZE], [last_jpeg]
    returns the offset and the length of that last frame, not those of
    an earlier one. *)
Theorem last_jpeg_returns_last_frame :
  forall buf buflen p1 l1 o n,
    frame_at buf buflen p1 l1 ->
    frame_at buf buflen o n ->
    p1 < o ->
    (forall p l, frame_at buf buflen p l -> p <= o) ->
    n <= MAX_FRAME_SIZE ->
    last_jpeg buf buflen = Some (o, n).
Proof.
  intros buf buflen p1 l1 o n _ Hf _ Hlast Hn.
  apply last_jpeg_eq. simpl.
  split; [exact Hf|]. split; [exact Hn|].
  intros p l Hp _. apply (Hlast p l Hp).
Qed.

Lemma last_jpeg_returns_last_frame_witness :
  last_jpeg (long_then_short 1) 9 = Some (5, 4).
Proof.
  apply (last_jpeg_returns_last_frame (long_then_short 1) 9 0 5 5 4).
  - apply (long_then_short_first 1). lia.
  - apply (long_then_short_second 1). lia.
  - lia.
  - intros p l (_ & H4 & Hin & _). lia.
  - unfold MAX_FRAME_SIZE. lia.
Defined.

(** C1 (as stated) fails on a buffer whose last complete frame is
    longer than [MAX_FRAME_SIZE]: the buffer below holds a frame of
    four bytes at offset 0 and a frame of [MAX_FRAME_SIZE + 1] bytes at
    offset 4, and [last_jpeg] returns the earlier one. *)
Lemma last_jpeg_returns_earlier_frame :
  frame_at (short_then_long (Z.to_nat (MAX_FRAME_SIZE - 3)))
    (MAX_FRAME_SIZE + 5) 0 4 /\
  frame_at (short_then_long (Z.to_nat (MAX_FRAME_SIZE - 3)))
    (MAX_FRAME_SIZE + 5) 4 (MAX_FRAME_SIZE + 1) /\
  last_jpeg (short_then_long (Z.to_nat (MAX_FRAME_SIZE - 3)))
    (MAX_FRAME_SIZE + 5) = Some (0, 4).
Proof.
  assert (Hn : (1 <= Z.to_nat (MAX_FRAME_SIZE - 3))%nat)
    by (unfold MAX_FRAME_SIZE; lia).
  assert (He : Z.of_nat (Z.to_nat (MAX_FRAME_SIZE - 3)) = MAX_FRAME_SIZE - 3)
    by (unfold MAX_FRAME_SIZE; lia).
  replace (MAX_FRAME_SIZE + 5)
    with (Z.of_nat (Z.to_nat (MAX_FRAME_SIZE - 3)) + 8) by lia.
  replace (MAX_FRAME_SIZE + 1)
    with (Z.of_nat (Z.to_nat (MAX_FRAME_SIZE - 3)) + 4) by lia.
  split; [apply short_then_long_first|].
  split; [apply short_then_long_second; exact Hn|].
  apply short_then_long_result; [exact Hn|lia].
Qed.

(** C2: in every buffer, a complete frame at [p] that is longer than
    [MAX_FRAME_SIZE] is passed over as if it had not been found.  The
    pass of the outer loop that meets it leaves the best frame so far
    unchanged and resumes behind it.  It is never what [last_jpeg]
    returns: a returned region is a frame within the bound that lies
    wholly before or wholly behind it, and when no frame of the buffer
    is within the bound [last_jpeg] returns [NULL].  When a later frame
    [o] is within the bound, [last_jpeg] returns a frame within the
    bound at or after [o], which is [o] itself when no such frame comes
    after it. *)
Theorem last_jpeg_skips_oversized :
  forall buf buflen p L,
    frame_at buf buflen p L ->
    MAX_FRAME_SIZE < L ->
    (forall fuel best,
        scan (S fuel) buf buflen p best = scan fuel buf buflen (p + L) best) /\
    last_jpeg buf buflen <> Some (p, L) /\
    (forall o n,
        last_jpeg buf buflen = Some (o, n) ->
        frame_at buf buflen o n /\ n <= MAX_FRAME_SIZE /\
        (o + n <= p \/ p + L <= o)) /\
    (last_jpeg buf buflen = None <->
     forall q m, frame_at buf buflen q m -> MAX_FRAME_SIZE < m) /\
    (forall o n,
        frame_at buf buflen o n -> p < o -> n <= MAX_FRAME_SIZE ->
        p + L <= o /\
        exists o' n',
          last_jpeg buf buflen = Some (o', n') /\
          frame_at buf buflen o' n' /\ n' <= MAX_FRAME_SIZE /\ o <= o' /\
          ((forall q m,
               frame_at buf buflen q m -> m <= MAX_FRAME_SIZE -> q <= o) ->
           o' = o /\ n' = n)).
Proof.
  intros buf buflen p L Hp HL.
  pose proof (last_jpeg_spec buf buflen) as Hspec.
  assert (Hret : forall o n,
             last_jpeg buf buflen = Some (o, n) ->
             frame_at buf buflen o n /\ n <= MAX_FRAME_SIZE /\
             (o + n <= p \/ p + L <= o)).
  { intros o n Hres. rewrite Hres in Hspec. simpl in Hspec.
    destruct Hspec as (Hf & Hn & _).
    split; [exact Hf|]. split; [exact Hn|].
    destruct (Z.lt_trichotomy o p) as [Hlt | [Heq | Hgt]].
    - left. apply (frame_at_disjoint buf buflen o n p L); assumption.
    - subst o.
      pose proof (frame_at_length_unique buf buflen p n L Hf Hp). lia.
    - right. apply (frame_at_disjoint buf buflen p L o n); assumption. }
  split; [intros fuel best; apply scan_skips_oversized; assumption|].
  split.
  { intros Heq. destruct (Hret p L Heq) as (_ & Hn & _). lia. }
  split; [exact Hret|].
  split.
  { split.
    - intros Hnone. rewrite Hnone in Hspec. exact Hspec.
    - intros Hall. apply last_jpeg_eq. exact Hall. }
  intros o n Ho Hlt Hn.
  split; [apply (frame_at_disjoint buf buflen p L o n); assumption|].
  destruct (last_jpeg buf buflen) as [[o' n']|]; simpl in Hspec.
  - destruct Hspec as (Hf' & Hn' & Hmax).
    exists o', n'. split; [reflexivity|]. split; [exact Hf'|].
    split; [exact Hn'|].
    split; [apply (Hmax o n Ho Hn)|].
    intros Hlast.
    pose proof (Hmax o n Ho Hn). pose proof (Hlast o' n' Hf' Hn').
    assert (o' = o) by lia. subst o'.
    split; [reflexivity|].
    apply (frame_at_length_unique buf buflen o); assumption.
  - exfalso. specialize (Hspec o n Ho). lia.
Qed.

(** The first [n + 4] bytes of [long_then_short n] hold its long frame
    and no other. *)
Lemma long_then_short_cut n :
  (1 <= n)%nat ->
  frame_at (long_then_short n) (Z.of_nat n + 4) 0 (Z.of_nat n + 4) /\
  forall q m,
    frame_at (long_then_short n) (Z.of_nat n + 4) q m -> m = Z.of_nat n + 4.
Proof.
  intros Hn.
  assert (Hf : frame_at (long_then_short n) (Z.of_nat n + 4) 0
                 (Z.of_nat n + 4)).
  { destruct (long_then_short_first n Hn) as (H1 & H2 & _ & H4).
    split; [exact H1|]. split; [exact H2|]. split; [lia|exact H4]. }
  split; [exact Hf|].
  intros q m Hq.
  assert (Hq0 : q = 0).
  { destruct Hq as (H0 & H4 & Hin & Hs & _).
    destruct (padded_soi _ _ _ _ Hn H0 Hs) as [H|H]; simpl List.length in H;
      lia. }
  subst q.
  apply (frame_at_length_unique _ _ _ _ _ Hq Hf).
Qed.

Lemma last_jpeg_skips_oversized_witness :
  last_jpeg (long_then_short (Z.to_nat (MAX_FRAME_SIZE - 3)))
    (MAX_FRAME_SIZE + 5) = Some (MAX_FRAME_SIZE + 1, 4) /\
  last_jpeg (long_then_short (Z.to_nat (MAX_FRAME_SIZE - 3)))
    (MAX_FRAME_SIZE + 1) = None.
Proof.
  assert (Hn : (1 <= Z.to_nat (MAX_FRAME_SIZE - 3))%nat)
    by (unfold MAX_FRAME_SIZE; lia).
  assert (He : Z.of_nat (Z.to_nat (MAX_FRAME_SIZE - 3)) = MAX_FRAME_SIZE - 3)
    by (unfold MAX_FRAME_SIZE; lia).
  pose proof (long_then_short_first _ Hn) as Hlong.
  pose proof (long_then_short_second _ Hn) as Hshort.
  destruct (long_then_short_cut _ Hn) as (Hcut & Hone).
  replace (Z.of_nat (Z.to_nat (MAX_FRAME_SIZE - 3)) + 8)
    with (MAX_FRAME_SIZE + 5) in Hlong, Hshort by lia.
  replace (Z.of_nat (Z.to_nat (MAX_FRAME_SIZE - 3)) + 4)
    with (MAX_FRAME_SIZE + 1) in Hlong, Hshort, Hcut, Hone by lia.
  split.
  - destruct (last_jpeg_skips_oversized
                (long_then_short (Z.to_nat (MAX_FRAME_SIZE - 3)))
                (MAX_FRAME_SIZE + 5) 0 (MAX_FRAME_SIZE + 1))
      as (_ & _ & _ & _ & Hlater).
    + exact Hlong.
    + lia.
    + destruct (Hlater (MAX_FRAME_SIZE + 1) 4 Hshort)
        as (_ & o' & n' & Hres & _ & _ & _ & Hsame).
      * unfold MAX_FRAME_SIZE. lia.
      * unfold MAX_FRAME_SIZE. lia.
      * rewrite Hres. destruct Hsame as [-> ->]; [|reflexivity].
        intros q m (_ & H4 & Hin & _) _. lia.
  - destruct (last_jpeg_skips_oversized
                (long_then_short (Z.to_nat (MAX_FRAME_SIZE - 3)))
                (MAX_FRAME_SIZE + 1) 0 (MAX_FRAME_SIZE + 1))
      as (_ & _ & _ & Hnone & _).
    + exact Hcut.
    + lia.
    + apply Hnone. intros q m Hq. rewrite (Hone q m Hq). lia.
Defined.

End FrameExtractor.

(** ** The input channel *)

Module InputChannel.

Import FrameExtractor.

Lemma read_buf_size_val : READ_BUF_SIZE = 2097152.
Proof. reflexivity. Qed.

Lemma half_val : READ_BUF_SIZE / 2 = 1048576.
Proof. reflexivity. Qed.

Lemma size_t_small x : 0 <= x <= READ_BUF_SIZE -> size_t x = x.
Proof.
  intros H. unfold size_t. apply Z.mod_small.
  rewrite read_buf_size_val in H. lia.
Qed.

Lemma fill_eq fuel buf p :
  fill fuel buf p =
  let buf1 := make_room buf in
  let space := size_t (READ_BUF_SIZE - Z.of_nat (List.length buf1)) in
  match read p space with
  | (n, data, p') =>
      if n <=? 0 then Ret (buf1, p')
      else match fuel with
           | O => OutOfFuel
           | S fuel' => fill fuel' (buf1 ++ data) p'
           end
  end.
Proof. destruct fuel; reflexivity. Qed.

(** A buffer that is not full is left alone; of a full buffer the first
    half goes and the second half stays. *)
Lemma make_room_spec buf :
  Z.of_nat (List.length buf) <= READ_BUF_SIZE ->
  (Z.of_nat (List.length buf) < READ_BUF_SIZE -> make_room buf = buf) /\
  (Z.of_nat (List.length buf) = READ_BUF_SIZE ->
   make_room buf = skipn (Z.to_nat (READ_BUF_SIZE / 2)) buf /\
   Z.of_nat (List.length (make_room buf)) = READ_BUF_SIZE / 2 /\
   buf = firstn (Z.to_nat (READ_BUF_SIZE / 2)) buf ++ make_room buf).
Proof.
  intros Hle. unfold make_room.
  rewrite size_t_small by lia.
  split.
  - intros Hlt.
    destruct (READ_BUF_SIZE - Z.of_nat (List.length buf) =? 0) eqn:E;
      [apply Z.eqb_eq in E; lia|reflexivity].
  - intros Heq.
    destruct (READ_BUF_SIZE - Z.of_nat (List.length buf) =? 0) eqn:E;
      [|apply Z.eqb_neq in E; lia].
    split; [reflexivity|]. split.
    + rewrite length_skipn. rewrite half_val.
      rewrite read_buf_size_val in Heq. lia.
    + symmetry. apply firstn_skipn.
Qed.

Lemma make_room_bounds buf :
  Z.of_nat (List.length buf) <= READ_BUF_SIZE ->
  Z.of_nat (List.length (make_room buf)) < READ_BUF_SIZE /\
  exists dropped, buf = dropped ++ make_room buf.
Proof.
  intros Hle. destruct (make_room_spec buf Hle) as [Hlt Heq].
  destruct (Z_lt_le_dec (Z.of_nat (List.length buf)) READ_BUF_SIZE) as [H|H].
  - rewrite (Hlt H). split; [exact H|]. exists []. reflexivity.
  - assert (Hfull : Z.of_nat (List.length buf) = READ_BUF_SIZE) by lia.
    destruct (Heq Hfull) as (_ & Hlen & Hsplit).
    split.
    + rewrite Hlen, half_val, read_buf_size_val. lia.
    + exists (firstn (Z.to_nat (READ_BUF_SIZE / 2)) buf). exact Hsplit.
Qed.

(** [read] hands out a prefix of the pipe of at most [space] bytes. *)
Lemma read_spec p space :
  0 < space ->
  match read p space with
  | (n, data, p') =>
      List.concat p = data ++ List.concat p' /\
      (n <= 0 -> data = []) /\
      (0 < n ->
       n = Z.of_nat (List.length data) /\ n <= space /\
       pipe_bytes p = (List.length data + pipe_bytes p')%nat)
  end.
Proof.
  intros Hs. destruct p as [|c rest]; simpl.
  - split; [reflexivity|]. split; [reflexivity|lia].
  - destruct (Z.of_nat (List.length c) <=? space) eqn:E.
    + apply Z.leb_le in E.
      rewrite Z.min_l by lia. rewrite Nat2Z.id, firstn_all.
      split; [reflexivity|]. split.
      * intros H0. destruct c; [reflexivity|simpl in H0; lia].
      * intros H0. split; [reflexivity|]. split; [lia|reflexivity].
    + apply Z.leb_gt in E.
      rewrite Z.min_r by lia.
      assert (Hlen : List.length (firstn (Z.to_nat space) c) = Z.to_nat space).
      { apply firstn_length_le. lia. }
      split.
      * simpl. rewrite app_assoc, firstn_skipn. reflexivity.
      * split; [lia|]. intros _. split; [lia|]. split; [lia|].
        simpl. rewrite Hlen, length_skipn. lia.
Qed.

(** The read loop ends, within the capacity, and what it leaves holds
    the newest of the old content followed by the bytes it read. *)
Lemma fill_spec fuel :
  forall buf p,
    Z.of_nat (List.length buf) <= READ_BUF_SIZE ->
    (pipe_bytes p <= fuel)%nat ->
    exists buf' p' added,
      fill fuel buf p = Ret (buf', p') /\
      Z.of_nat (List.length buf') <= READ_BUF_SIZE /\
      List.concat p = added ++ List.concat p' /\
      keeps_newest buf added buf'.
Proof.
  induction fuel as [|fuel IH]; intros buf p Hle Hfuel; rewrite fill_eq;
    cbv zeta;
    destruct (make_room_bounds buf Hle) as (Hlt & d0 & Hd0);
    rewrite size_t_small by lia;
    pose proof (read_spec p
                  (READ_BUF_SIZE - Z.of_nat (List.length (make_room buf))))
      as Hr;
    (destruct (read p (READ_BUF_SIZE - Z.of_nat (List.length (make_room buf))))
      as [[n data] p']);
    (destruct Hr as (Hcat & Hneg & Hpos); [lia|]);
    destruct (n <=? 0) eqn:En.
  - apply Z.leb_le in En. rewrite (Hneg En) in Hcat. simpl in Hcat.
    exists (make_room buf), p', [].
    split; [reflexivity|]. split; [lia|]. split; [exact Hcat|].
    exists d0. rewrite app_nil_r. exact Hd0.
  - apply Z.leb_gt in En. destruct (Hpos En) as (Hn & Hsp & Hb). lia.
  - apply Z.leb_le in En. rewrite (Hneg En) in Hcat. simpl in Hcat.
    exists (make_room buf), p', [].
    split; [reflexivity|]. split; [lia|]. split; [exact Hcat|].
    exists d0. rewrite app_nil_r. exact Hd0.
  - apply Z.leb_gt in En. destruct (Hpos En) as (Hn & Hsp & Hb).
    destruct (IH (make_room buf ++ data) p')
      as (buf' & p'' & a1 & H1 & H2 & H3 & (d1 & H4)).
    + rewrite length_app. lia.
    + lia.
    + exists buf', p'', (data ++ a1).
      split; [exact H1|]. split; [exact H2|]. split.
      * rewrite Hcat, H3. rewrite app_assoc. reflexivity.
      * exists (d0 ++ d1). rewrite Hd0 at 1.
        rewrite <- !app_assoc. f_equal.
        rewrite <- H4. rewrite <- !app_assoc. reflexivity.
Qed.

(** What a call of [drain] does to the input. *)
Lemma drain_spec inp p now :
  read_used inp <= READ_BUF_SIZE ->
  read_used (fst (drain inp p now)) <= READ_BUF_SIZE /\
  (frame_size inp <= MAX_FRAME_SIZE ->
   frame_size (fst (drain inp p now)) <= MAX_FRAME_SIZE) /\
  (exists added,
      List.concat p = added ++ List.concat (snd (drain inp p now)) /\
      keeps_newest (read_buf inp) added (read_buf (fst (drain inp p now)))) /\
  (Z.of_nat (List.length (frame inp)) = frame_size inp ->
   Z.of_nat (List.length (frame (fst (drain inp p now)))) =
   frame_size (fst (drain inp p now))).
Proof.
  intros Hused. unfold drain.
  destruct (fill_spec (pipe_bytes p) (read_buf inp) p Hused (Nat.le_refl _))
    as (buf & p' & added & Hfill & Hlen & Hcat & (d & Hd)).
  rewrite Hfill.
  destruct (Z.of_nat (List.length buf) =? 0) eqn:E0.
  { simpl. unfold read_used. simpl.
    split; [exact Hlen|]. split; [intros H; exact H|].
    split; [|intros H; exact H].
    exists added. split; [exact Hcat|]. exists d. exact Hd. }
  pose proof (last_jpeg_spec buf (Z.of_nat (List.length buf))) as Hspec.
  destruct (last_jpeg buf (Z.of_nat (List.length buf))) as [[off flen]|].
  2:{ simpl. unfold read_used. simpl.
      split; [exact Hlen|]. split; [intros H; exact H|].
      split; [|intros H; exact H].
      exists added. split; [exact Hcat|]. exists d. exact Hd. }
  simpl in Hspec. destruct Hspec as ((Hoff & H4 & Hin & _) & Hfit & _).
  assert (Hpos : (0 <? flen) = true) by (apply Z.ltb_lt; lia).
  rewrite Hpos.
  destruct (off + flen <? Z.of_nat (List.length buf)) eqn:Ec;
    simpl; unfold read_used; simpl.
  - split; [rewrite length_skipn; lia|]. split; [intros _; exact Hfit|].
    split.
    + exists added. split; [exact Hcat|].
      exists (d ++ firstn (Z.to_nat (off + flen)) buf).
      rewrite Hd. rewrite <- !app_assoc. f_equal.
      rewrite firstn_skipn. reflexivity.
    + intros _. rewrite length_firstn, length_skipn. lia.
  - split; [rewrite read_buf_size_val; lia|]. split; [intros _; exact Hfit|].
    split.
    + exists added. split; [exact Hcat|].
      exists (d ++ buf). rewrite Hd. rewrite app_nil_r. reflexivity.
    + intros _. rewrite length_firstn, length_skipn. lia.
Qed.

Lemma drains_bounded steps :
  forall inp,
    read_used inp <= READ_BUF_SIZE ->
    read_used (drains inp steps) <= READ_BUF_SIZE.
Proof.
  induction steps as [|[p now] rest IH]; intros inp H; simpl.
  - exact H.
  - apply IH. apply (drain_spec inp p now H).
Qed.

Lemma pipe_bytes_concat p :
  pipe_bytes p = List.length (List.concat p).
Proof.
  induction p as [|c p IH]; simpl; [reflexivity|].
  rewrite length_app, IH. reflexivity.
Qed.

(** Of a buffer that is not full nothing is dropped; of a full buffer
    exactly the first half is. *)
Lemma make_room_cases buf :
  Z.of_nat (List.length buf) <= READ_BUF_SIZE ->
  exists d0,
    buf = d0 ++ make_room buf /\
    ((Z.of_nat (List.length buf) < READ_BUF_SIZE /\ d0 = [] /\
      make_room buf = buf) \/
     (Z.of_nat (List.length buf) = READ_BUF_SIZE /\
      Z.of_nat (List.length d0) = READ_BUF_SIZE / 2 /\
      Z.of_nat (List.length (make_room buf)) = READ_BUF_SIZE / 2 /\
      make_room buf = skipn (Z.to_nat (READ_BUF_SIZE / 2)) buf)).
Proof.
  intros Hle. destruct (make_room_spec buf Hle) as [Hlt Heq].
  destruct (Z_lt_le_dec (Z.of_nat (List.length buf)) READ_BUF_SIZE) as [H|H].
  - exists []. rewrite (Hlt H). split; [reflexivity|].
    left. split; [exact H|]. split; reflexivity.
  - assert (Hfull : Z.of_nat (List.length buf) = READ_BUF_SIZE) by lia.
    destruct (Heq Hfull) as (Hm & Hlen & Hsplit).
    exists (firstn (Z.to_nat (READ_BUF_SIZE / 2)) buf).
    split; [exact Hsplit|]. right.
    split; [exact Hfull|]. split; [|split; [exact Hlen|exact Hm]].
    rewrite length_firstn. rewrite half_val.
    rewrite read_buf_size_val in Hfull. lia.
Qed.

(** A [read] from a pipe whose first chunk is not empty returns at
    least one byte. *)
Lemma read_cons_spec c rest space :
  0 < space -> c <> [] ->
  exists n data p',
    read (c :: rest) space = (n, data, p') /\
    0 < n /\ n = Z.of_nat (List.length data) /\ n <= space /\
    c ++ List.concat rest = data ++ List.concat p' /\
    pipe_bytes (c :: rest) = (List.length data + pipe_bytes p')%nat /\
    (no_empty_chunk rest -> no_empty_chunk p') /\
    (Z.of_nat (List.length c) <= space -> data = c /\ p' = rest).
Proof.
  intros Hs Hc.
  assert (Hc1 : (1 <= List.length c)%nat)
    by (destruct c; [contradiction|simpl; lia]).
  unfold read.
  destruct (Z.of_nat (List.length c) <=? space) eqn:E.
  - apply Z.leb_le in E. rewrite Z.min_l by lia.
    rewrite Nat2Z.id, firstn_all.
    exists (Z.of_nat (List.length c)), c, rest.
    split; [reflexivity|]. split; [lia|]. split; [reflexivity|].
    split; [exact E|]. split; [reflexivity|]. split; [reflexivity|].
    split; [intros H; exact H|]. intros _. split; reflexivity.
  - apply Z.leb_gt in E. rewrite Z.min_r by lia.
    assert (Hlen : List.length (firstn (Z.to_nat space) c) = Z.to_nat space)
      by (apply firstn_length_le; lia).
    exists space, (firstn (Z.to_nat space) c),
      (skipn (Z.to_nat space) c :: rest).
    split; [reflexivity|]. split; [exact Hs|]. split; [lia|].
    split; [lia|]. split.
    { simpl. rewrite app_assoc, firstn_skipn. reflexivity. }
    split.
    { simpl. rewrite Hlen, length_skipn. lia. }
    split; [|intros H; lia].
    intros Hrest c' [Hc' | Hc']; [|apply Hrest; exact Hc'].
    subst c'. intros Hnil.
    apply (f_equal (@List.length Z)) in Hnil.
    rewrite length_skipn in Hnil. simpl in Hnil. lia.
Qed.

(** What the read loop leaves when no [read] returns zero bytes: the
    pipe is empty, and the buffer holds the old content followed by all
    the bytes read, less what was dropped at the front.  What was
    dropped is a whole number of half buffers: nothing as long as the
    bytes stay below the capacity, and otherwise as many halves as it
    takes to leave at least half a buffer and less than a full one. *)
Lemma fill_exact fuel :
  forall buf p,
    Z.of_nat (List.length buf) <= READ_BUF_SIZE ->
    no_empty_chunk p ->
    (pipe_bytes p <= fuel)%nat ->
    exists dropped buf',
      fill fuel buf p = Ret (buf', []) /\
      buf ++ List.concat p = dropped ++ buf' /\
      (exists k, 0 <= k /\
                 Z.of_nat (List.length dropped) = k * (READ_BUF_SIZE / 2)) /\
      Z.of_nat (List.length buf') < READ_BUF_SIZE /\
      (Z.of_nat (List.length buf) + Z.of_nat (pipe_bytes p) < READ_BUF_SIZE ->
       dropped = []) /\
      (READ_BUF_SIZE <= Z.of_nat (List.length buf) + Z.of_nat (pipe_bytes p) ->
       READ_BUF_SIZE / 2 <= Z.of_nat (List.length buf')).
Proof.
  induction fuel as [|fuel IH]; intros buf p Hle Hne Hfuel;
    rewrite fill_eq; cbv zeta;
    destruct (make_room_cases buf Hle) as (d0 & Hd0 & Hcase);
    (assert (Hlt : Z.of_nat (List.length (make_room buf)) < READ_BUF_SIZE)
      by (destruct Hcase as [(H1 & _ & H3) | (_ & _ & H3 & _)];
          [rewrite H3; exact H1
          |rewrite H3, half_val, read_buf_size_val; lia]));
    rewrite size_t_small by lia;
    (destruct p as [|c rest];
     [ simpl read; cbv iota beta;
       change (-1 <=? 0) with true; cbv iota;
       exists d0, (make_room buf);
       split; [reflexivity|];
       split; [simpl List.concat; rewrite app_nil_r; exact Hd0|];
       split;
       [ destruct Hcase as [(_ & H2 & _) | (_ & H2 & _)];
         [ exists 0; subst d0; simpl; lia
         | exists 1; lia ]
       | split; [exact Hlt|];
         simpl pipe_bytes;
         split;
         [ intros HT; destruct Hcase as [(_ & H2 & _) | (H1 & _)];
           [exact H2|lia]
         | intros HT; destruct Hcase as [(H1 & _) | (_ & _ & H3 & _)];
           [lia|lia] ] ]
     | ]).
  - assert (Hc : c <> []) by (apply Hne; left; reflexivity).
    destruct c; [contradiction|]. simpl in Hfuel. lia.
  - assert (Hc : c <> []) by (apply Hne; left; reflexivity).
    assert (Hrest : no_empty_chunk rest)
      by (intros c' Hc'; apply Hne; right; exact Hc').
    destruct (read_cons_spec c rest
                (READ_BUF_SIZE - Z.of_nat (List.length (make_room buf))))
      as (n & data & p' & Hread & Hn & Hnd & Hsp & Hcat & Hpb & Hp' & _);
      [lia|exact Hc|].
    rewrite Hread. cbv iota beta.
    assert (En : (n <=? 0) = false) by (apply Z.leb_gt; exact Hn).
    rewrite En.
    destruct (IH (make_room buf ++ data) p')
      as (d1 & buf' & Hfill & Happ & (k1 & Hk1 & Hd1) & Hb' & Hsmall & Hbig).
    + rewrite length_app. lia.
    + apply Hp'. exact Hrest.
    + lia.
    + assert (Hlen1 : Z.of_nat (List.length (make_room buf ++ data)) +
                      Z.of_nat (pipe_bytes p') =
                      Z.of_nat (List.length (make_room buf)) +
                      Z.of_nat (pipe_bytes (c :: rest)))
        by (rewrite length_app; lia).
      exists (d0 ++ d1), buf'.
      split; [exact Hfill|]. split.
      { rewrite <- app_assoc, <- Happ. rewrite Hd0 at 1.
        rewrite <- !app_assoc. f_equal. f_equal.
        simpl List.concat. exact Hcat. }
      split.
      { destruct Hcase as [(_ & H2 & _) | (_ & H2 & _)].
        - exists k1. subst d0. simpl. split; [exact Hk1|exact Hd1].
        - exists (1 + k1). split; [lia|]. rewrite length_app. lia. }
      split; [exact Hb'|].
      split.
      { intros HT. destruct Hcase as [(_ & H2 & H3) | (H1 & _)]; [|lia].
        subst d0. simpl. apply Hsmall. rewrite Hlen1, H3. exact HT. }
      intros HT.
      destruct Hcase as [(_ & _ & H3) | (H1 & _ & H3 & _)].
      * apply Hbig. rewrite Hlen1, H3. exact HT.
      * destruct (Z_lt_le_dec
                    (Z.of_nat (List.length (make_room buf ++ data)) +
                     Z.of_nat (pipe_bytes p')) READ_BUF_SIZE) as [Hs|Hs].
        -- rewrite (Hsmall Hs) in Happ. simpl in Happ.
           rewrite <- Happ. rewrite !length_app. lia.
        -- apply Hbig. exact Hs.
Qed.

Lemma read_app c rest more space :
  read (c :: rest ++ more) space =
  match read (c :: rest) space with
  | (n, data, p') => (n, data, p' ++ more)
  end.
Proof.
  unfold read.
  destruct (Z.of_nat (List.length c) <=? space); reflexivity.
Qed.

(** A [read] of zero bytes ends the read loop: what the pipe holds
    behind it is left there, and the buffer is as the reads before it
    made it. *)
Lemma fill_stops_at_empty_read fuel1 :
  forall fuel2 buf p1 p2 b,
    Z.of_nat (List.length buf) <= READ_BUF_SIZE ->
    no_empty_chunk p1 ->
    (pipe_bytes p1 <= fuel2)%nat ->
    fill fuel1 buf p1 = Ret (b, []) ->
    fill fuel2 buf (p1 ++ [] :: p2) = Ret (b, p2).
Proof.
  induction fuel1 as [|fuel1 IH]; intros fuel2 buf p1 p2 b Hle Hne Hfuel H;
    rewrite fill_eq in H; rewrite fill_eq; cbv zeta in *;
    destruct (make_room_cases buf Hle) as (d0 & Hd0 & Hcase);
    (assert (Hlt : Z.of_nat (List.length (make_room buf)) < READ_BUF_SIZE)
      by (destruct Hcase as [(H1 & _ & H3) | (_ & _ & H3 & _)];
          [rewrite H3; exact H1
          |rewrite H3, half_val, read_buf_size_val; lia]));
    rewrite size_t_small in * by lia;
    (destruct p1 as [|c rest];
     [ simpl read in H; cbv iota beta in H;
       change (-1 <=? 0) with true in H; cbv iota in H;
       inversion H; subst b;
       simpl app; unfold read; simpl List.length;
       change (Z.of_nat 0) with 0;
       rewrite Z.min_l by lia;
       (assert (E : (0 <=? READ_BUF_SIZE -
                            Z.of_nat (List.length (make_room buf))) = true)
         by (apply Z.leb_le; lia));
       rewrite E; reflexivity
     | ]);
    (assert (Hc : c <> []) by (apply Hne; left; reflexivity));
    (destruct (read_cons_spec c rest
                 (READ_BUF_SIZE - Z.of_nat (List.length (make_room buf))))
       as (n & data & p' & Hread & Hn & Hnd & Hsp & Hcat & Hpb & Hp' & _);
     [lia|exact Hc|]);
    rewrite Hread in H; cbv iota beta in H;
    (assert (En : (n <=? 0) = false) by (apply Z.leb_gt; exact Hn));
    rewrite En in H; [discriminate H|].
  change ((c :: rest) ++ [] :: p2) with (c :: rest ++ [] :: p2).
  rewrite read_app, Hread. cbv iota beta. rewrite En.
  destruct fuel2 as [|fuel2]; [lia|].
  apply (IH fuel2 (make_room buf ++ data) p' p2 b).
  - rewrite length_app. lia.
  - apply Hp'. intros c' Hc'. apply Hne. right. exact Hc'.
  - lia.
  - exact H.
Qed.

(** Behind the read loop, [drain] is extraction from the buffer that
    the loop leaves. *)
Lemma drain_after_fill inp p now buf p' :
  fill (pipe_bytes p) (read_buf inp) p = Ret (buf, p') ->
  drain inp p now = (extract_from inp buf now, p').
Proof.
  intros Hfill. unfold drain. rewrite Hfill. unfold extract_from.
  destruct (Z.of_nat (List.length buf) =? 0) eqn:E0.
  - apply Z.eqb_eq in E0.
    assert (HB : buf = []) by (destruct buf; [reflexivity|simpl in E0; lia]).
    rewrite HB. reflexivity.
  - pose proof (last_jpeg_spec buf (Z.of_nat (List.length buf))) as Hspec.
    destruct (last_jpeg buf (Z.of_nat (List.length buf))) as [[off flen]|];
      [|reflexivity].
    simpl in Hspec. destruct Hspec as ((Hoff & H4 & Hin & _) & _).
    assert (Hpos : (0 <? flen) = true) by (apply Z.ltb_lt; lia).
    rewrite Hpos.
    destruct (off + flen <? Z.of_nat (List.length buf)) eqn:Ec;
      [reflexivity|].
    apply Z.ltb_ge in Ec.
    assert (Hall : skipn (Z.to_nat (off + flen)) buf = [])
      by (apply skipn_all2; lia).
    rewrite Hall. reflexivity.
Qed.

(** One pass of the read loop on a full buffer: the first half goes,
    the second half stays, and the bytes read are appended to it. *)
Lemma fill_full_step fuel buf c rest :
  Z.of_nat (List.length buf) = READ_BUF_SIZE ->
  c <> [] ->
  Z.of_nat (List.length c) <= READ_BUF_SIZE / 2 ->
  fill (S fuel) buf (c :: rest) =
  fill fuel (skipn (Z.to_nat (READ_BUF_SIZE / 2)) buf ++ c) rest.
Proof.
  intros Hfull Hc Hlen. rewrite fill_eq. cbv zeta.
  destruct (make_room_spec buf) as [_ Hm]; [lia|].
  destruct (Hm Hfull) as (Hroom & Hl & _).
  rewrite size_t_small by (rewrite Hl, half_val, read_buf_size_val; lia).
  destruct (read_cons_spec c rest
              (READ_BUF_SIZE - Z.of_nat (List.length (make_room buf))))
    as (n & data & p' & Hread & Hn & _ & _ & _ & _ & _ & Hall);
    [rewrite Hl, half_val, read_buf_size_val; lia|exact Hc|].
  rewrite Hread. cbv iota beta.
  assert (En : (n <=? 0) = false) by (apply Z.leb_gt; exact Hn).
  rewrite En.
  destruct Hall as [-> ->];
    [rewrite Hl; rewrite half_val in *; rewrite read_buf_size_val; lia|].
  rewrite Hroom. reflexivity.
Qed.

(** C7: over any sequence of [drain] calls the read buffer stays within
    [READ_BUF_SIZE].  The read loop of [drain] always ends.  When no
    [read] returns zero bytes it empties the pipe and leaves the old
    content followed by all the bytes read, less a whole number of half
    buffers dropped at the front (the oldest bytes): nothing is dropped
    as long as the bytes stay below the capacity, and otherwise at
    least half a buffer of the newest bytes stays.  This is the buffer
    that [drain] hands to the frame extraction.  On a full buffer one
    pass of the loop drops the first half, keeps the second and appends
    the bytes read to it.  A [read] of zero bytes ends the loop and
    leaves the rest of the pipe where it is.  Whatever the pipe holds,
    what the loop and [drain] leave in the buffer is the newest part of
    the old content followed by the bytes read. *)
Theorem read_buffer_stays_within_capacity :
  forall inp steps,
    read_used inp <= READ_BUF_SIZE ->
    read_used (drains inp steps) <= READ_BUF_SIZE /\
    (forall p now,
        no_empty_chunk p ->
        exists dropped buf,
          fill (pipe_bytes p) (read_buf inp) p = Ret (buf, []) /\
          drain inp p now = (extract_from inp buf now, []) /\
          read_buf inp ++ List.concat p = dropped ++ buf /\
          (exists k, 0 <= k /\
             Z.of_nat (List.length dropped) = k * (READ_BUF_SIZE / 2)) /\
          Z.of_nat (List.length buf) < READ_BUF_SIZE /\
          (read_used inp + Z.of_nat (pipe_bytes p) < READ_BUF_SIZE ->
           dropped = [] /\ buf = read_buf inp ++ List.concat p) /\
          (READ_BUF_SIZE <= read_used inp + Z.of_nat (pipe_bytes p) ->
           READ_BUF_SIZE / 2 <= Z.of_nat (List.length buf))) /\
    (forall fuel c rest,
        read_used inp = READ_BUF_SIZE ->
        c <> [] ->
        Z.of_nat (List.length c) <= READ_BUF_SIZE / 2 ->
        fill (S fuel) (read_buf inp) (c :: rest) =
        fill fuel
          (skipn (Z.to_nat (READ_BUF_SIZE / 2)) (read_buf inp) ++ c) rest) /\
    (forall p1 p2 buf,
        no_empty_chunk p1 ->
        fill (pipe_bytes p1) (read_buf inp) p1 = Ret (buf, []) ->
        fill (pipe_bytes (p1 ++ [] :: p2)) (read_buf inp) (p1 ++ [] :: p2) =
          Ret (buf, p2)) /\
    (forall p,
        exists buf p' added,
          fill (pipe_bytes p) (read_buf inp) p = Ret (buf, p') /\
          Z.of_nat (List.length buf) <= READ_BUF_SIZE /\
          List.concat p = added ++ List.concat p' /\
          keeps_newest (read_buf inp) added buf) /\
    (forall p now,
        exists added,
          List.concat p = added ++ List.concat (snd (drain inp p now)) /\
          keeps_newest (read_buf inp) added (read_buf (fst (drain inp p now)))).
Proof.
  intros inp steps H.
  split; [apply drains_bounded; exact H|].
  split.
  { intros p now Hne.
    destruct (fill_exact (pipe_bytes p) (read_buf inp) p H Hne
                (Nat.le_refl _))
      as (dropped & buf & Hfill & Happ & Hk & Hlt & Hsmall & Hbig).
    exists dropped, buf.
    split; [exact Hfill|].
    split; [apply drain_after_fill; exact Hfill|].
    split; [exact Happ|]. split; [exact Hk|]. split; [exact Hlt|].
    split; [|exact Hbig].
    intros HT. specialize (Hsmall HT). split; [exact Hsmall|].
    rewrite Hsmall in Happ. symmetry. exact Happ. }
  split.
  { intros fuel c rest Hfull Hc Hlen.
    apply fill_full_step; assumption. }
  split.
  { intros p1 p2 buf Hne Hfill.
    apply (fill_stops_at_empty_read (pipe_bytes p1)); try assumption.
    clear. induction p1 as [|c p1 IH]; simpl; lia. }
  split.
  { intros p. apply fill_spec; [exact H|apply Nat.le_refl]. }
  intros p now. apply (drain_spec inp p now H).
Qed.

Lemma full_input_used : read_used full_input = READ_BUF_SIZE.
Proof.
  unfold read_used, full_input. cbn [read_buf].
  rewrite repeat_length. apply Z2Nat.id. rewrite read_buf_size_val. lia.
Qed.

Lemma read_buffer_stays_within_capacity_witness :
  exists old buf,
    fill (pipe_bytes [[1; 2; 3]]) (read_buf full_input) [[1; 2; 3]] =
      Ret (buf, []) /\
    buf = old ++ [1; 2; 3] /\
    Z.of_nat (List.length buf) = READ_BUF_SIZE / 2 + 3.
Proof.
  pose proof full_input_used as Hused.
  destruct (read_buffer_stays_within_capacity full_input [])
    as (_ & Hloop & _); [rewrite Hused; lia|].
  destruct (Hloop [[1; 2; 3]] {| tv_sec := 1; tv_nsec := 0 |})
    as (dropped & buf & Hfill & _ & Happ & (k & Hk & Hd) & Hlt & _ & Hbig).
  { intros c [<- | []]. discriminate. }
  change (Z.of_nat (pipe_bytes [[1; 2; 3]])) with 3 in Hbig.
  assert (Hhalf : READ_BUF_SIZE / 2 <= Z.of_nat (List.length buf))
    by (apply Hbig; rewrite Hused; lia).
  assert (Hlen : Z.of_nat (List.length dropped) +
                 Z.of_nat (List.length buf) = READ_BUF_SIZE + 3).
  { rewrite <- Hused. unfold read_used.
    apply (f_equal (@List.length Z)) in Happ.
    rewrite !length_app in Happ.
    change (List.length (List.concat [[1; 2; 3]])) with 3%nat in Happ. lia. }
  rewrite half_val in *. rewrite read_buf_size_val in *.
  assert (Hk1 : k = 1) by lia. subst k.
  change (List.concat [[1; 2; 3]]) with [1; 2; 3] in Happ.
  apply app_eq_app in Happ. destruct Happ as (l & [[H1 H2] | [H1 H2]]).
  - exists l, buf. split; [exact Hfill|]. split; [exact H2|]. lia.
  - apply (f_equal (@List.length Z)) in H2.
    rewrite length_app in H2. simpl in H2. lia.
Defined.

(** C10: a region returned by [last_jpeg] is at most [MAX_FRAME_SIZE]
    bytes long and lies within the first [buflen] bytes of the buffer;
    in [drain], where [buflen] is the number of bytes in the buffer, the
    copy into the frame cache takes exactly [len] bytes, all from inside
    the buffer, and the cached frame never outgrows [MAX_FRAME_SIZE]. *)
Theorem extracted_region_fits_frame_cache :
  forall buf buflen off len,
    last_jpeg buf buflen = Some (off, len) ->
    0 <= off /\ 4 <= len /\ len <= MAX_FRAME_SIZE /\ off + len <= buflen /\
    (buflen = Z.of_nat (List.length buf) ->
     Z.of_nat
       (List.length (firstn (Z.to_nat len) (skipn (Z.to_nat off) buf))) = len) /\
    (forall inp p now,
        read_used inp <= READ_BUF_SIZE ->
        frame_size inp <= MAX_FRAME_SIZE ->
        frame_size (fst (drain inp p now)) <= MAX_FRAME_SIZE).
Proof.
  intros buf buflen off len Hres.
  pose proof (last_jpeg_spec buf buflen) as Hspec.
  rewrite Hres in Hspec. simpl in Hspec.
  destruct Hspec as ((Hoff & H4 & Hin & _) & Hfit & _).
  split; [exact Hoff|]. split; [exact H4|]. split; [exact Hfit|].
  split; [exact Hin|]. split.
  - intros Hlen. rewrite length_firstn, length_skipn. lia.
  - intros inp p now Hu Hf. apply (drain_spec inp p now Hu). exact Hf.
Qed.

Lemma extracted_region_fits_frame_cache_witness :
  0 <= 1 /\ 4 <= 5 /\ 5 <= MAX_FRAME_SIZE /\ 1 + 5 <= 7.
Proof.
  destruct (extracted_region_fits_frame_cache
              [9; 0xFF; 0xD8; 1; 0xFF; 0xD9; 0xFF] 7 1 5 eq_refl)
    as (H1 & H2 & H3 & H4 & _).
  repeat split; assumption.
Defined.


End InputChannel.

(** ** Frame selection *)

Module Selection.

Lemma Qltb_true x y : Qltb x y = true <-> (x < y)%Q.
Proof.
  unfold Qltb. rewrite negb_true_iff. split.
  - intros H. apply Qnot_le_lt. intros Hle.
    apply Qle_bool_iff in Hle. congruence.
  - intros H. destruct (Qle_bool y x) eqn:E; [|reflexivity].
    apply Qle_bool_iff in E. exfalso. exact (Qlt_not_le _ _ H E).
Qed.

Lemma Qltb_false x y : Qltb x y = false <-> (y <= x)%Q.
Proof.
  unfold Qltb. rewrite negb_false_iff. apply Qle_bool_iff.
Qed.

(** With a cached frame, [recent] is the comparison of the elapsed time
    with the timeout. *)
Lemma recent_true st inp now :
  0 < frame_size inp ->
  (recent st inp now = true <->
   (elapsed_ms (frame_time inp) now < inject_Z (timeout_ms st))%Q).
Proof.
  intros H. unfold recent.
  assert (E : (0 <? frame_size inp) = true) by (apply Z.ltb_lt; exact H).
  rewrite E. simpl. apply Qltb_true.
Qed.

Lemma recent_false st inp now :
  0 < frame_size inp ->
  (recent st inp now = false <->
   (inject_Z (timeout_ms st) <= elapsed_ms (frame_time inp) now)%Q).
Proof.
  intros H. unfold recent.
  assert (E : (0 <? frame_size inp) = true) by (apply Z.ltb_lt; exact H).
  rewrite E. simpl. apply Qltb_false.
Qed.

Lemma recent_absent st inp now : frame_size inp = 0 -> recent st inp now = false.
Proof. intros H. unfold recent. rewrite H. reflexivity. Qed.

Lemma use_testcard_not_input st j n : use_testcard st <> Some (InputFrame j, n).
Proof.
  unfold use_testcard.
  destruct (testcard st); [|discriminate].
  destruct (0 <? testcard_size st); discriminate.
Qed.

(** [choose_frame] in [MODE_SOURCE] with a valid [selected]. *)
Lemma choose_frame_source st now :
  mode st = MODE_SOURCE -> 0 <= selected st < num_inputs st ->
  choose_frame st now =
  if recent st (input_at st (selected st)) now
  then Some (InputFrame (selected st), frame_size (input_at st (selected st)))
  else use_testcard st.
Proof.
  intros Hm Hs. unfold choose_frame. rewrite Hm. simpl.
  assert (E1 : (0 <=? selected st) = true) by (apply Z.leb_le; lia).
  assert (E2 : (selected st <? num_inputs st) = true) by (apply Z.ltb_lt; lia).
  rewrite E1, E2. reflexivity.
Qed.

(** [choose_frame] in [MODE_AUTO]. *)
Lemma choose_frame_auto st now :
  mode st = MODE_AUTO ->
  choose_frame st now =
  match auto_scan st now (Z.to_nat (num_inputs st)) with
  | Some r => Some r
  | None => use_testcard st
  end.
Proof. intros Hm. unfold choose_frame. rewrite Hm. reflexivity. Qed.

(** The descending loop stops at the highest recent index. *)
Lemma auto_scan_highest st now n :
  forall i,
    0 <= i < Z.of_nat n ->
    recent st (input_at st i) now = true ->
    (forall j, i < j < Z.of_nat n -> recent st (input_at st j) now = false) ->
    auto_scan st now n = Some (InputFrame i, frame_size (input_at st i)).
Proof.
  induction n as [|n IH]; intros i Hi Hr Hhigh; [lia|].
  simpl auto_scan.
  destruct (Z.eq_dec i (Z.of_nat n)) as [<- | Hne].
  - rewrite Hr. reflexivity.
  - rewrite (Hhigh (Z.of_nat n)) by lia.
    apply IH; [lia|exact Hr|]. intros j Hj. apply Hhigh. lia.
Qed.

Lemma auto_scan_none st now n :
  (forall j, 0 <= j < Z.of_nat n -> recent st (input_at st j) now = false) ->
  auto_scan st now n = None.
Proof.
  induction n as [|n IH]; intros H; [reflexivity|].
  simpl auto_scan. rewrite (H (Z.of_nat n)) by lia.
  apply IH. intros j Hj. apply H. lia.
Qed.

(** Whatever the loop returns is a recent input. *)
Lemma auto_scan_sound st now n :
  forall r,
    auto_scan st now n = Some r ->
    exists i, 0 <= i < Z.of_nat n /\
              r = (InputFrame i, frame_size (input_at st i)) /\
              recent st (input_at st i) now = true.
Proof.
  induction n as [|n IH]; intros r H; [discriminate|].
  simpl auto_scan in H.
  destruct (recent st (input_at st (Z.of_nat n)) now) eqn:E.
  - inversion H; subst. exists (Z.of_nat n).
    split; [lia|]. split; [reflexivity|exact E].
  - destruct (IH r H) as (i & Hi & Hr & Hrec).
    exists i. split; [lia|]. split; assumption.
Qed.

(** What the code at [use_testcard] returns: the test card with its
    size when one is loaded and its size is positive, [NULL]
    otherwise. *)
Lemma use_testcard_loaded st card :
  testcard st = Some card -> 0 < testcard_size st ->
  use_testcard st = Some (TestcardFrame, testcard_size st).
Proof.
  intros Hc Hs. unfold use_testcard. rewrite Hc.
  assert (E : (0 <? testcard_size st) = true) by (apply Z.ltb_lt; exact Hs).
  rewrite E. reflexivity.
Qed.

Lemma use_testcard_missing st :
  testcard st = None \/ testcard_size st <= 0 -> use_testcard st = None.
Proof.
  intros H. unfold use_testcard.
  destruct (testcard st); [|reflexivity].
  destruct H as [H|H]; [discriminate H|].
  assert (E : (0 <? testcard_size st) = false) by (apply Z.ltb_ge; exact H).
  rewrite E. reflexivity.
Qed.

(** The descending loop returns index [i] exactly when input [i] is
    recent and no input above it is. *)
Lemma auto_scan_returns st now n i len :
  auto_scan st now n = Some (InputFrame i, len) ->
  0 <= i < Z.of_nat n /\
  len = frame_size (input_at st i) /\
  recent st (input_at st i) now = true /\
  forall j, i < j < Z.of_nat n -> recent st (input_at st j) now = false.
Proof.
  induction n as [|n IH]; intros H; [discriminate H|].
  simpl auto_scan in H.
  destruct (recent st (input_at st (Z.of_nat n)) now) eqn:E.
  - inversion H; subst.
    split; [lia|]. split; [reflexivity|]. split; [exact E|].
    intros j Hj. lia.
  - destruct (IH H) as (Hi & Hl & Hr & Hhigh).
    split; [lia|]. split; [exact Hl|]. split; [exact Hr|].
    intros j Hj. destruct (Z.eq_dec j (Z.of_nat n)) as [-> | Hne];
      [exact E|apply Hhigh; lia].
Qed.

(** With a recent input the loop returns some input at or above it. *)
Lemma auto_scan_some st now n i :
  0 <= i < Z.of_nat n ->
  recent st (input_at st i) now = true ->
  exists j,
    i <= j < Z.of_nat n /\
    auto_scan st now n = Some (InputFrame j, frame_size (input_at st j)).
Proof.
  induction n as [|n IH]; intros Hi Hr; [lia|].
  simpl auto_scan.
  destruct (recent st (input_at st (Z.of_nat n)) now) eqn:E.
  - exists (Z.of_nat n). split; [lia|reflexivity].
  - assert (Hne : i <> Z.of_nat n) by (intros ->; congruence).
    destruct IH as (j & Hj & Hs); [lia|exact Hr|].
    exists j. split; [lia|exact Hs].
Qed.

(** C3: in [MODE_SOURCE] with a valid [selected], when the selected
    input has no cached frame or its frame is stale, [choose_frame]
    returns the test card with the test card's size whenever a test
    card is loaded (and its size is positive), and [NULL] when none is
    loaded; it never returns the frame of any input, whatever the other
    inputs hold. *)
Theorem fixed_stale_source_falls_back_to_testcard :
  forall st now i,
    mode st = MODE_SOURCE ->
    selected st = i ->
    0 <= i < num_inputs st ->
    (frame_size (input_at st i) = 0 \/
     (inject_Z (timeout_ms st) <=
      elapsed_ms (frame_time (input_at st i)) now)%Q) ->
    (forall card,
        testcard st = Some card -> 0 < testcard_size st ->
        choose_frame st now = Some (TestcardFrame, testcard_size st)) /\
    (testcard st = None \/ testcard_size st <= 0 ->
     choose_frame st now = None) /\
    (forall j n, choose_frame st now <> Some (InputFrame j, n)).
Proof.
  intros st now i Hm Hsel Hi Hstale. subst i.
  assert (Hrec : recent st (input_at st (selected st)) now = false).
  { destruct Hstale as [H0|Hq]; [apply recent_absent; exact H0|].
    unfold recent. apply andb_false_iff. right. apply Qltb_false. exact Hq. }
  assert (Hc : choose_frame st now = use_testcard st).
  { rewrite choose_frame_source by assumption. rewrite Hrec. reflexivity. }
  rewrite Hc. split; [|split].
  - intros card Hcard Hsize. apply (use_testcard_loaded st card Hcard Hsize).
  - apply use_testcard_missing.
  - intros j n. apply use_testcard_not_input.
Qed.

Lemma fixed_stale_source_falls_back_to_testcard_witness :
  choose_frame
    (mux_with (input_with 9 10) (input_with 9 3) (input_with 9 10)
       MODE_SOURCE 1) (at_time 10 100) =
  Some (TestcardFrame, 4).
Proof.
  destruct (fixed_stale_source_falls_back_to_testcard
              (mux_with (input_with 9 10) (input_with 9 3) (input_with 9 10)
                 MODE_SOURCE 1) (at_time 10 100) 1) as (H & _).
  - reflexivity.
  - reflexivity.
  - simpl. lia.
  - right. apply Qle_bool_iff. reflexivity.
  - apply (H [0xFF; 0xD8; 0xFF; 0xD9]); [reflexivity|simpl; lia].
Defined.

(** C4: in [MODE_AUTO], [choose_frame] returns the frame of the highest
    index whose input is recent.  When no input is recent it returns
    the test card with the test card's size if one is loaded (and its
    size is positive), and [NULL] otherwise.  With three inputs that
    are stale, fresh, fresh it returns the frame of input 2, with
    fresh, stale, stale that of input 0, and with all three stale the
    test card. *)
Theorem auto_returns_highest_recent_input :
  forall st now,
    mode st = MODE_AUTO ->
    (forall i,
        0 <= i < num_inputs st ->
        recent st (input_at st i) now = true ->
        (forall j, i < j < num_inputs st ->
                   recent st (input_at st j) now = false) ->
        choose_frame st now = Some (InputFrame i, frame_size (input_at st i))) /\
    (forall i n,
        choose_frame st now = Some (InputFrame i, n) ->
        0 <= i < num_inputs st /\
        n = frame_size (input_at st i) /\
        recent st (input_at st i) now = true /\
        forall j, i < j < num_inputs st ->
                  recent st (input_at st j) now = false) /\
    ((forall j, 0 <= j < num_inputs st ->
                recent st (input_at st j) now = false) ->
     (forall card,
         testcard st = Some card -> 0 < testcard_size st ->
         choose_frame st now = Some (TestcardFrame, testcard_size st)) /\
     (testcard st = None \/ testcard_size st <= 0 ->
      choose_frame st now = None)) /\
    (num_inputs st = 3 ->
     (recent st (input_at st 0) now = false ->
      recent st (input_at st 1) now = true ->
      recent st (input_at st 2) now = true ->
      choose_frame st now = Some (InputFrame 2, frame_size (input_at st 2))) /\
     (recent st (input_at st 0) now = true ->
      recent st (input_at st 1) now = false ->
      recent st (input_at st 2) now = false ->
      choose_frame st now = Some (InputFrame 0, frame_size (input_at st 0))) /\
     (recent st (input_at st 0) now = false ->
      recent st (input_at st 1) now = false ->
      recent st (input_at st 2) now = false ->
      forall card,
        testcard st = Some card -> 0 < testcard_size st ->
        choose_frame st now = Some (TestcardFrame, testcard_size st))).
Proof.
  intros st now Hm.
  assert (Hhigh : forall i,
             0 <= i < num_inputs st ->
             recent st (input_at st i) now = true ->
             (forall j, i < j < num_inputs st ->
                        recent st (input_at st j) now = false) ->
             choose_frame st now =
             Some (InputFrame i, frame_size (input_at st i))).
  { intros i Hi Hr Hj. rewrite choose_frame_auto by exact Hm.
    rewrite (auto_scan_highest st now (Z.to_nat (num_inputs st)) i);
      [reflexivity|lia|exact Hr|].
    intros j H. apply Hj. lia. }
  assert (Hnone : (forall j, 0 <= j < num_inputs st ->
                             recent st (input_at st j) now = false) ->
                  choose_frame st now = use_testcard st).
  { intros H. rewrite choose_frame_auto by exact Hm.
    rewrite auto_scan_none; [reflexivity|].
    intros j Hj. apply H. lia. }
  split; [exact Hhigh|]. split.
  { intros i n Hc. rewrite choose_frame_auto in Hc by exact Hm.
    destruct (auto_scan st now (Z.to_nat (num_inputs st))) as [r|] eqn:E.
    - inversion Hc; subst r.
      destruct (auto_scan_returns _ _ _ _ _ E) as (Hi & Hn & Hr & Hj).
      split; [lia|]. split; [exact Hn|]. split; [exact Hr|].
      intros j H. apply Hj. lia.
    - exfalso. exact (use_testcard_not_input _ _ _ Hc). }
  split.
  { intros Hall. rewrite (Hnone Hall). split.
    - intros card Hcard Hsize. apply (use_testcard_loaded st card Hcard Hsize).
    - apply use_testcard_missing. }
  intros H3. split; [|split].
  - intros _ _ H2. apply Hhigh; [lia|exact H2|]. intros j Hj. lia.
  - intros H0 H1 H2. apply Hhigh; [lia|exact H0|].
    intros j Hj. assert (Hc : j = 1 \/ j = 2) by lia.
    destruct Hc as [-> | ->]; assumption.
  - intros H0 H1 H2 card Hcard Hsize. rewrite Hnone.
    + apply (use_testcard_loaded st card Hcard Hsize).
    + intros j Hj. assert (Hc : j = 0 \/ j = 1 \/ j = 2) by lia.
      destruct Hc as [-> | [-> | ->]]; assumption.
Qed.

Lemma auto_returns_highest_recent_input_witness :
  choose_frame
    (mux_with (input_with 9 3) (input_with 8 10) (input_with 7 10)
       MODE_AUTO (-1)) (at_time 10 100) =
  Some (InputFrame 2, 7) /\
  choose_frame
    (mux_with (input_with 9 10) (input_with 8 3) (input_with 7 3)
       MODE_AUTO (-1)) (at_time 10 100) =
  Some (InputFrame 0, 9) /\
  choose_frame
    (mux_with (input_with 9 3) (input_with 8 3) (input_with 7 3)
       MODE_AUTO (-1)) (at_time 10 100) =
  Some (TestcardFrame, 4).
Proof.
  split; [|split].
  - destruct (auto_returns_highest_recent_input
                (mux_with (input_with 9 3) (input_with 8 10) (input_with 7 10)
                   MODE_AUTO (-1)) (at_time 10 100) eq_refl)
      as (_ & _ & _ & H).
    destruct (H eq_refl) as (H2 & _).
    exact (H2 eq_refl eq_refl eq_refl).
  - destruct (auto_returns_highest_recent_input
                (mux_with (input_with 9 10) (input_with 8 3) (input_with 7 3)
                   MODE_AUTO (-1)) (at_time 10 100) eq_refl)
      as (_ & _ & _ & H).
    destruct (H eq_refl) as (_ & H0 & _).
    exact (H0 eq_refl eq_refl eq_refl).
  - destruct (auto_returns_highest_recent_input
                (mux_with (input_with 9 3) (input_with 8 3) (input_with 7 3)
                   MODE_AUTO (-1)) (at_time 10 100) eq_refl)
      as (_ & _ & _ & H).
    destruct (H eq_refl) as (_ & _ & Hc).
    apply (Hc eq_refl eq_refl eq_refl [0xFF; 0xD8; 0xFF; 0xD9]);
      [reflexivity|simpl; lia].
Defined.

(** C5: a cached frame is stale exactly when the time elapsed since its
    capture has reached the timeout, and fresh exactly when it is
    strictly below; at the timeout itself the frame is stale.  Only a
    fresh frame is selected.  In [MODE_SOURCE] the selected input's
    frame is returned exactly when it is fresh, and the code at
    [use_testcard] runs exactly when it is stale.  In [MODE_AUTO] the
    frame of an input is returned exactly when it is fresh and no input
    of higher index holds a recent frame; a fresh frame always makes
    [choose_frame] return the frame of an input, and a stale frame is
    never the one returned. *)
Theorem frame_stale_iff_elapsed_reaches_timeout :
  forall st now i,
    0 <= i < num_inputs st ->
    0 < frame_size (input_at st i) ->
    (recent st (input_at st i) now = false <->
     (inject_Z (timeout_ms st) <=
      elapsed_ms (frame_time (input_at st i)) now)%Q) /\
    (recent st (input_at st i) now = true <->
     (elapsed_ms (frame_time (input_at st i)) now <
      inject_Z (timeout_ms st))%Q) /\
    ((elapsed_ms (frame_time (input_at st i)) now ==
      inject_Z (timeout_ms st))%Q ->
     recent st (input_at st i) now = false) /\
    (mode st = MODE_SOURCE -> selected st = i ->
     (choose_frame st now = Some (InputFrame i, frame_size (input_at st i)) <->
      (elapsed_ms (frame_time (input_at st i)) now <
       inject_Z (timeout_ms st))%Q) /\
     (choose_frame st now = use_testcard st <->
      (inject_Z (timeout_ms st) <=
       elapsed_ms (frame_time (input_at st i)) now)%Q)) /\
    (mode st = MODE_AUTO ->
     (choose_frame st now = Some (InputFrame i, frame_size (input_at st i)) <->
      (elapsed_ms (frame_time (input_at st i)) now <
       inject_Z (timeout_ms st))%Q /\
      forall j, i < j < num_inputs st ->
                recent st (input_at st j) now = false) /\
     ((elapsed_ms (frame_time (input_at st i)) now <
       inject_Z (timeout_ms st))%Q ->
      exists j,
        i <= j < num_inputs st /\
        choose_frame st now =
        Some (InputFrame j, frame_size (input_at st j))) /\
     ((inject_Z (timeout_ms st) <=
       elapsed_ms (frame_time (input_at st i)) now)%Q ->
      forall n, choose_frame st now <> Some (InputFrame i, n))).
Proof.
  intros st now i Hi Hsize.
  pose proof (recent_false st (input_at st i) now Hsize) as Hf.
  pose proof (recent_true st (input_at st i) now Hsize) as Ht.
  split; [exact Hf|]. split; [exact Ht|]. split.
  { intros Heq. apply Hf. rewrite Heq. apply Qle_refl. }
  split.
  - intros Hm Hsel. subst i.
    rewrite choose_frame_source by assumption.
    destruct (recent st (input_at st (selected st)) now) eqn:E.
    + split.
      * split; [intros _; apply Ht; reflexivity|reflexivity].
      * split.
        -- intros H. symmetry in H. exfalso.
           exact (use_testcard_not_input _ _ _ H).
        -- intros H. apply Hf in H. discriminate.
    + split.
      * split.
        -- intros H. exfalso. exact (use_testcard_not_input _ _ _ H).
        -- intros H. apply Ht in H. discriminate.
      * split; [intros _; apply Hf; reflexivity|reflexivity].
  - intros Hm. rewrite choose_frame_auto by exact Hm.
    split; [|split].
    + split.
      * intros Hc.
        destruct (auto_scan st now (Z.to_nat (num_inputs st))) as [r|] eqn:E.
        -- inversion Hc; subst r.
           destruct (auto_scan_returns _ _ _ _ _ E) as (_ & _ & Hr & Hj).
           split; [apply Ht; exact Hr|].
           intros j H. apply Hj. lia.
        -- exfalso. exact (use_testcard_not_input _ _ _ Hc).
      * intros [Hfresh Hj].
        rewrite (auto_scan_highest st now (Z.to_nat (num_inputs st)) i);
          [reflexivity|lia|apply Ht; exact Hfresh|].
        intros j H. apply Hj. lia.
    + intros Hfresh.
      destruct (auto_scan_some st now (Z.to_nat (num_inputs st)) i)
        as (j & Hj & Hs); [lia|apply Ht; exact Hfresh|].
      exists j. split; [lia|]. rewrite Hs. reflexivity.
    + intros Hstale n Hc.
      destruct (auto_scan st now (Z.to_nat (num_inputs st))) as [r|] eqn:E.
      * destruct (auto_scan_sound _ _ _ _ E) as (k & Hk & Hr & Hrec).
        subst r. inversion Hc; subst.
        apply Hf in Hstale. congruence.
      * exact (use_testcard_not_input _ _ _ Hc).
Qed.

Lemma frame_stale_iff_elapsed_reaches_timeout_witness :
  recent
    (mux_with (input_with 9 10) (input_with 9 10) (input_with 9 10)
       MODE_AUTO (-1))
    (input_with 9 10) (at_time 10 500) = false /\
  choose_frame
    (mux_with (input_with 9 10) (input_with 8 10) (input_with 7 3)
       MODE_AUTO (-1)) (at_time 10 499) = Some (InputFrame 1, 8) /\
  choose_frame
    (mux_with (input_with 9 10) (input_with 8 10) (input_with 7 3)
       MODE_AUTO (-1)) (at_time 10 500) <> Some (InputFrame 1, 8).
Proof.
  split; [|split].
  - destruct (frame_stale_iff_elapsed_reaches_timeout
                (mux_with (input_with 9 10) (input_with 9 10) (input_with 9 10)
                   MODE_AUTO (-1)) (at_time 10 500) 1)
      as (_ & _ & H & _).
    + simpl. lia.
    + simpl. lia.
    + apply H. reflexivity.
  - destruct (frame_stale_iff_elapsed_reaches_timeout
                (mux_with (input_with 9 10) (input_with 8 10) (input_with 7 3)
                   MODE_AUTO (-1)) (at_time 10 499) 1)
      as (_ & _ & _ & _ & H).
    + simpl. lia.
    + simpl. lia.
    + destruct (H eq_refl) as (Hiff & _). apply Hiff. split.
      * apply Qltb_true. reflexivity.
      * intros j Hj. assert (j = 2) by (simpl in Hj; lia). subst j.
        reflexivity.
  - destruct (frame_stale_iff_elapsed_reaches_timeout
                (mux_with (input_with 9 10) (input_with 8 10) (input_with 7 3)
                   MODE_AUTO (-1)) (at_time 10 500) 1)
      as (_ & _ & _ & _ & H).
    + simpl. lia.
    + simpl. lia.
    + destruct (H eq_refl) as (_ & _ & Hstale). apply Hstale.
      apply Qle_bool_iff. reflexivity.
Defined.

End Selection.
(** ** The control channel *)

Module Control.

Import Selection.

(** *** Trimming *)

Lemma append_empty_r s : (s ++ "")%string = s.
Proof. induction s as [|c s IH]; simpl; [reflexivity|rewrite IH; reflexivity]. Qed.

Lemma append_assoc s1 s2 s3 :
  ((s1 ++ s2) ++ s3)%string = (s1 ++ (s2 ++ s3))%string.
Proof.
  induction s1 as [|c s1 IH]; simpl; [reflexivity|rewrite IH; reflexivity].
Qed.

Lemma all_chars_app f s1 s2 :
  all_chars f (s1 ++ s2) = all_chars f s1 && all_chars f s2.
Proof.
  induction s1 as [|c s1 IH]; simpl; [reflexivity|].
  rewrite IH. rewrite andb_assoc. reflexivity.
Qed.

(** The first loop removes a run of spaces and tabs and stops at a
    character that is neither. *)
Lemma skip_lead_spec line :
  exists lead,
    line = (lead ++ skip_lead line)%string /\
    all_chars is_lead lead = true /\
    (forall c rest, skip_lead line = String c rest -> is_lead c = false).
Proof.
  induction line as [|c line (lead & H1 & H2 & H3)]; simpl.
  - exists ""%string. split; [reflexivity|]. split; [reflexivity|].
    intros c rest H. discriminate H.
  - destruct (is_lead c) eqn:E.
    + exists (String c lead). simpl. split; [rewrite <- H1; reflexivity|].
      split; [rewrite E, H2; reflexivity|exact H3].
    + exists ""%string. split; [reflexivity|]. split; [reflexivity|].
      intros c' rest H. inversion H; subst. exact E.
Qed.

Lemma get_in_range s : forall k, (k < String.length s)%nat ->
  exists c, String.get k s = Some c.
Proof.
  induction s as [|a s IH]; intros k Hk; simpl in Hk; [lia|].
  destruct k as [|k]; simpl; [exists a; reflexivity|].
  apply IH. lia.
Qed.

Lemma substring_all s : String.substring 0 (String.length s) s = s.
Proof. induction s as [|c s IH]; simpl; [reflexivity|rewrite IH; reflexivity]. Qed.

Lemma substring_snoc s :
  forall k c, String.get k s = Some c ->
    String.substring 0 (S k) s =
    (String.substring 0 k s ++ String c "")%string.
Proof.
  induction s as [|a s IH]; intros k c H; [destruct k; discriminate H|].
  destruct k as [|k].
  - simpl in H. inversion H; subst. simpl.
    destruct s; reflexivity.
  - simpl in H. change (String.substring 0 (S (S k)) (String a s))
      with (String a (String.substring 0 (S k) s)).
    rewrite (IH k c H). reflexivity.
Qed.

Lemma last_char_snoc s c : last_char (s ++ String c "") = Some c.
Proof.
  induction s as [|a s IH]; simpl; [reflexivity|].
  rewrite IH. destruct (s ++ String c "")%string eqn:E; [|reflexivity].
  destruct s; discriminate E.
Qed.

(** The second loop cuts a run of newlines, carriage returns and spaces
    off the end and stops at a character that is none of them. *)
Lemma trim_len_spec l :
  forall n, (n <= String.length l)%nat ->
    (trim_len l n <= n)%nat /\
    (exists trail,
        String.substring 0 n l =
        (String.substring 0 (trim_len l n) l ++ trail)%string /\
        all_chars is_trail trail = true) /\
    (forall c, last_char (String.substring 0 (trim_len l n) l) = Some c ->
               is_trail c = false).
Proof.
  induction n as [|n IH]; intros Hn.
  - simpl. split; [lia|]. split.
    + exists ""%string. split; [|reflexivity].
      destruct l; reflexivity.
    + intros c H. destruct l; discriminate H.
  - destruct (get_in_range l n) as (c & Hc); [lia|].
    destruct IH as (IH1 & (trail & IH2 & IH3) & IH4); [lia|].
    simpl trim_len. rewrite Hc.
    destruct (is_trail c) eqn:E.
    + split; [lia|]. split; [|exact IH4].
      exists (trail ++ String c "")%string. split.
      * rewrite (substring_snoc l n c Hc), IH2, append_assoc. reflexivity.
      * rewrite all_chars_app, IH3. simpl. rewrite E. reflexivity.
    + split; [lia|]. split.
      * exists ""%string. split; [rewrite append_empty_r; reflexivity|reflexivity].
      * intros c' H. rewrite (substring_snoc l n c Hc) in H.
        rewrite last_char_snoc in H. inversion H; subst. exact E.
Qed.

(** [trimmed line] is [line] without a run of spaces and tabs at its
    front and a run of newlines, carriage returns and spaces at its
    back; when it is not empty it starts with a character that is
    neither a space nor a tab and ends with one that is none of the
    three. *)
Lemma trimmed_spec line :
  exists lead trail,
    line = (lead ++ (trimmed line ++ trail))%string /\
    all_chars is_lead lead = true /\
    all_chars is_trail trail = true /\
    (forall c rest, trimmed line = String c rest -> is_lead c = false) /\
    (forall c, last_char (trimmed line) = Some c -> is_trail c = false).
Proof.
  destruct (skip_lead_spec line) as (lead & H1 & H2 & H3).
  destruct (trim_len_spec (skip_lead line) (String.length (skip_lead line))
              (Nat.le_refl _)) as (T1 & (trail & T2 & T3) & T4).
  rewrite substring_all in T2.
  exists lead, trail. unfold trimmed.
  split; [rewrite <- T2; exact H1|]. split; [exact H2|].
  split; [exact T3|]. split; [|exact T4].
  intros c rest Hc.
  destruct (skip_lead line) as [|a r] eqn:E.
  - destruct (trim_len ""%string (String.length ""%string)); discriminate Hc.
  - destruct (trim_len (String a r) (String.length (String a r))) as [|t];
      [discriminate Hc|].
    simpl in Hc. inversion Hc; subst. apply (H3 c r). reflexivity.
Qed.

(** [process_ctl_line] in terms of the trimmed line. *)
Lemma process_ctl_line_eq st line :
  process_ctl_line st line =
  if (String.length (trimmed line) =? 0)%nat then Some st
  else if String.prefix "source " (trimmed line) then
    match atoi (String.substring 7 (String.length (trimmed line) - 7)
                  (trimmed line)) with
    | Some n =>
        if (0 <=? n) && (n <? num_inputs st)
        then Some (set_mode st MODE_SOURCE n)
        else Some st
    | None => None
    end
  else if (trimmed line =? "testcard")%string
       then Some (set_mode st MODE_TESTCARD (-1))
  else if (trimmed line =? "auto")%string
       then Some (set_mode st MODE_AUTO (-1))
  else Some st.
Proof. reflexivity. Qed.

Lemma in_range_true n k : 0 <= n < k -> (0 <=? n) && (n <? k) = true.
Proof.
  intros H. apply andb_true_iff. split; [apply Z.leb_le|apply Z.ltb_lt]; lia.
Qed.

Lemma in_range_false n k : ~ (0 <= n < k) -> (0 <=? n) && (n <? k) = false.
Proof.
  intros H. apply andb_false_iff.
  destruct (Z_lt_le_dec n 0); [left; apply Z.leb_gt; lia|].
  right. apply Z.ltb_ge. lia.
Qed.

(** *** Blanks around a command line *)

Lemma length_append s1 s2 :
  String.length (s1 ++ s2) = (String.length s1 + String.length s2)%nat.
Proof.
  induction s1 as [|c s1 IH]; simpl; [reflexivity|rewrite IH; reflexivity].
Qed.

Lemma skip_lead_blanks lead s :
  all_chars is_lead lead = true ->
  skip_lead (lead ++ s) = skip_lead s.
Proof.
  induction lead as [|c lead IH]; intros H; simpl in *; [reflexivity|].
  apply andb_true_iff in H. destruct H as [Hc Hl].
  rewrite Hc. apply IH. exact Hl.
Qed.

Lemma trim_len_ext a b : forall n,
  (forall k, (k < n)%nat -> String.get k a = String.get k b) ->
  trim_len a n = trim_len b n.
Proof.
  induction n as [|n IH]; intros H; [reflexivity|].
  simpl. rewrite <- (H n) by lia.
  destruct (String.get n a) as [c|]; [|reflexivity].
  destruct (is_trail c); [|reflexivity].
  apply IH. intros k Hk. apply H. lia.
Qed.

Lemma substring_prefix_app y z : forall m,
  (m <= String.length y)%nat ->
  String.substring 0 m (y ++ z) = String.substring 0 m y.
Proof.
  induction y as [|c y IH]; intros m Hm; simpl in Hm.
  - assert (m = 0%nat) by lia. subst m. simpl. destruct z; reflexivity.
  - destruct m as [|m]; [reflexivity|].
    simpl. rewrite IH by lia. reflexivity.
Qed.

Lemma trim_len_le l : forall n, (trim_len l n <= n)%nat.
Proof.
  induction n as [|n IH]; simpl; [lia|].
  destruct (String.get n l) as [c|]; [|lia].
  destruct (is_trail c); lia.
Qed.

Lemma get_snoc y c : String.get (String.length y) (y ++ String c "") = Some c.
Proof. induction y as [|a y IH]; simpl; [reflexivity|exact IH]. Qed.

Lemma rstrip_snoc y c :
  is_trail c = true -> rstrip (y ++ String c "") = rstrip y.
Proof.
  intros Hc. unfold rstrip.
  rewrite length_append. simpl String.length.
  replace (String.length y + 1)%nat with (S (String.length y)) by lia.
  simpl trim_len. rewrite get_snoc, Hc.
  rewrite (trim_len_ext (y ++ String c "") y).
  - apply substring_prefix_app. apply trim_len_le.
  - intros k Hk. symmetry. apply append_correct1. exact Hk.
Qed.

Lemma rstrip_trail trail : forall x,
  all_chars is_trail trail = true -> rstrip (x ++ trail) = rstrip x.
Proof.
  induction trail as [|c trail IH]; intros x H.
  - rewrite append_empty_r. reflexivity.
  - simpl in H. apply andb_true_iff in H. destruct H as [Hc Ht].
    replace (x ++ String c trail)%string
      with ((x ++ String c "") ++ trail)%string
      by (rewrite append_assoc; reflexivity).
    rewrite IH by exact Ht. apply rstrip_snoc. exact Hc.
Qed.

Lemma skip_lead_keeps_trail trail :
  all_chars is_trail trail = true ->
  all_chars is_trail (skip_lead trail) = true.
Proof.
  induction trail as [|c trail IH]; intros H; simpl in *; [reflexivity|].
  apply andb_true_iff in H. destruct H as [Hc Ht].
  destruct (is_lead c); [apply IH; exact Ht|].
  simpl. rewrite Hc, Ht. reflexivity.
Qed.

Lemma skip_lead_app s trail :
  skip_lead (s ++ trail) = (skip_lead s ++ trail)%string \/
  (skip_lead s = ""%string /\ skip_lead (s ++ trail) = skip_lead trail).
Proof.
  induction s as [|c s IH]; simpl.
  - right. split; reflexivity.
  - destruct (is_lead c); [exact IH|]. left. reflexivity.
Qed.

Lemma trimmed_blanks lead s trail :
  all_chars is_lead lead = true ->
  all_chars is_trail trail = true ->
  trimmed (lead ++ (s ++ trail)) = trimmed s.
Proof.
  intros Hl Ht. unfold trimmed.
  change (String.substring 0
            (trim_len (skip_lead (lead ++ (s ++ trail)))
               (String.length (skip_lead (lead ++ (s ++ trail)))))
            (skip_lead (lead ++ (s ++ trail))))
    with (rstrip (skip_lead (lead ++ (s ++ trail)))).
  change (String.substring 0
            (trim_len (skip_lead s) (String.length (skip_lead s)))
            (skip_lead s))
    with (rstrip (skip_lead s)).
  rewrite skip_lead_blanks by exact Hl.
  destruct (skip_lead_app s trail) as [H|[H1 H2]].
  - rewrite H. apply rstrip_trail. exact Ht.
  - rewrite H2, H1.
    replace (skip_lead trail) with (""%string ++ skip_lead trail)%string
      by reflexivity.
    apply rstrip_trail. apply skip_lead_keeps_trail. exact Ht.
Qed.

Lemma string_snoc_cases s :
  s = ""%string \/ exists y c, s = (y ++ String c "")%string.
Proof.
  induction s as [|a s IH]; [left; reflexivity|right].
  destruct IH as [-> | (y & c & ->)].
  - exists ""%string, a. reflexivity.
  - exists (String a y), c. reflexivity.
Qed.

Lemma isspace_false c :
  isspace c = false -> is_lead c = false /\ is_trail c = false.
Proof.
  unfold isspace, is_lead, is_trail. intros H.
  repeat (apply orb_false_iff in H; destruct H as [H ?]).
  split; repeat (apply orb_false_iff; split); assumption.
Qed.

(** A text that begins with neither a space nor a tab and ends with
    none of newline, carriage return and space is left as it is by the
    two trimming loops. *)
Lemma trimmed_fixed body :
  (forall c rest, body = String c rest -> is_lead c = false) ->
  (forall c, last_char body = Some c -> is_trail c = false) ->
  trimmed body = body.
Proof.
  intros Hfirst Hlast. unfold trimmed.
  assert (Hs : skip_lead body = body).
  { destruct body as [|c rest]; [reflexivity|].
    simpl. rewrite (Hfirst c rest eq_refl). reflexivity. }
  rewrite Hs.
  destruct (string_snoc_cases body) as [-> | (y & c & ->)]; [reflexivity|].
  assert (Hc : is_trail c = false)
    by (apply Hlast; apply last_char_snoc).
  assert (Hlen : trim_len (y ++ String c "")
                   (String.length (y ++ String c "")) =
                 String.length (y ++ String c "")).
  { rewrite length_append. simpl String.length.
    replace (String.length y + 1)%nat with (S (String.length y)) by lia.
    simpl trim_len. rewrite get_snoc, Hc. reflexivity. }
  rewrite Hlen. apply substring_all.
Qed.

(** C6 (as amended): a control line made of spaces and tabs, then a
    text that neither begins nor ends with a white-space character,
    then spaces, carriage returns and newlines, is handled by its text,
    compared case sensitive.  The text [testcard] selects the test card
    and the text [auto] selects automatic mode.  A text that begins
    with [source ] is a source command: its index is what [atoi] makes
    of the rest of the text, and it selects that source when the index
    is at least 0 and below [num_inputs], and changes nothing
    otherwise.  Every other text changes nothing.  With three inputs,
    [source 2] selects source 2, [source 99] changes nothing, a line
    [auto] between spaces and before a carriage return and a newline
    selects automatic mode, and [bogus] changes nothing. *)
Theorem control_line_commands :
  forall st lead body trail,
    all_chars is_lead lead = true ->
    all_chars is_trail trail = true ->
    (forall c rest, body = String c rest -> isspace c = false) ->
    (forall c, last_char body = Some c -> isspace c = false) ->
    (body = "testcard"%string ->
     process_ctl_line st (lead ++ (body ++ trail)) =
       Some (set_mode st MODE_TESTCARD (-1))) /\
    (body = "auto"%string ->
     process_ctl_line st (lead ++ (body ++ trail)) =
       Some (set_mode st MODE_AUTO (-1))) /\
    (forall n,
        String.prefix "source " body = true ->
        atoi (String.substring 7 (String.length body - 7) body) = Some n ->
        (0 <= n < num_inputs st ->
         process_ctl_line st (lead ++ (body ++ trail)) =
           Some (set_mode st MODE_SOURCE n)) /\
        (~ (0 <= n < num_inputs st) ->
         process_ctl_line st (lead ++ (body ++ trail)) = Some st)) /\
    (String.prefix "source " body = false ->
     body <> "testcard"%string ->
     body <> "auto"%string ->
     process_ctl_line st (lead ++ (body ++ trail)) = Some st) /\
    (num_inputs st = 3 ->
     process_ctl_line st "source 2" = Some (set_mode st MODE_SOURCE 2) /\
     process_ctl_line st "source 99" = Some st /\
     process_ctl_line st ("  auto  " ++ CR ++ LF) =
       Some (set_mode st MODE_AUTO (-1)) /\
     process_ctl_line st "bogus" = Some st).
Proof.
  intros st lead body trail Hlead Htrail Hfirst Hlast.
  assert (Ht : trimmed (lead ++ (body ++ trail)) = body).
  { rewrite trimmed_blanks by assumption. apply trimmed_fixed.
    - intros c rest Hb. apply isspace_false. apply (Hfirst c rest Hb).
    - intros c Hb. apply isspace_false. apply (Hlast c Hb). }
  split; [|split; [|split; [|split]]].
  - intros H. rewrite process_ctl_line_eq, Ht, H. reflexivity.
  - intros H. rewrite process_ctl_line_eq, Ht, H. reflexivity.
  - intros n Hp Ha. rewrite process_ctl_line_eq, Ht.
    assert (Hlen : (String.length body =? 0)%nat = false).
    { destruct body; [discriminate Hp|reflexivity]. }
    rewrite Hlen, Hp, Ha. split; intros Hr.
    + rewrite in_range_true by exact Hr. reflexivity.
    + rewrite in_range_false by exact Hr. reflexivity.
  - intros Hp Hcard Hauto. rewrite process_ctl_line_eq, Ht, Hp.
    destruct (String.length body =? 0)%nat; [reflexivity|].
    destruct (body =? "testcard")%string eqn:E1;
      [apply String.eqb_eq in E1; contradiction|].
    destruct (body =? "auto")%string eqn:E2;
      [apply String.eqb_eq in E2; contradiction|].
    reflexivity.
  - intros H3.
    split; [|split; [|split]].
    + rewrite process_ctl_line_eq.
      change (trimmed "source 2") with "source 2"%string.
      change (String.length "source 2" =? 0)%nat with false.
      change (String.prefix "source " "source 2") with true.
      change (atoi (String.substring 7 (String.length "source 2" - 7)
                      "source 2")) with (Some 2).
      cbv iota. rewrite H3. reflexivity.
    + rewrite process_ctl_line_eq.
      change (trimmed "source 99") with "source 99"%string.
      change (String.length "source 99" =? 0)%nat with false.
      change (String.prefix "source " "source 99") with true.
      change (atoi (String.substring 7 (String.length "source 99" - 7)
                      "source 99")) with (Some 99).
      cbv iota. rewrite H3. reflexivity.
    + reflexivity.
    + reflexivity.
Qed.

Lemma control_line_commands_witness :
  process_ctl_line (startup 3 500 None 0) ("  auto  " ++ CR ++ LF) =
    Some (set_mode (startup 3 500 None 0) MODE_AUTO (-1)) /\
  process_ctl_line (startup 3 500 None 0) (TAB ++ "source 2" ++ " " ++ LF) =
    Some (set_mode (startup 3 500 None 0) MODE_SOURCE 2).
Proof.
  split.
  - destruct (control_line_commands (startup 3 500 None 0)
                "  "%string "auto"%string ("  " ++ CR ++ LF)%string)
      as (_ & H & _).
    + reflexivity.
    + reflexivity.
    + intros c rest Hb. inversion Hb; subst. reflexivity.
    + intros c Hb. inversion Hb; subst. reflexivity.
    + exact (H eq_refl).
  - destruct (control_line_commands (startup 3 500 None 0)
                TAB "source 2"%string (" " ++ LF)%string)
      as (_ & _ & H & _).
    + reflexivity.
    + reflexivity.
    + intros c rest Hb. inversion Hb; subst. reflexivity.
    + intros c Hb. inversion Hb; subst. reflexivity.
    + destruct (H 2 eq_refl eq_refl) as (Hin & _).
      apply Hin. split; [discriminate|reflexivity].
Defined.

(** C6 (as stated) fails: a line that begins with [source ] but carries
    no number, or a number followed by other text, is not rejected: it
    selects the source that [atoi] reads from it. *)
Lemma control_line_accepts_malformed_source :
  process_ctl_line (startup 3 500 None 0) "source abc" =
    Some (set_mode (startup 3 500 None 0) MODE_SOURCE 0) /\
  process_ctl_line (startup 3 500 None 0) "source 1x" =
    Some (set_mode (startup 3 500 None 0) MODE_SOURCE 1).
Proof. split; reflexivity. Qed.

(** *** The mode and the selected index *)

Lemma startup_num_inputs n t c cs :
  1 <= num_inputs (startup n t c cs) <= MAX_INPUTS.
Proof.
  simpl. unfold clamp_inputs, MAX_INPUTS.
  destruct (n <? 1) eqn:E1.
  - simpl. lia.
  - apply Z.ltb_ge in E1. destruct (8 <? n) eqn:E2; [lia|].
    apply Z.ltb_ge in E2. lia.
Qed.

Lemma startup_inputs_length n t c cs :
  Z.of_nat (List.length (inputs (startup n t c cs))) =
  num_inputs (startup n t c cs).
Proof.
  pose proof (startup_num_inputs n t c cs) as H.
  cbn [inputs num_inputs startup] in *. rewrite repeat_length. lia.
Qed.

Lemma startup_ok n t c cs : mode_selected_ok (startup n t c cs).
Proof.
  split; simpl; [discriminate|reflexivity].
Qed.

(** A control line keeps the inputs, [num_inputs] and the relation
    between [mode] and [selected]. *)
Lemma process_ctl_line_ok st line st' :
  mode_selected_ok st ->
  process_ctl_line st line = Some st' ->
  mode_selected_ok st' /\ num_inputs st' = num_inputs st /\
  inputs st' = inputs st.
Proof.
  intros Hok H. rewrite process_ctl_line_eq in H.
  destruct (String.length (trimmed line) =? 0)%nat;
    [inversion H; subst; split; [exact Hok|split; reflexivity]|].
  destruct (String.prefix "source " (trimmed line)).
  - destruct (atoi _) as [n|]; [|discriminate H].
    destruct ((0 <=? n) && (n <? num_inputs st)) eqn:E;
      inversion H; subst; [|split; [exact Hok|split; reflexivity]].
    apply andb_true_iff in E. destruct E as [E1 E2].
    apply Z.leb_le in E1. apply Z.ltb_lt in E2.
    split; [|split; reflexivity]. split; simpl.
    + intros _. lia.
    + intros [H0|H0]; discriminate H0.
  - destruct (trimmed line =? "testcard")%string.
    { inversion H; subst. split; [|split; reflexivity].
      split; simpl; [discriminate|reflexivity]. }
    destruct (trimmed line =? "auto")%string.
    { inversion H; subst. split; [|split; reflexivity].
      split; simpl; [discriminate|reflexivity]. }
    inversion H; subst. split; [exact Hok|split; reflexivity].
Qed.

Lemma process_ctl_lines_ok lines :
  forall st st',
    mode_selected_ok st ->
    process_ctl_lines st lines = Some st' ->
    mode_selected_ok st' /\ num_inputs st' = num_inputs st /\
    inputs st' = inputs st.
Proof.
  induction lines as [|l rest IH]; intros st st' Hok H; simpl in H.
  - inversion H; subst. split; [exact Hok|split; reflexivity].
  - destruct (process_ctl_line st l) as [st1|] eqn:E; [|discriminate H].
    destruct (process_ctl_line_ok st l st1 Hok E) as (Hok1 & Hn1 & Hi1).
    destruct (IH st1 st' Hok1 H) as (Hok' & Hn' & Hi').
    split; [exact Hok'|]. split; congruence.
Qed.

(** C9: the globals as [main] sets them up satisfy the relation between
    [mode] and [selected], and every control line keeps it, so after any
    run of control lines: in [MODE_SOURCE] the selected index is at
    least 0 and below [num_inputs], in the other two modes it is -1;
    [num_inputs] is still between 1 and [MAX_INPUTS] and is the number
    of inputs set up; and in [MODE_SOURCE] [choose_frame] takes its
    fixed-source branch, on an index inside the input array. *)
Theorem mode_and_selected_stay_consistent :
  forall n_inputs timeout card card_size lines st,
    process_ctl_lines (startup n_inputs timeout card card_size) lines =
      Some st ->
    mode_selected_ok (startup n_inputs timeout card card_size) /\
    (forall line st', process_ctl_line st line = Some st' ->
                      mode_selected_ok st') /\
    (mode st = MODE_SOURCE -> 0 <= selected st < num_inputs st) /\
    (mode st = MODE_AUTO \/ mode st = MODE_TESTCARD -> selected st = -1) /\
    1 <= num_inputs st <= MAX_INPUTS /\
    Z.of_nat (List.length (inputs st)) = num_inputs st /\
    (mode st = MODE_SOURCE ->
     0 <= selected st < MAX_INPUTS /\
     forall now,
       choose_frame st now =
       if recent st (input_at st (selected st)) now
       then Some (InputFrame (selected st),
                  frame_size (input_at st (selected st)))
       else use_testcard st).
Proof.
  intros n t c cs lines st H.
  pose proof (startup_ok n t c cs) as H0.
  destruct (process_ctl_lines_ok lines _ _ H0 H) as ((Hs & Ho) & Hn & Hi).
  pose proof (startup_num_inputs n t c cs) as Hb.
  pose proof (startup_inputs_length n t c cs) as Hl.
  rewrite <- Hn in Hb. rewrite <- Hn, <- Hi in Hl.
  split; [exact H0|]. split.
  { intros line st' Hline.
    apply (process_ctl_line_ok st line st'); [split; assumption|exact Hline]. }
  split; [exact Hs|]. split; [exact Ho|]. split; [exact Hb|].
  split; [exact Hl|].
  intros Hm. specialize (Hs Hm). split; [lia|].
  intros now. apply choose_frame_source; assumption.
Qed.

Lemma mode_and_selected_stay_consistent_witness :
  mode_selected_ok (set_mode (startup 2 500 None 0) MODE_SOURCE 1).
Proof.
  destruct (mode_and_selected_stay_consistent 2 500 None 0
              ["source 1"%string; "bogus"%string; "testcard"%string;
               "source 7"%string; "source 1"%string]
              (set_mode (startup 2 500 None 0) MODE_SOURCE 1) eq_refl)
    as (_ & _ & H1 & H2 & _).
  split; assumption.
Defined.


End Control.

(** ** The sink and the main loop *)

Module MainLoop.

Lemma write_stdout_eq len total evs :
  write_stdout len total evs =
  if total <? len then
    match evs with
    | [] => OutOfFuel
    | ev :: rest =>
        if w_ret ev <? 0 then
          if w_again ev then
            if w_poll ev <=? 0 then Ret (false, rest)
            else write_stdout len total rest
          else Ret (false, rest)
        else if w_ret ev =? 0 then Ret (false, rest)
        else write_stdout len (total + w_ret ev) rest
    end
  else Ret (true, evs).
Proof. destruct evs; reflexivity. Qed.

(** A fatal answer makes [write_stdout] return 0 at once. *)
Lemma write_stdout_fatal len total ev rest :
  total < len -> fatal ev = true ->
  write_stdout len total (ev :: rest) = Ret (false, rest).
Proof.
  intros Hlt Hf. rewrite write_stdout_eq.
  assert (E : (total <? len) = true) by (apply Z.ltb_lt; exact Hlt).
  rewrite E. unfold fatal in Hf.
  destruct (w_ret ev <? 0).
  - destruct (w_again ev); [rewrite Hf|]; reflexivity.
  - rewrite Hf. reflexivity.
Qed.

(** [write_stdout] returns 0 only after a fatal answer. *)
Lemma write_stdout_fails_on_fatal evs :
  forall len total rest,
    write_stdout len total evs = Ret (false, rest) ->
    exists pre ev, evs = pre ++ ev :: rest /\ fatal ev = true.
Proof.
  induction evs as [|ev evs IH]; intros len total rest H;
    rewrite write_stdout_eq in H;
    destruct (total <? len); try discriminate H.
  unfold fatal.
  destruct (w_ret ev <? 0) eqn:E1.
  - destruct (w_again ev) eqn:E2.
    + destruct (w_poll ev <=? 0) eqn:E3.
      * inversion H; subst. exists [], ev.
        split; [reflexivity|]. rewrite E1, E2. exact E3.
      * destruct (IH _ _ _ H) as (pre & ev' & Hp & Hf).
        exists (ev :: pre), ev'. split; [rewrite Hp; reflexivity|exact Hf].
    + inversion H; subst. exists [], ev.
      split; [reflexivity|]. rewrite E1, E2. reflexivity.
  - destruct (w_ret ev =? 0) eqn:E2.
    + inversion H; subst. exists [], ev.
      split; [reflexivity|]. rewrite E1. exact E2.
    + destruct (IH _ _ _ H) as (pre & ev' & Hp & Hf).
      exists (ev :: pre), ev'. split; [rewrite Hp; reflexivity|exact Hf].
Qed.

(** The output step reports a failure only when [write_stdout] was
    called on a chosen frame and returned 0. *)
Lemma output_step_failure interval st last_out now evs last_out' :
  output_step interval st last_out now evs = Ret (last_out', true) ->
  exists ptr flen rest,
    choose_frame st now = Some (ptr, flen) /\
    write_stdout flen 0 evs = Ret (false, rest).
Proof.
  unfold output_step. intros H.
  destruct ((tv_sec last_out =? 0) ||
            Qle_bool (inject_Z interval) (elapsed_ms last_out now));
    [|discriminate H].
  destruct (choose_frame st now) as [[ptr flen]|] eqn:Ec; [|discriminate H].
  destruct (0 <? flen); [|discriminate H].
  destruct (write_stdout flen 0 evs) as [[ok rest]|] eqn:Ew; [|discriminate H].
  destruct ok; [discriminate H|].
  exists ptr, flen, rest. split; [reflexivity|exact Ew].
Qed.

Lemma main_loop_eq interval st last_out running log ticks :
  main_loop interval st last_out running log ticks =
  if running then
    match ticks with
    | [] => Starved
    | t :: rest =>
        if t_idle t then
          main_loop interval st last_out (negb (t_signal t)) log rest
        else
          let st1 := fold_left drain_ready (t_inputs t) st in
          match process_ctl_lines st1 (t_ctl t) with
          | None => Undefined
          | Some st2 =>
              match output_step interval st2 last_out (t_now t)
                      (t_writes t) with
              | OutOfFuel => Starved
              | Ret (last_out', failed) =>
                  if failed then
                    main_loop interval st2 last_out' false
                      (log ++ [MSG_WRITE_FAILED]) rest
                  else
                    main_loop interval st2 last_out'
                      (negb (t_signal t)) log rest
              end
          end
    end
  else Exit 0 (log ++ [MSG_DONE]).
Proof. destruct ticks; reflexivity. Qed.

(** Whenever [main] returns, it returns 0. *)
Lemma main_loop_status ticks :
  forall interval st last_out running log status log',
    main_loop interval st last_out running log ticks = Exit status log' ->
    status = 0.
Proof.
  induction ticks as [|t rest IH]; intros interval st last_out running log
    status log' H; rewrite main_loop_eq in H.
  - destruct running; [discriminate H|]. inversion H. reflexivity.
  - destruct running; [|inversion H; reflexivity].
    destruct (t_idle t); [exact (IH _ _ _ _ _ _ _ H)|].
    cbv zeta in H.
    destruct (process_ctl_lines _ _) as [st2|]; [|discriminate H].
    destruct (output_step _ _ _ _ _) as [[lo failed]|]; [|discriminate H].
    destruct failed; exact (IH _ _ _ _ _ _ _ H).
Qed.

(** C8 (as amended): [write_stdout] fails on a write error other than
    would-block, on a would-block whose [poll] does not report the
    output writable, and on a write of zero bytes, and on nothing else.
    When it fails the main loop logs the failure and stops; when a
    signal is delivered the loop stops at its next test; otherwise it
    goes on.  Either way [main] runs its cleanup and returns 0: the exit
    status is 0 for a sink failure as for an interrupt, and the two
    differ by the logged message only. *)
Theorem sink_failure_and_interrupt_both_exit_zero :
  (forall interval st last_out running log ticks status log',
      main_loop interval st last_out running log ticks = Exit status log' ->
      status = 0) /\
  (forall len total ev rest,
      total < len -> fatal ev = true ->
      write_stdout len total (ev :: rest) = Ret (false, rest)) /\
  (forall len total evs rest,
      write_stdout len total evs = Ret (false, rest) ->
      exists pre ev, evs = pre ++ ev :: rest /\ fatal ev = true) /\
  (forall interval st last_out now evs last_out',
      output_step interval st last_out now evs = Ret (last_out', true) ->
      exists ptr flen rest,
        choose_frame st now = Some (ptr, flen) /\
        write_stdout flen 0 evs = Ret (false, rest)) /\
  (forall interval st last_out log t rest st2 last_out',
      t_idle t = false ->
      process_ctl_lines (fold_left drain_ready (t_inputs t) st) (t_ctl t) =
        Some st2 ->
      (output_step interval st2 last_out (t_now t) (t_writes t) =
         Ret (last_out', true) ->
       main_loop interval st last_out true log (t :: rest) =
         Exit 0 (log ++ [MSG_WRITE_FAILED; MSG_DONE])) /\
      (output_step interval st2 last_out (t_now t) (t_writes t) =
         Ret (last_out', false) ->
       t_signal t = true ->
       main_loop interval st last_out true log (t :: rest) =
         Exit 0 (log ++ [MSG_DONE])) /\
      (output_step interval st2 last_out (t_now t) (t_writes t) =
         Ret (last_out', false) ->
       t_signal t = false ->
       main_loop interval st last_out true log (t :: rest) =
         main_loop interval st2 last_out' true log rest)) /\
  (forall interval st last_out log t rest,
      t_idle t = true ->
      main_loop interval st last_out true log (t :: rest) =
      if t_signal t then Exit 0 (log ++ [MSG_DONE])
      else main_loop interval st last_out true log rest).
Proof.
  split; [intros; eapply main_loop_status; eassumption|].
  split; [intros; apply write_stdout_fatal; assumption|].
  split; [intros; eapply write_stdout_fails_on_fatal; eassumption|].
  split; [intros; eapply output_step_failure; eassumption|].
  split.
  - intros interval st last_out log t rest st2 lo Hidle Hctl.
    split; [|split].
    + intros Hout. rewrite main_loop_eq. rewrite Hidle. cbv zeta.
      rewrite Hctl, Hout. rewrite main_loop_eq.
      rewrite <- app_assoc. reflexivity.
    + intros Hout Hsig. rewrite main_loop_eq. rewrite Hidle. cbv zeta.
      rewrite Hctl, Hout, Hsig. rewrite main_loop_eq. reflexivity.
    + intros Hout Hsig. rewrite main_loop_eq. rewrite Hidle. cbv zeta.
      rewrite Hctl, Hout, Hsig. reflexivity.
  - intros interval st last_out log t rest Hidle.
    rewrite main_loop_eq. rewrite Hidle.
    destruct (t_signal t); [rewrite main_loop_eq|]; reflexivity.
Qed.

(** C8 (as stated) fails: with a test card loaded, a run whose first
    write to the standard output fails with an error other than
    would-block ends with exit status 0, after the failure message, just
    as a run that is interrupted does. *)
Lemma sink_failure_exits_with_status_zero :
  main 3 500 10 (Some [0xFF; 0xD8; 0xFF; 0xD9]) 4 [failing_tick] =
    Exit 0 [MSG_WRITE_FAILED; MSG_DONE] /\
  main 3 500 10 (Some [0xFF; 0xD8; 0xFF; 0xD9]) 4 [interrupt_tick] =
    Exit 0 [MSG_DONE].
Proof. split; reflexivity. Qed.

End MainLoop.

(** ** More on the frame extractor *)

Module ExtractorProps.

Import FrameExtractor.

Lemma eoi_at_agree buf buf' n e :
  same_bytes buf buf' n -> 0 <= e -> e + 1 < n ->
  (eoi_at buf e <-> eoi_at buf' e).
Proof.
  intros H He Hn. unfold eoi_at.
  rewrite (H e) by lia. rewrite (H (e + 1)) by lia. reflexivity.
Qed.

Lemma soi_at_agree buf buf' n p :
  same_bytes buf buf' n -> 0 <= p -> p + 1 < n ->
  (soi_at buf p <-> soi_at buf' p).
Proof.
  intros H Hp Hn. unfold soi_at.
  rewrite (H p) by lia. rewrite (H (p + 1)) by lia. reflexivity.
Qed.

Lemma same_bytes_sym buf buf' n : same_bytes buf buf' n -> same_bytes buf' buf n.
Proof. intros H i Hi. symmetry. apply H. exact Hi. Qed.

(** Whether a region is a frame depends on the first [buflen] bytes
    only. *)
Lemma frame_at_agree_1 buf buf' n p l :
  same_bytes buf buf' n -> frame_at buf n p l -> frame_at buf' n p l.
Proof.
  intros H (Hp & Hl & Hin & Hs & He & Hno & Hc).
  split; [exact Hp|]. split; [exact Hl|]. split; [exact Hin|].
  split; [apply (soi_at_agree buf buf' n p H); [lia|lia|exact Hs]|].
  split; [apply (eoi_at_agree buf buf' n _ H); [lia|lia|exact He]|].
  split.
  - intros e Hr He'. apply (Hno e Hr).
    apply (eoi_at_agree buf buf' n e H); [lia|lia|exact He'].
  - intros q Hq Hsq.
    destruct (Hc q Hq) as (e & H1 & H2 & H3).
    + apply (soi_at_agree buf buf' n q H); [lia|lia|exact Hsq].
    + exists e. split; [exact H1|]. split; [exact H2|].
      apply (eoi_at_agree buf buf' n e H); [lia|lia|exact H3].
Qed.

Lemma frame_at_agree buf buf' n p l :
  same_bytes buf buf' n -> (frame_at buf n p l <-> frame_at buf' n p l).
Proof.
  intros H. split; apply frame_at_agree_1;
    [exact H|apply same_bytes_sym; exact H].
Qed.

(** A frame of a buffer stays a frame when the buffer grows. *)
Lemma frame_at_grow buf m n p l :
  m <= n -> frame_at buf m p l -> frame_at buf n p l.
Proof.
  intros Hmn (Hp & Hl & Hin & Hrest).
  split; [exact Hp|]. split; [exact Hl|]. split; [lia|exact Hrest].
Qed.

(** A frame that ends within the first [m] bytes is a frame of them. *)
Lemma frame_at_shrink buf m n p l :
  p + l <= m -> frame_at buf n p l -> frame_at buf m p l.
Proof.
  intros Hm (Hp & Hl & Hin & Hrest).
  split; [exact Hp|]. split; [exact Hl|]. split; [lia|exact Hrest].
Qed.

Lemma last_fitting_transfer buf n buf' n' r :
  (forall p l, frame_at buf n p l <-> frame_at buf' n' p l) ->
  last_fitting buf n r -> last_fitting buf' n' r.
Proof.
  intros H. destruct r as [[o k]|]; simpl.
  - intros (Hf & Hk & Hmax). split; [apply (proj1 (H o k)); exact Hf|].
    split; [exact Hk|]. intros p l Hp. apply Hmax.
    apply (proj2 (H p l)). exact Hp.
  - intros Hno p l Hp. apply (Hno p l). apply (proj2 (H p l)). exact Hp.
Qed.

(** X1: [last_jpeg] returns the region [(o, n)] exactly when it is a
    complete frame of at most [MAX_FRAME_SIZE] bytes and no such frame
    starts later, and returns [NULL] exactly when the buffer holds no
    complete frame of at most [MAX_FRAME_SIZE] bytes. *)
Theorem last_jpeg_characterised :
  forall buf buflen,
    (forall o n,
        last_jpeg buf buflen = Some (o, n) <->
        (frame_at buf buflen o n /\ n <= MAX_FRAME_SIZE /\
         forall p l, frame_at buf buflen p l -> l <= MAX_FRAME_SIZE ->
                     p <= o)) /\
    (last_jpeg buf buflen = None <->
     forall p l, frame_at buf buflen p l -> MAX_FRAME_SIZE < l).
Proof.
  intros buf buflen. pose proof (last_jpeg_spec buf buflen) as Hspec.
  split.
  - intros o n. split.
    + intros H. rewrite H in Hspec. exact Hspec.
    + intros H. apply last_jpeg_eq. exact H.
  - split.
    + intros H. rewrite H in Hspec. exact Hspec.
    + intros H. apply last_jpeg_eq. exact H.
Qed.

(** X2: the result of [last_jpeg] depends on the first [buflen] bytes
    of the buffer only: two buffers that agree there give the same
    result, whatever lies at and beyond index [buflen]. *)
Theorem last_jpeg_reads_only_buflen_bytes :
  forall buf buf' buflen,
    same_bytes buf buf' buflen ->
    last_jpeg buf buflen = last_jpeg buf' buflen.
Proof.
  intros buf buf' n H. symmetry. apply last_jpeg_eq.
  apply (last_fitting_transfer buf n buf' n).
  - intros p l. apply frame_at_agree. exact H.
  - apply last_jpeg_spec.
Qed.

Lemma last_jpeg_reads_only_buflen_bytes_witness :
  last_jpeg [0xFF; 0xD8; 0xFF; 0xD9; 1] 4 =
  last_jpeg [0xFF; 0xD8; 0xFF; 0xD9; 0xFF; 0xD9] 4.
Proof.
  apply (last_jpeg_reads_only_buflen_bytes
           [0xFF; 0xD8; 0xFF; 0xD9; 1] [0xFF; 0xD8; 0xFF; 0xD9; 0xFF; 0xD9] 4).
  intros i Hi.
  assert (Hc : i = 0 \/ i = 1 \/ i = 2 \/ i = 3) by lia.
  destruct Hc as [-> | [-> | [-> | ->]]]; reflexivity.
Defined.

(** X3: bytes that follow the last end marker do not change the
    result: if no end marker lies at or after index [m - 1] among the
    first [n] bytes, [last_jpeg] on [n] bytes returns what it returns
    on the first [m].  So a start marker whose end marker has not
    arrived yet is left alone, and a buffer without any end marker
    gives [NULL]. *)
Theorem last_jpeg_ignores_unfinished_tail :
  forall buf m n,
    m <= n ->
    (forall e, m - 1 <= e -> e + 1 < n -> ~ eoi_at buf e) ->
    last_jpeg buf n = last_jpeg buf m /\
    (m <= 0 -> last_jpeg buf n = None).
Proof.
  intros buf m n Hmn Hno.
  assert (Heq : last_jpeg buf n = last_jpeg buf m).
  { apply last_jpeg_eq.
    apply (last_fitting_transfer buf m buf n); [|apply last_jpeg_spec].
    intros p l. split.
    - apply frame_at_grow. exact Hmn.
    - intros Hf. apply (frame_at_shrink buf m n); [|exact Hf].
      destruct Hf as (Hp & Hl & Hin & _ & He & _).
      destruct (Z_le_gt_dec (p + l) m) as [H|H]; [exact H|exfalso].
      apply (Hno (p + l - 2)); [lia|lia|exact He]. }
  split; [exact Heq|].
  intros Hm. rewrite Heq. apply last_jpeg_eq. simpl.
  intros p l (Hp & Hl & Hin & _). lia.
Qed.

Lemma last_jpeg_ignores_unfinished_tail_witness :
  last_jpeg [0xFF; 0xD8; 0xFF; 0xD9; 0xFF; 0xD8; 7] 7 =
  last_jpeg [0xFF; 0xD8; 0xFF; 0xD9; 0xFF; 0xD8; 7] 4.
Proof.
  apply (last_jpeg_ignores_unfinished_tail
           [0xFF; 0xD8; 0xFF; 0xD9; 0xFF; 0xD8; 7] 4 7).
  - lia.
  - intros e H1 H2 [Ha Hb].
    assert (Hc : e = 3 \/ e = 4 \/ e = 5) by lia.
    destruct Hc as [-> | [-> | ->]];
      try discriminate Ha; discriminate Hb.
Defined.

End ExtractorProps.

(** ** More on the input channel *)

Module InputProps.

Import FrameExtractor InputChannel ExtractorProps.

(** As long as the buffer does not fill up, the read loop appends all
    the bytes of the pipe, however they are cut into reads. *)
Lemma fill_small p :
  forall fuel buf,
    no_empty_chunk p ->
    (pipe_bytes p <= fuel)%nat ->
    Z.of_nat (List.length buf) + Z.of_nat (pipe_bytes p) < READ_BUF_SIZE ->
    fill fuel buf p = Ret (buf ++ List.concat p, []).
Proof.
  induction p as [|c p IH]; intros fuel buf Hne Hfuel Hlen;
    rewrite fill_eq; cbv zeta;
    (destruct (make_room_spec buf) as [Hm _]; [lia|]);
    rewrite Hm by lia; rewrite size_t_small by lia.
  - simpl. rewrite app_nil_r. reflexivity.
  - assert (Hc : c <> []) by (apply Hne; left; reflexivity).
    assert (Hc1 : (1 <= List.length c)%nat)
      by (destruct c; [contradiction|simpl; lia]).
    simpl in Hlen, Hfuel.
    unfold read.
    assert (E1 : (Z.of_nat (List.length c) <=?
                  READ_BUF_SIZE - Z.of_nat (List.length buf)) = true)
      by (apply Z.leb_le; lia).
    rewrite E1. rewrite Z.min_l by lia. rewrite Nat2Z.id, firstn_all.
    assert (E2 : (Z.of_nat (List.length c) <=? 0) = false)
      by (apply Z.leb_gt; lia).
    rewrite E2.
    destruct fuel as [|fuel]; [lia|].
    rewrite IH.
    + simpl. rewrite <- app_assoc. reflexivity.
    + intros c' Hc'. apply Hne. right. exact Hc'.
    + lia.
    + rewrite length_app. lia.
Qed.

Lemma last_jpeg_nil : last_jpeg [] (Z.of_nat (List.length (@nil Z))) = None.
Proof. reflexivity. Qed.

(** Below the capacity of the read buffer, [drain] is extraction from
    the buffered bytes followed by all the bytes of the pipe. *)
Lemma drain_small :
  forall inp p now,
    no_empty_chunk p ->
    read_used inp + Z.of_nat (pipe_bytes p) < READ_BUF_SIZE ->
    drain inp p now =
    (extract_from inp (read_buf inp ++ List.concat p) now, []).
Proof.
  intros inp p now Hne Hlen. unfold drain, read_used in *.
  rewrite (fill_small p _ _ Hne (Nat.le_refl _) Hlen).
  unfold extract_from.
  set (B := read_buf inp ++ List.concat p).
  destruct (Z.of_nat (List.length B) =? 0) eqn:E0.
  - apply Z.eqb_eq in E0.
    assert (HB : B = []) by (destruct B; [reflexivity|simpl in E0; lia]).
    rewrite HB. rewrite last_jpeg_nil. reflexivity.
  - pose proof (last_jpeg_spec B (Z.of_nat (List.length B))) as Hspec.
    destruct (last_jpeg B (Z.of_nat (List.length B))) as [[off flen]|];
      [|reflexivity].
    simpl in Hspec. destruct Hspec as ((Hoff & H4 & Hin & _) & _).
    assert (Hpos : (0 <? flen) = true) by (apply Z.ltb_lt; lia).
    rewrite Hpos.
    destruct (off + flen <? Z.of_nat (List.length B)) eqn:Ec;
      [reflexivity|].
    apply Z.ltb_ge in Ec.
    assert (Hall : skipn (Z.to_nat (off + flen)) B = [])
      by (apply skipn_all2; lia).
    rewrite Hall. reflexivity.
Qed.

(** X4: when the bytes already buffered and the bytes in the pipe stay
    below the capacity of the read buffer, [drain] empties the pipe and
    does what extraction from the concatenation of the two does: the
    result does not depend on how the bytes are cut into reads, the
    bytes behind the extracted frame are kept, and without a fitting
    frame all bytes are kept and the frame cache is untouched. *)
Theorem drain_extracts_from_all_bytes :
  forall inp p now,
    no_empty_chunk p ->
    read_used inp + Z.of_nat (pipe_bytes p) < READ_BUF_SIZE ->
    drain inp p now =
    (extract_from inp (read_buf inp ++ List.concat p) now, []).
Proof. exact drain_small. Qed.

Lemma drain_extracts_from_all_bytes_witness :
  drain zero_input [[0xFF; 0xD8; 1]; [0xFF]; [0xD9; 0xFF; 0xD8]]
    (at_time 3 0) =
  (extract_from zero_input
     (read_buf zero_input ++
      List.concat [[0xFF; 0xD8; 1]; [0xFF]; [0xD9; 0xFF; 0xD8]])
     (at_time 3 0), []).
Proof.
  apply (drain_extracts_from_all_bytes zero_input
           [[0xFF; 0xD8; 1]; [0xFF]; [0xD9; 0xFF; 0xD8]] (at_time 3 0)).
  - intros c [H|[H|[H|H]]]; try (subst c; discriminate); contradiction.
  - unfold read_used, READ_BUF_SIZE. simpl. lia.
Defined.

(** *** A frame that arrives in pieces *)

Lemma same_bytes_prefix P S :
  same_bytes P (P ++ S) (Z.of_nat (List.length P)).
Proof.
  intros i Hi. unfold byte_at. symmetry. apply app_nth1. lia.
Qed.

Lemma one_frame_whole F :
  one_frame F -> Z.of_nat (List.length F) <= MAX_FRAME_SIZE ->
  last_jpeg F (Z.of_nat (List.length F)) = Some (0, Z.of_nat (List.length F)).
Proof.
  intros HF Hmax. apply last_jpeg_eq. simpl.
  split; [exact HF|]. split; [exact Hmax|].
  intros p l Hp _.
  destruct (Z_le_gt_dec p 0) as [H|H]; [exact H|exfalso].
  assert (H' : 0 < p) by lia.
  pose proof (frame_at_disjoint _ _ _ _ _ _ HF Hp H').
  destruct Hp as (_ & H4 & Hin & _). lia.
Qed.

Lemma one_frame_part F P S :
  one_frame F -> F = P ++ S -> S <> [] ->
  last_jpeg P (Z.of_nat (List.length P)) = None.
Proof.
  intros HF HPS HS. apply last_jpeg_eq. simpl.
  intros p l Hp. exfalso.
  assert (Hlen : Z.of_nat (List.length P) < Z.of_nat (List.length F)).
  { rewrite HPS, length_app. destruct S; [contradiction|simpl; lia]. }
  assert (Hp' : frame_at F (Z.of_nat (List.length F)) p l).
  { apply (frame_at_grow F (Z.of_nat (List.length P))); [lia|].
    rewrite HPS.
    apply (frame_at_agree_1 P (P ++ S)); [apply same_bytes_prefix|exact Hp]. }
  destruct (Z_le_gt_dec p 0) as [H|H].
  - assert (p = 0) by (destruct Hp as (H0 & _); lia). subst p.
    pose proof (frame_at_length_unique _ _ _ _ _ Hp' HF).
    destruct Hp as (_ & _ & Hin & _). lia.
  - assert (H' : 0 < p) by lia.
    pose proof (frame_at_disjoint _ _ _ _ _ _ HF Hp' H').
    destruct Hp as (_ & H4 & Hin & _). lia.
Qed.

Lemma frame_bound_below_capacity n :
  n <= MAX_FRAME_SIZE -> n < READ_BUF_SIZE.
Proof. unfold MAX_FRAME_SIZE, READ_BUF_SIZE. lia. Qed.

Lemma drains_idle steps :
  forall inp,
    read_buf inp = [] ->
    (forall s, In s steps -> fst s = []) ->
    frame (drains inp steps) = frame inp /\
    frame_size (drains inp steps) = frame_size inp /\
    frame_time (drains inp steps) = frame_time inp /\
    read_buf (drains inp steps) = [].
Proof.
  induction steps as [|[p now] rest IH]; intros inp Hb Hall; simpl.
  - repeat split; try reflexivity. exact Hb.
  - assert (Hp : p = []) by (apply (Hall (p, now)); left; reflexivity).
    subst p.
    rewrite drain_small.
    + unfold extract_from. rewrite Hb.
      change ([] ++ List.concat (@nil (list Z))) with (@nil Z).
      rewrite last_jpeg_nil. simpl.
      destruct (IH {| read_buf := []; frame := frame inp;
                      frame_size := frame_size inp;
                      frame_time := frame_time inp |}) as (H1 & H2 & H3 & H4).
      * reflexivity.
      * intros s Hs. apply Hall. right. exact Hs.
      * simpl in *. repeat split; assumption.
    + intros c Hc. destruct Hc.
    + unfold read_used. rewrite Hb. simpl. unfold READ_BUF_SIZE. lia.
Qed.

Lemma offered_cons p now rest :
  offered ((p, now) :: rest) = List.concat p ++ offered rest.
Proof. reflexivity. Qed.

Lemma offered_app s1 s2 : offered (s1 ++ s2) = offered s1 ++ offered s2.
Proof.
  unfold offered. rewrite map_app, concat_app. reflexivity.
Qed.

Lemma offered_nil_pipes steps :
  (forall s, In s steps -> no_empty_chunk (fst s)) ->
  offered steps = [] ->
  forall s, In s steps -> fst s = [].
Proof.
  induction steps as [|[p now] rest IH]; intros Hne Hoff s Hs;
    [destruct Hs|].
  rewrite offered_cons in Hoff. apply app_eq_nil in Hoff.
  destruct Hoff as [Hp Hrest].
  destruct Hs as [<- | Hs].
  - simpl. destruct p as [|c p]; [reflexivity|exfalso].
    assert (Hc : c <> []) by (apply (Hne (c :: p, now)); left; reflexivity).
    simpl in Hp. apply app_eq_nil in Hp. destruct Hp as [Hc0 _].
    contradiction.
  - apply IH; [|exact Hrest|exact Hs].
    intros s' Hs'. apply Hne. right. exact Hs'.
Qed.

(** While the buffered bytes are a proper part of a frame, nothing is
    extracted and every byte is kept. *)
Lemma feed_part F :
  one_frame F -> Z.of_nat (List.length F) <= MAX_FRAME_SIZE ->
  forall steps inp S,
    (forall s, In s steps -> no_empty_chunk (fst s)) ->
    F = (read_buf inp ++ offered steps) ++ S -> S <> [] ->
    frame (drains inp steps) = frame inp /\
    frame_size (drains inp steps) = frame_size inp /\
    frame_time (drains inp steps) = frame_time inp /\
    read_buf (drains inp steps) = read_buf inp ++ offered steps.
Proof.
  intros HF Hmax.
  induction steps as [|[p now] rest IH]; intros inp S Hne HFeq HS.
  - simpl. rewrite app_nil_r. repeat split; reflexivity.
  - simpl drains. rewrite offered_cons in *.
    assert (Hlen : Z.of_nat (List.length F) < READ_BUF_SIZE)
      by (apply frame_bound_below_capacity; exact Hmax).
    assert (HFl : List.length F =
                  (List.length (read_buf inp) + List.length (List.concat p) +
                   List.length (offered rest) + List.length S)%nat).
    { rewrite HFeq. rewrite !length_app. lia. }
    rewrite drain_small.
    2:{ apply (Hne (p, now)). left. reflexivity. }
    2:{ unfold read_used. rewrite pipe_bytes_concat. lia. }
    unfold extract_from.
    rewrite (one_frame_part F (read_buf inp ++ List.concat p)
               (offered rest ++ S) HF).
    + simpl fst.
      destruct (IH {| read_buf := read_buf inp ++ List.concat p;
                      frame := frame inp; frame_size := frame_size inp;
                      frame_time := frame_time inp |} S)
        as (H1 & H2 & H3 & H4).
      * intros s Hs. apply Hne. right. exact Hs.
      * simpl. rewrite HFeq. rewrite <- !app_assoc. reflexivity.
      * exact HS.
      * simpl in *. rewrite H4. rewrite <- app_assoc.
        repeat split; assumption.
    + rewrite HFeq. rewrite <- !app_assoc. reflexivity.
    + intros H. apply app_eq_nil in H. destruct H as [_ H]. contradiction.
Qed.

(** Once the last byte of the frame has arrived, the frame is in the
    cache and the read buffer is empty. *)
Lemma feed_whole F :
  one_frame F -> Z.of_nat (List.length F) <= MAX_FRAME_SIZE ->
  forall steps inp,
    (forall s, In s steps -> no_empty_chunk (fst s)) ->
    read_buf inp ++ offered steps = F ->
    (List.length (read_buf inp) < List.length F)%nat ->
    frame (drains inp steps) = F /\
    frame_size (drains inp steps) = Z.of_nat (List.length F) /\
    read_buf (drains inp steps) = [].
Proof.
  intros HF Hmax.
  induction steps as [|[p now] rest IH]; intros inp Hne HFeq Hshort.
  - simpl in HFeq. rewrite app_nil_r in HFeq. rewrite HFeq in Hshort. lia.
  - simpl drains. rewrite offered_cons in HFeq.
    assert (Hlen : Z.of_nat (List.length F) < READ_BUF_SIZE)
      by (apply frame_bound_below_capacity; exact Hmax).
    assert (HFl : List.length F =
                  (List.length (read_buf inp) + List.length (List.concat p) +
                   List.length (offered rest))%nat).
    { rewrite <- HFeq. rewrite !length_app. lia. }
    rewrite drain_small.
    2:{ apply (Hne (p, now)). left. reflexivity. }
    2:{ unfold read_used. rewrite pipe_bytes_concat. lia. }
    simpl fst. unfold extract_from.
    destruct (offered rest) as [|b tail] eqn:Erest.
    + rewrite app_nil_r in HFeq. rewrite HFeq.
      rewrite (one_frame_whole F HF Hmax).
      rewrite Z.add_0_l, Nat2Z.id. change (Z.to_nat 0) with 0%nat.
      rewrite skipn_0, firstn_all, skipn_all.
      destruct (drains_idle rest
                  {| read_buf := []; frame := F;
                     frame_size := Z.of_nat (List.length F);
                     frame_time := now |}) as (H1 & H2 & _ & H4).
      * reflexivity.
      * apply offered_nil_pipes; [|exact Erest].
        intros s Hs. apply Hne. right. exact Hs.
      * rewrite H1, H2, H4. repeat split; reflexivity.
    + rewrite (one_frame_part F (read_buf inp ++ List.concat p) (b :: tail) HF).
      * apply IH.
        -- intros s Hs. apply Hne. right. exact Hs.
        -- cbn [read_buf]. rewrite <- app_assoc. exact HFeq.
        -- cbn [read_buf]. rewrite length_app. simpl in HFl. lia.
      * rewrite <- HFeq. rewrite <- app_assoc. reflexivity.
      * discriminate.
Qed.

(** X5: a complete frame of at most [MAX_FRAME_SIZE] bytes that reaches
    an input with an empty read buffer in pieces, over any number of
    [drain] calls and reads, is extracted whole: while bytes of it are
    still missing the frame cache is untouched and the bytes received
    wait in the read buffer; once its last byte has arrived the cache
    holds exactly the frame and the read buffer is empty. *)
Theorem frame_in_pieces_is_extracted_whole :
  forall F steps1 steps2 inp,
    read_buf inp = [] ->
    one_frame F ->
    Z.of_nat (List.length F) <= MAX_FRAME_SIZE ->
    (forall s, In s (steps1 ++ steps2) -> no_empty_chunk (fst s)) ->
    offered (steps1 ++ steps2) = F ->
    offered steps2 <> [] ->
    (frame (drains inp steps1) = frame inp /\
     frame_size (drains inp steps1) = frame_size inp /\
     frame_time (drains inp steps1) = frame_time inp /\
     read_buf (drains inp steps1) = offered steps1) /\
    (frame (drains inp (steps1 ++ steps2)) = F /\
     frame_size (drains inp (steps1 ++ steps2)) = Z.of_nat (List.length F) /\
     read_buf (drains inp (steps1 ++ steps2)) = []).
Proof.
  intros F steps1 steps2 inp Hb HF Hmax Hne Hoff H2.
  split.
  - destruct (feed_part F HF Hmax steps1 inp (offered steps2))
      as (A1 & A2 & A3 & A4).
    + intros s Hs. apply Hne. apply in_or_app. left. exact Hs.
    + rewrite Hb. simpl. rewrite <- offered_app. symmetry. exact Hoff.
    + exact H2.
    + rewrite Hb in A4. simpl in A4. repeat split; assumption.
  - apply (feed_whole F HF Hmax).
    + exact Hne.
    + rewrite Hb. exact Hoff.
    + rewrite Hb. simpl.
      destruct F; [|simpl; lia].
      rewrite offered_app in Hoff. apply app_eq_nil in Hoff.
      destruct Hoff as [_ Hoff]. contradiction.
Qed.

Lemma frame_in_pieces_is_extracted_whole_witness :
  frame
    (drains zero_input
       ([([[0xFF; 0xD8]], at_time 1 0)] ++
        [([[1]; [0xFF]], at_time 2 0); ([[0xD9]], at_time 3 0)])) =
  [0xFF; 0xD8; 1; 0xFF; 0xD9].
Proof.
  destruct (frame_in_pieces_is_extracted_whole
              [0xFF; 0xD8; 1; 0xFF; 0xD9]
              [([[0xFF; 0xD8]], at_time 1 0)]
              [([[1]; [0xFF]], at_time 2 0); ([[0xD9]], at_time 3 0)]
              zero_input) as (_ & H & _).
  - reflexivity.
  - pose proof (last_jpeg_spec [0xFF; 0xD8; 1; 0xFF; 0xD9] 5) as H.
    change (last_jpeg [0xFF; 0xD8; 1; 0xFF; 0xD9] 5) with (Some (0, 5)) in H.
    exact (proj1 H).
  - unfold MAX_FRAME_SIZE. simpl. lia.
  - intros s [Hs|[Hs|[Hs|Hs]]]; try contradiction; subst s;
      intros c Hc; simpl in Hc;
      repeat (destruct Hc as [Hc|Hc]; [subst c; discriminate|]);
      contradiction.
  - reflexivity.
  - discriminate.
  - exact H.
Defined.

(** *** The frame cache *)

Lemma byte_at_region B off flen i :
  0 <= off -> 0 <= i < flen ->
  byte_at (firstn (Z.to_nat flen) (skipn (Z.to_nat off) B)) i =
  byte_at B (off + i).
Proof.
  intros Hoff Hi. unfold byte_at.
  rewrite nth_firstn.
  assert (E : (Z.to_nat i <? Z.to_nat flen)%nat = true)
    by (apply Nat.ltb_lt; lia).
  rewrite E, nth_skipn. f_equal. lia.
Qed.

(** The bytes of a frame of a buffer, taken out of it, are one frame. *)
Lemma region_is_one_frame B n off flen :
  n <= Z.of_nat (List.length B) ->
  frame_at B n off flen ->
  one_frame (firstn (Z.to_nat flen) (skipn (Z.to_nat off) B)) /\
  Z.of_nat (List.length (firstn (Z.to_nat flen) (skipn (Z.to_nat off) B))) =
  flen.
Proof.
  intros Hn (Hoff & H4 & Hin & Hs & He & Hno & _).
  assert (Hlen : Z.of_nat (List.length
                   (firstn (Z.to_nat flen) (skipn (Z.to_nat off) B))) = flen).
  { rewrite length_firstn, length_skipn. lia. }
  split; [|exact Hlen].
  unfold one_frame. rewrite Hlen. unfold frame_at.
  split; [lia|]. split; [exact H4|]. split; [lia|].
  split.
  { destruct Hs as [S1 S2]. split.
    - rewrite byte_at_region by lia. rewrite Z.add_0_r. exact S1.
    - rewrite byte_at_region by lia. exact S2. }
  split.
  { destruct He as [E1 E2]. split.
    - rewrite byte_at_region by lia.
      replace (off + (0 + flen - 2)) with (off + flen - 2) by lia. exact E1.
    - rewrite byte_at_region by lia.
      replace (off + (0 + flen - 2 + 1)) with (off + flen - 2 + 1) by lia.
      exact E2. }
  split.
  - intros e Hr [E1 E2]. apply (Hno (off + e)); [lia|].
    split.
    + rewrite byte_at_region in E1 by lia. exact E1.
    + rewrite byte_at_region in E2 by lia.
      replace (off + e + 1) with (off + (e + 1)) by lia. exact E2.
  - intros q Hq. lia.
Qed.

Lemma drain_keeps_cache_ok inp p now :
  read_used inp <= READ_BUF_SIZE ->
  cache_ok inp -> cache_ok (fst (drain inp p now)).
Proof.
  intros Hused Hok. unfold drain.
  destruct (fill_spec (pipe_bytes p) (read_buf inp) p Hused (Nat.le_refl _))
    as (buf & p' & added & Hfill & Hlen & _).
  rewrite Hfill.
  destruct (Z.of_nat (List.length buf) =? 0); [exact Hok|].
  pose proof (last_jpeg_spec buf (Z.of_nat (List.length buf))) as Hspec.
  destruct (last_jpeg buf (Z.of_nat (List.length buf))) as [[off flen]|];
    [|exact Hok].
  simpl in Hspec. destruct Hspec as (Hf & Hfit & _).
  assert (Hpos : (0 <? flen) = true)
    by (apply Z.ltb_lt; destruct Hf as (_ & H4 & _); lia).
  rewrite Hpos.
  destruct (region_is_one_frame buf _ off flen (Z.le_refl _) Hf) as (H1 & H2).
  right. simpl. split; [exact H1|]. split; [symmetry; exact H2|exact Hfit].
Qed.

(** X6: the frame cache of an input is always empty or one complete
    frame: over any run of [drain] calls, a cache that is empty
    ([frame_size] 0) or holds [frame_size] bytes that begin with the
    start marker, end with the first end marker after it and number at
    most [MAX_FRAME_SIZE] stays that way.  A frame is replaced whole,
    never in part. *)
Theorem frame_cache_always_holds_one_frame :
  forall steps inp,
    read_used inp <= READ_BUF_SIZE ->
    cache_ok inp ->
    cache_ok (drains inp steps).
Proof.
  induction steps as [|[p now] rest IH]; intros inp Hu Hc; simpl.
  - exact Hc.
  - apply IH.
    + apply (drain_spec inp p now Hu).
    + apply drain_keeps_cache_ok; assumption.
Qed.

Lemma frame_cache_always_holds_one_frame_witness :
  cache_ok
    (drains zero_input
       [([[7; 0xFF; 0xD8; 1]; [0xFF; 0xD9; 0xFF]], at_time 1 0);
        ([[0xD8; 0xFF; 0xD9; 5]], at_time 2 0)]).
Proof.
  apply (frame_cache_always_holds_one_frame
           [([[7; 0xFF; 0xD8; 1]; [0xFF; 0xD9; 0xFF]], at_time 1 0);
            ([[0xD8; 0xFF; 0xD9; 5]], at_time 2 0)] zero_input).
  - unfold read_used, READ_BUF_SIZE. simpl. lia.
  - left. reflexivity.
Defined.

(** *** One input among several *)

Lemma nth_set_nth_same l : forall i inp d,
  (i < List.length l)%nat -> nth i (set_nth l i inp) d = inp.
Proof.
  induction l as [|x l IH]; intros i inp d Hi; simpl in Hi; [lia|].
  destruct i as [|i]; simpl; [reflexivity|]. apply IH. lia.
Qed.

Lemma nth_set_nth_other l : forall i j inp d,
  i <> j -> nth j (set_nth l i inp) d = nth j l d.
Proof.
  induction l as [|x l IH]; intros i j inp d Hij; [reflexivity|].
  destruct i as [|i], j as [|j]; simpl; try reflexivity; try lia.
  apply IH. lia.
Qed.

Lemma set_nth_length l : forall i inp,
  List.length (set_nth l i inp) = List.length l.
Proof.
  induction l as [|x l IH]; intros i inp; [reflexivity|].
  destruct i; simpl; [reflexivity|]. rewrite IH. reflexivity.
Qed.

Lemma set_nth_beyond l : forall i inp,
  (List.length l <= i)%nat -> set_nth l i inp = l.
Proof.
  induction l as [|x l IH]; intros i inp Hi; [reflexivity|].
  destruct i as [|i]; simpl in *; [lia|]. rewrite IH by lia. reflexivity.
Qed.

(** Draining input [i] in the main loop changes input [i] as [drain]
    says and nothing else. *)
Lemma drain_ready_touches_one_input :
  forall st i p now,
    0 <= i < Z.of_nat (List.length (inputs st)) ->
    input_at (drain_ready st (i, p, now)) i =
      fst (drain (input_at st i) p now) /\
    (forall j, 0 <= j -> j <> i ->
               input_at (drain_ready st (i, p, now)) j = input_at st j) /\
    List.length (inputs (drain_ready st (i, p, now))) =
      List.length (inputs st) /\
    num_inputs (drain_ready st (i, p, now)) = num_inputs st /\
    mode (drain_ready st (i, p, now)) = mode st /\
    selected (drain_ready st (i, p, now)) = selected st /\
    testcard (drain_ready st (i, p, now)) = testcard st /\
    testcard_size (drain_ready st (i, p, now)) = testcard_size st /\
    timeout_ms (drain_ready st (i, p, now)) = timeout_ms st.
Proof.
  intros st i p now Hi. unfold drain_ready, set_input, input_at. simpl.
  split; [apply nth_set_nth_same; lia|].
  split.
  { intros j Hj Hne. apply nth_set_nth_other. lia. }
  split; [apply set_nth_length|].
  repeat split; reflexivity.
Qed.

(** *** What stays in the read buffer *)

Lemma byte_at_skipn B c i :
  0 <= c -> 0 <= i ->
  byte_at (skipn (Z.to_nat c) B) i = byte_at B (c + i).
Proof.
  intros Hc Hi. unfold byte_at. rewrite nth_skipn. f_equal. lia.
Qed.

(** A frame of the bytes from [c] on is a frame of the whole buffer,
    when [c] is not inside an open region. *)
Lemma frame_at_shift B n c p l :
  0 <= c -> closed_before B c ->
  frame_at (skipn (Z.to_nat c) B) (n - c) p l ->
  frame_at B n (c + p) l.
Proof.
  intros Hc Hcl (Hp & Hl & Hin & Hs & He & Hno & Hcb).
  assert (Hsoi : forall q, 0 <= q ->
             (soi_at (skipn (Z.to_nat c) B) q <-> soi_at B (c + q))).
  { intros q Hq. unfold soi_at. rewrite !byte_at_skipn by lia.
    replace (c + (q + 1)) with (c + q + 1) by lia. reflexivity. }
  assert (Heoi : forall q, 0 <= q ->
             (eoi_at (skipn (Z.to_nat c) B) q <-> eoi_at B (c + q))).
  { intros q Hq. unfold eoi_at. rewrite !byte_at_skipn by lia.
    replace (c + (q + 1)) with (c + q + 1) by lia. reflexivity. }
  split; [lia|]. split; [exact Hl|]. split; [lia|].
  split; [apply Hsoi; [lia|exact Hs]|].
  split.
  { replace (c + p + l - 2) with (c + (p + l - 2)) by lia.
    apply Heoi; [lia|exact He]. }
  split.
  - intros e Hr He'. apply (Hno (e - c)); [lia|].
    apply Heoi; [lia|]. replace (c + (e - c)) with e by lia. exact He'.
  - intros q Hq Hsq.
    destruct (Z_lt_le_dec q c) as [Hlt|Hge].
    + destruct (Hcl q) as (e & H1 & H2 & H3); [lia|exact Hsq|].
      exists e. split; [lia|]. split; [lia|exact H3].
    + destruct (Hcb (q - c)) as (e & H1 & H2 & H3).
      * lia.
      * apply Hsoi; [lia|]. replace (c + (q - c)) with q by lia. exact Hsq.
      * exists (c + e). split; [lia|]. split; [lia|].
        apply Heoi; [lia|exact H3].
Qed.

Lemma leftover_has_no_fitting_frame B off flen :
  last_jpeg B (Z.of_nat (List.length B)) = Some (off, flen) ->
  last_jpeg (skipn (Z.to_nat (off + flen)) B)
    (Z.of_nat (List.length (skipn (Z.to_nat (off + flen)) B))) = None.
Proof.
  intros H. pose proof (last_jpeg_spec B (Z.of_nat (List.length B))) as Hs.
  rewrite H in Hs. simpl in Hs. destruct Hs as (Hf & Hfit & Hlast).
  apply last_jpeg_eq. simpl. intros p l Hp.
  destruct (Z_lt_le_dec MAX_FRAME_SIZE l) as [Hbig|Hsmall]; [exact Hbig|].
  exfalso.
  assert (Hb : 0 <= off /\ 4 <= flen /\
               off + flen <= Z.of_nat (List.length B))
    by (destruct Hf as (A & B0 & C & _); repeat split; assumption).
  assert (Hcl : closed_before B (off + flen)).
  { destruct Hf as (_ & _ & _ & Hso & He & _ & Hc).
    replace (off + flen) with (off + flen - 2 + 2) by lia.
    apply (closed_before_jump B off); [exact Hc|exact Hso|lia|exact He]. }
  rewrite length_skipn in Hp.
  replace (Z.of_nat (List.length B - Z.to_nat (off + flen)))
    with (Z.of_nat (List.length B) - (off + flen)) in Hp by lia.
  pose proof (frame_at_shift B _ (off + flen) p l ltac:(lia) Hcl Hp) as Hp'.
  pose proof (Hlast _ _ Hp' Hsmall) as Hle.
  destruct Hp as (Hp0 & _). lia.
Qed.

Lemma drain_leftover inp p now :
  read_used inp <= READ_BUF_SIZE ->
  last_jpeg (read_buf (fst (drain inp p now)))
    (read_used (fst (drain inp p now))) = None.
Proof.
  intros Hused. unfold drain, read_used.
  destruct (fill_spec (pipe_bytes p) (read_buf inp) p Hused (Nat.le_refl _))
    as (buf & p' & added & Hfill & Hlen & _).
  rewrite Hfill.
  destruct (Z.of_nat (List.length buf) =? 0) eqn:E0.
  { apply Z.eqb_eq in E0. cbn [fst read_buf].
    assert (HB : buf = []) by (destruct buf; [reflexivity|simpl in E0; lia]).
    rewrite HB. apply last_jpeg_nil. }
  destruct (last_jpeg buf (Z.of_nat (List.length buf))) as [[off flen]|] eqn:El;
    [|cbn [fst read_buf]; exact El].
  pose proof (last_jpeg_spec buf (Z.of_nat (List.length buf))) as Hspec.
  rewrite El in Hspec. simpl in Hspec.
  destruct Hspec as ((Hoff & H4 & Hin & _) & _).
  assert (Hpos : (0 <? flen) = true) by (apply Z.ltb_lt; lia).
  rewrite Hpos. cbn [fst read_buf].
  destruct (off + flen <? Z.of_nat (List.length buf)).
  - apply leftover_has_no_fitting_frame. exact El.
  - apply last_jpeg_nil.
Qed.

(** X7: no frame is extracted twice.  What [drain] leaves in the read
    buffer holds no complete frame that fits [MAX_FRAME_SIZE], so
    [last_jpeg] finds nothing in it; and unless the buffer is full, a
    further [drain] that reads no bytes changes nothing, the time stamp
    of the cached frame included. *)
Theorem drain_never_extracts_a_frame_twice :
  forall inp p now,
    read_used inp <= READ_BUF_SIZE ->
    last_jpeg (read_buf (fst (drain inp p now)))
      (read_used (fst (drain inp p now))) = None /\
    (read_used (fst (drain inp p now)) < READ_BUF_SIZE ->
     forall later,
       drain (fst (drain inp p now)) [] later = (fst (drain inp p now), [])).
Proof.
  intros inp p now Hused.
  pose proof (drain_leftover inp p now Hused) as Hnone.
  split; [exact Hnone|].
  intros Hlt later.
  rewrite drain_small.
  - unfold extract_from. simpl List.concat. rewrite app_nil_r.
    unfold read_used in Hnone. rewrite Hnone.
    destruct (fst (drain inp p now)). reflexivity.
  - intros c Hc. destruct Hc.
  - simpl. lia.
Qed.

Lemma drain_never_extracts_a_frame_twice_witness :
  last_jpeg
    (read_buf
       (fst (drain zero_input
               [[0xFF; 0xD8; 0xFF; 0xD9; 0xFF; 0xD8; 1]] (at_time 1 0))))
    (read_used
       (fst (drain zero_input
               [[0xFF; 0xD8; 0xFF; 0xD9; 0xFF; 0xD8; 1]] (at_time 1 0)))) =
  None.
Proof.
  destruct (drain_never_extracts_a_frame_twice zero_input
              [[0xFF; 0xD8; 0xFF; 0xD9; 0xFF; 0xD8; 1]] (at_time 1 0))
    as (H & _).
  - unfold read_used, READ_BUF_SIZE. simpl. lia.
  - exact H.
Defined.

End InputProps.

(** ** More on frame selection *)

Module SelectionProps.

Import Selection.

(** [elapsed_ms] is the difference of the two readings in nanoseconds,
    over a million. *)
Lemma elapsed_ms_lt a b t :
  (elapsed_ms a b < inject_Z t)%Q <-> nanos b - nanos a < t * 1000000.
Proof.
  unfold elapsed_ms, nanos, Qlt, Qplus, Qmult, Qdiv, Qinv, inject_Z.
  simpl. lia.
Qed.

Lemma recent_nanos st inp now :
  recent st inp now = true <->
  0 < frame_size inp /\
  nanos now - nanos (frame_time inp) < timeout_ms st * 1000000.
Proof.
  unfold recent. rewrite andb_true_iff, Z.ltb_lt, Qltb_true, elapsed_ms_lt.
  reflexivity.
Qed.

(** X9: whatever the mode, a pointer returned by [choose_frame] comes
    with a positive length and is either the frame of an input whose
    index is at least 0 and below [num_inputs] and whose cached frame
    is recent, with that frame's size, or the loaded test card with its
    size.  In [MODE_TESTCARD] it is never an input's frame, and in
    [MODE_SOURCE] with a valid selected index it is never the frame of
    another input. *)
Theorem choose_frame_returns_live_frames_only :
  forall st now ptr n,
    choose_frame st now = Some (ptr, n) ->
    0 < n /\
    match ptr with
    | InputFrame i =>
        0 <= i < num_inputs st /\
        recent st (input_at st i) now = true /\
        n = frame_size (input_at st i) /\
        mode st <> MODE_TESTCARD /\
        (mode st = MODE_SOURCE -> 0 <= selected st < num_inputs st ->
         i = selected st)
    | TestcardFrame => testcard st <> None /\ n = testcard_size st
    end.
Proof.
  intros st now ptr n H.
  assert (Hcard : forall q m,
             use_testcard st = Some (q, m) ->
             0 < m /\ q = TestcardFrame /\ testcard st <> None /\
             m = testcard_size st).
  { intros q m Hq. unfold use_testcard in Hq.
    destruct (testcard st) eqn:Et; [|discriminate Hq].
    destruct (0 <? testcard_size st) eqn:Es; [|discriminate Hq].
    inversion Hq; subst. apply Z.ltb_lt in Es.
    split; [exact Es|]. split; [reflexivity|]. split; [discriminate|reflexivity]. }
  assert (Hin : forall i,
             recent st (input_at st i) now = true ->
             0 < frame_size (input_at st i)).
  { intros i Hr. apply recent_nanos in Hr. apply Hr. }
  assert (Hauto : mode st <> MODE_TESTCARD ->
                  (mode st = MODE_SOURCE ->
                   ~ (0 <= selected st < num_inputs st)) ->
                  match auto_scan st now (Z.to_nat (num_inputs st)) with
                  | Some r => Some r
                  | None => use_testcard st
                  end = Some (ptr, n) ->
                  0 < n /\
                  match ptr with
                  | InputFrame i =>
                      0 <= i < num_inputs st /\
                      recent st (input_at st i) now = true /\
                      n = frame_size (input_at st i) /\
                      mode st <> MODE_TESTCARD /\
                      (mode st = MODE_SOURCE ->
                       0 <= selected st < num_inputs st -> i = selected st)
                  | TestcardFrame =>
                      testcard st <> None /\ n = testcard_size st
                  end).
  { intros Hm Hsel Ha.
    destruct (auto_scan st now (Z.to_nat (num_inputs st))) as [r|] eqn:E.
    - destruct (auto_scan_sound _ _ _ _ E) as (i & Hi & Hr & Hrec).
      subst r. inversion Ha; subst.
      split; [apply Hin; exact Hrec|].
      split; [lia|]. split; [exact Hrec|]. split; [reflexivity|].
      split; [exact Hm|]. intros H1 H2. exfalso. exact (Hsel H1 H2).
    - destruct (Hcard _ _ Ha) as (H1 & -> & H3 & H4).
      split; [exact H1|]. split; assumption. }
  unfold choose_frame in H.
  destruct (mode st) eqn:Em.
  - apply Hauto; [discriminate|discriminate|exact H].
  - simpl in H.
    destruct ((0 <=? selected st) && (selected st <? num_inputs st)) eqn:Er.
    + apply andb_true_iff in Er. destruct Er as [E1 E2].
      apply Z.leb_le in E1. apply Z.ltb_lt in E2.
      destruct (recent st (input_at st (selected st)) now) eqn:Erec.
      * inversion H; subst.
        split; [apply Hin; exact Erec|].
        split; [lia|]. split; [exact Erec|]. split; [reflexivity|].
        split; [discriminate|]. intros _ _. reflexivity.
      * destruct (Hcard _ _ H) as (H1 & -> & H3 & H4).
        split; [exact H1|]. split; assumption.
    + apply Hauto; [discriminate| |exact H].
      intros _ Hr. apply andb_false_iff in Er.
      destruct Er as [Er|Er];
        [apply Z.leb_gt in Er|apply Z.ltb_ge in Er]; lia.
  - destruct (Hcard _ _ H) as (H1 & -> & H3 & H4).
    split; [exact H1|]. split; assumption.
Qed.

Lemma choose_frame_returns_live_frames_only_witness :
  0 < 8 /\
  0 <= 1 < 3 /\
  recent
    (mux_with (input_with 9 3) (input_with 8 10) (input_with 7 3)
       MODE_AUTO (-1)) (input_with 8 10) (at_time 10 100) = true.
Proof.
  destruct (choose_frame_returns_live_frames_only
              (mux_with (input_with 9 3) (input_with 8 10) (input_with 7 3)
                 MODE_AUTO (-1)) (at_time 10 100) (InputFrame 1) 8 eq_refl)
    as (H1 & H2 & H3 & _).
  split; [exact H1|]. split; [exact H2|exact H3].
Defined.

End SelectionProps.

(** ** More on control lines *)

Module ControlProps.

Import Control.

Lemma set_mode_same st : set_mode st (mode st) (selected st) = st.
Proof. destruct st; reflexivity. Qed.

Lemma set_mode_twice st m s m' s' :
  set_mode (set_mode st m s) m' s' = set_mode st m' s'.
Proof. reflexivity. Qed.

(** What a line does to the state is one of three things, whatever the
    mode and the index were before. *)
Lemma process_ctl_line_uniform st line :
  (forall m s,
      process_ctl_line (set_mode st m s) line = Some (set_mode st m s)) \/
  (exists M S, forall m s,
      process_ctl_line (set_mode st m s) line = Some (set_mode st M S)) \/
  (forall m s, process_ctl_line (set_mode st m s) line = None).
Proof.
  destruct (String.length (trimmed line) =? 0)%nat eqn:E0.
  { left. intros m s. rewrite process_ctl_line_eq, E0. reflexivity. }
  destruct (String.prefix "source " (trimmed line)) eqn:Ep.
  - destruct (atoi (String.substring 7 (String.length (trimmed line) - 7)
                      (trimmed line))) as [n|] eqn:Ea.
    + destruct ((0 <=? n) && (n <? num_inputs st)) eqn:Er.
      * right. left. exists MODE_SOURCE, n. intros m s.
        rewrite process_ctl_line_eq, E0, Ep, Ea. simpl num_inputs.
        rewrite Er. reflexivity.
      * left. intros m s.
        rewrite process_ctl_line_eq, E0, Ep, Ea. simpl num_inputs.
        rewrite Er. reflexivity.
    + right. right. intros m s.
      rewrite process_ctl_line_eq, E0, Ep, Ea. reflexivity.
  - destruct (trimmed line =? "testcard")%string eqn:Et.
    { right. left. exists MODE_TESTCARD, (-1). intros m s.
      rewrite process_ctl_line_eq, E0, Ep, Et. reflexivity. }
    destruct (trimmed line =? "auto")%string eqn:Ea.
    { right. left. exists MODE_AUTO, (-1). intros m s.
      rewrite process_ctl_line_eq, E0, Ep, Et, Ea. reflexivity. }
    left. intros m s.
    rewrite process_ctl_line_eq, E0, Ep, Et, Ea. reflexivity.
Qed.

(** The effect of a control line on the state. *)
Lemma control_line_effect :
  forall st line,
    (forall st', process_ctl_line st line = Some st' ->
                 st' = set_mode st (mode st') (selected st')) /\
    ((forall m s,
         process_ctl_line (set_mode st m s) line = Some (set_mode st m s)) \/
     (exists M S, forall m s,
         process_ctl_line (set_mode st m s) line = Some (set_mode st M S)) \/
     (forall m s, process_ctl_line (set_mode st m s) line = None)) /\
    (forall st', process_ctl_line st line = Some st' ->
                 process_ctl_line st' line = Some st').
Proof.
  intros st line.
  pose proof (process_ctl_line_uniform st line) as Hu.
  assert (Hshape : forall st', process_ctl_line st line = Some st' ->
                               st' = set_mode st (mode st') (selected st')).
  { intros st' H. rewrite <- (set_mode_same st) in H.
    destruct Hu as [Hu|[(M & S & Hu)|Hu]]; rewrite Hu in H;
      inversion H; subst; reflexivity. }
  split; [exact Hshape|]. split; [exact Hu|].
  intros st' H. rewrite (Hshape st' H).
  rewrite <- (set_mode_same st) in H.
  destruct Hu as [Hu|[(M & S & Hu)|Hu]].
  - apply Hu.
  - rewrite Hu in H. inversion H; subst. simpl. apply Hu.
  - rewrite Hu in H. discriminate H.
Qed.

(** X10: a control line can change the mode and the selected index and
    nothing else (inputs, number of inputs, test card and timeout stay).
    What it sets does not depend on the mode and index before it: the
    line either leaves every state as it is, or sends every state to
    the same mode and index, or is undefined for every state.  So the
    last command wins, and a line processed twice does what it does
    once. *)
Theorem control_line_sets_mode_and_index_only :
  forall st line,
    (forall st', process_ctl_line st line = Some st' ->
                 st' = set_mode st (mode st') (selected st')) /\
    ((forall m s,
         process_ctl_line (set_mode st m s) line = Some (set_mode st m s)) \/
     (exists M S, forall m s,
         process_ctl_line (set_mode st m s) line = Some (set_mode st M S)) \/
     (forall m s, process_ctl_line (set_mode st m s) line = None)) /\
    (forall st', process_ctl_line st line = Some st' ->
                 process_ctl_line st' line = Some st').
Proof. exact control_line_effect. Qed.

(** *** Blanks around a command *)

(** X11: spaces and tabs in front of a control line and newlines,
    carriage returns and spaces behind it make no difference to what
    the line does. *)
Theorem control_line_ignores_surrounding_blanks :
  forall st lead s trail,
    all_chars is_lead lead = true ->
    all_chars is_trail trail = true ->
    process_ctl_line st (lead ++ (s ++ trail)) = process_ctl_line st s.
Proof.
  intros st lead s trail Hl Ht.
  rewrite !process_ctl_line_eq.
  rewrite (trimmed_blanks lead s trail Hl Ht). reflexivity.
Qed.

Lemma control_line_ignores_surrounding_blanks_witness :
  process_ctl_line (startup 3 500 None 0)
    ((" " ++ TAB) ++ ("source 1" ++ (" " ++ CR ++ LF))) =
  process_ctl_line (startup 3 500 None 0) "source 1".
Proof.
  apply (control_line_ignores_surrounding_blanks (startup 3 500 None 0)
           (" " ++ TAB) "source 1" (" " ++ CR ++ LF)); reflexivity.
Defined.

(** X12: every input can be selected: for an index [n] from 0 to 9
    that is below [num_inputs], the line [source n] switches to
    [MODE_SOURCE] with [selected = n], whatever the state before. *)
Theorem every_input_can_be_selected :
  forall st n,
    0 <= n < num_inputs st -> n < 10 ->
    process_ctl_line st ("source " ++ digit_string n) =
    Some (set_mode st MODE_SOURCE n).
Proof.
  intros st n Hn H10.
  assert (Hc : In n (map Z.of_nat (seq 0 10))).
  { rewrite <- (Z2Nat.id n) by lia. apply in_map, in_seq. lia. }
  pose proof (in_range_true n (num_inputs st) Hn) as Hr.
  rewrite process_ctl_line_eq.
  cbn in Hc.
  repeat (destruct Hc as [<- | Hc]); try contradiction;
    match goal with
    | |- context [trimmed ?l] =>
        let t := eval vm_compute in (trimmed l) in
        change (trimmed l) with t
    end;
    match goal with
    | |- context [atoi ?a] =>
        let v := eval vm_compute in (atoi a) in
        change (atoi a) with v
    end;
    match goal with
    | |- context [(String.length ?x =? 0)%nat] =>
        change ((String.length x =? 0)%nat) with false
    end;
    match goal with
    | |- context [String.prefix ?a ?b] =>
        change (String.prefix a b) with true
    end;
    cbv iota; rewrite Hr; reflexivity.
Qed.

Lemma every_input_can_be_selected_witness :
  process_ctl_line (startup 8 500 None 0) ("source " ++ digit_string 7) =
  Some (set_mode (startup 8 500 None 0) MODE_SOURCE 7).
Proof.
  apply (every_input_can_be_selected (startup 8 500 None 0) 7).
  - split; [discriminate|reflexivity].
  - lia.
Defined.

End ControlProps.

(** ** The control buffer *)

Module CtlBufferProps.

Import Control ControlProps.

Lemma ctl_size_small x : 0 <= x <= CTL_BUF_SIZE -> size_t x = x.
Proof.
  intros H. apply InputChannel.size_t_small.
  unfold CTL_BUF_SIZE, READ_BUF_SIZE in *. lia.
Qed.

Lemma substring_length s : forall n m,
  (n + m <= String.length s)%nat ->
  String.length (String.substring n m s) = m.
Proof.
  induction s as [|c s IH]; intros n m H; simpl in H.
  - assert (n = 0%nat) by lia. assert (m = 0%nat) by lia. subst. reflexivity.
  - destruct n as [|n].
    + destruct m as [|m]; [reflexivity|].
      simpl. rewrite IH by lia. reflexivity.
    + simpl. apply IH. lia.
Qed.

Lemma substring_split s : forall n,
  (n <= String.length s)%nat ->
  s = (String.substring 0 n s ++
       String.substring n (String.length s - n) s)%string.
Proof.
  induction s as [|c s IH]; intros n H; simpl in H.
  - assert (n = 0%nat) by lia. subst. reflexivity.
  - destruct n as [|n].
    + simpl. rewrite substring_all. reflexivity.
    + simpl. rewrite <- IH by lia. reflexivity.
Qed.

Lemma ctl_bytes_text p : ctl_bytes p = String.length (ctl_text p).
Proof.
  induction p as [|c p IH]; simpl; [reflexivity|].
  rewrite length_append, IH. reflexivity.
Qed.

Lemma fill_ctl_eq fuel buf p :
  fill_ctl fuel buf p =
  let used := Z.of_nat (String.length buf) in
  let space := size_t (CTL_BUF_SIZE - used - 1) in
  let buf1 := if space =? 0 then EmptyString else buf in
  let space1 := if space =? 0 then CTL_BUF_SIZE - 1 else space in
  match read_ctl p space1 with
  | (n, data, p') =>
      if n <=? 0 then Ret (buf1, p')
      else match fuel with
           | O => OutOfFuel
           | S fuel' => fill_ctl fuel' (buf1 ++ data)%string p'
           end
  end.
Proof. destruct fuel; reflexivity. Qed.

(** [read_ctl] hands out at most [space] characters from the front of
    the pipe. *)
Lemma read_ctl_spec p space :
  0 < space ->
  match read_ctl p space with
  | (n, data, p') =>
      ctl_text p = (data ++ ctl_text p')%string /\
      (n <= 0 -> data = EmptyString) /\
      (0 < n ->
       n = Z.of_nat (String.length data) /\ n <= space /\
       ctl_bytes p = (String.length data + ctl_bytes p')%nat)
  end.
Proof.
  intros Hs. destruct p as [|c rest]; simpl.
  - split; [reflexivity|]. split; [reflexivity|lia].
  - destruct (Z.of_nat (String.length c) <=? space) eqn:E.
    + apply Z.leb_le in E.
      rewrite Z.min_l by lia. rewrite Nat2Z.id, substring_all.
      split; [reflexivity|]. split.
      * intros H0. destruct c; [reflexivity|simpl in H0; lia].
      * intros H0. split; [reflexivity|]. split; [lia|reflexivity].
    + apply Z.leb_gt in E.
      rewrite Z.min_r by lia.
      assert (Hlen : String.length (String.substring 0 (Z.to_nat space) c) =
                     Z.to_nat space)
        by (apply substring_length; lia).
      split.
      * simpl. rewrite <- append_assoc.
        rewrite <- (substring_split c (Z.to_nat space)) by lia. reflexivity.
      * split; [lia|]. intros _. split; [lia|]. split; [lia|].
        simpl. rewrite Hlen. rewrite substring_length by lia. lia.
Qed.

(** The read loop ends with at most [CTL_BUF_SIZE - 1] characters in
    the buffer. *)
Lemma fill_ctl_spec fuel :
  forall buf p,
    Z.of_nat (String.length buf) <= CTL_BUF_SIZE - 1 ->
    (ctl_bytes p <= fuel)%nat ->
    exists buf' p',
      fill_ctl fuel buf p = Ret (buf', p') /\
      Z.of_nat (String.length buf') <= CTL_BUF_SIZE - 1.
Proof.
  induction fuel as [|fuel IH]; intros buf p Hle Hfuel; rewrite fill_ctl_eq;
    cbv zeta;
    rewrite ctl_size_small by (unfold CTL_BUF_SIZE in *; lia);
    (destruct (CTL_BUF_SIZE - Z.of_nat (String.length buf) - 1 =? 0) eqn:E0;
     [apply Z.eqb_eq in E0|apply Z.eqb_neq in E0]);
    match goal with
    | |- context [read_ctl p ?sp] =>
        pose proof (read_ctl_spec p sp) as Hr;
        destruct (read_ctl p sp) as [[n data] p']
    end;
    (destruct Hr as (_ & Hneg & Hpos);
     [unfold CTL_BUF_SIZE in *; lia|]);
    destruct (n <=? 0) eqn:En;
    try (apply Z.leb_le in En); try (apply Z.leb_gt in En).
  - exists EmptyString, p'. split; [reflexivity|].
    cbn [String.length]. unfold CTL_BUF_SIZE. lia.
  - destruct (Hpos En) as (Hn & Hsp & Hb). lia.
  - exists buf, p'. split; [reflexivity|exact Hle].
  - destruct (Hpos En) as (Hn & Hsp & Hb). lia.
  - exists EmptyString, p'. split; [reflexivity|].
    cbn [String.length]. unfold CTL_BUF_SIZE. lia.
  - destruct (Hpos En) as (Hn & Hsp & Hb).
    apply IH; [cbn [String.append]; lia|lia].
  - exists buf, p'. split; [reflexivity|exact Hle].
  - destruct (Hpos En) as (Hn & Hsp & Hb).
    apply IH; [rewrite length_append; lia|lia].
Qed.

Lemma ctl_lines_eq fuel st s :
  ctl_lines fuel st s =
  match find_newline s with
  | None => Ret (Some (st, s))
  | Some k =>
      match process_ctl_line st (String.substring 0 k s) with
      | None => Ret None
      | Some st' =>
          match fuel with
          | O => OutOfFuel
          | S fuel' =>
              ctl_lines fuel' st'
                (String.substring (S k) (String.length s - S k) s)
          end
      end
  end.
Proof. destruct fuel; reflexivity. Qed.

Lemma find_newline_lt s : forall k,
  find_newline s = Some k -> (k < String.length s)%nat.
Proof.
  induction s as [|c s IH]; intros k H; simpl in H; [discriminate H|].
  destruct (c =? "000")%char; [discriminate H|].
  destruct (c =? "010")%char; [inversion H; simpl; lia|].
  destruct (find_newline s) as [j|]; [|discriminate H].
  inversion H; subst. simpl. specialize (IH j eq_refl). lia.
Qed.

(** The loop over lines ends; what it leaves is no longer than what it
    started from and holds no complete line, and only the mode and the
    selected index have changed. *)
Lemma ctl_lines_spec fuel :
  forall st s,
    (String.length s <= fuel)%nat ->
    exists r,
      ctl_lines fuel st s = Ret r /\
      match r with
      | None => True
      | Some (st', rest) =>
          (String.length rest <= String.length s)%nat /\
          find_newline rest = None /\
          st' = set_mode st (mode st') (selected st')
      end.
Proof.
  induction fuel as [|fuel IH]; intros st s Hlen; rewrite ctl_lines_eq;
    destruct (find_newline s) as [k|] eqn:Ef.
  - apply find_newline_lt in Ef. lia.
  - exists (Some (st, s)). split; [reflexivity|].
    split; [lia|]. split; [exact Ef|]. symmetry. apply set_mode_same.
  - pose proof (find_newline_lt s k Ef) as Hk.
    destruct (process_ctl_line st (String.substring 0 k s)) as [st1|] eqn:Ep.
    + destruct (IH st1 (String.substring (S k) (String.length s - S k) s))
        as (r & Hr & Hp).
      * rewrite substring_length by lia. lia.
      * exists r. split; [exact Hr|].
        destruct r as [[st' rest]|]; [|exact I].
        destruct Hp as (H1 & H2 & H3).
        rewrite substring_length in H1 by lia.
        split; [lia|]. split; [exact H2|].
        destruct (control_line_effect st
                    (String.substring 0 k s)) as (Hs & _).
        rewrite (Hs st1 Ep) in H3. exact H3.
    + exists None. split; [reflexivity|exact I].
  - exists (Some (st, s)). split; [reflexivity|].
    split; [lia|]. split; [exact Ef|]. symmetry. apply set_mode_same.
Qed.

(** Where [strchr] finds no newline in a text without NUL, the text
    holds no newline at all. *)
Lemma find_newline_none s :
  find_newline s = None -> no_nul s = true ->
  all_chars (fun c => negb (c =? "010")%char) s = true.
Proof.
  unfold no_nul. induction s as [|c s IH]; intros Hf Hn; [reflexivity|].
  simpl in *. apply andb_true_iff in Hn. destruct Hn as [Hc Hs].
  destruct (c =? "000")%char; [discriminate Hc|].
  destruct (c =? "010")%char; [discriminate Hf|].
  simpl. apply IH; [|exact Hs].
  destruct (find_newline s); [discriminate Hf|reflexivity].
Qed.

(** X13: [drain_ctl] always comes to an end.  Unless a line makes
    [atoi] overflow, the text that it keeps in the control buffer has
    at most [CTL_BUF_SIZE - 1] characters (so the terminating NUL
    fits), and [strchr] finds no newline in it: there is no newline
    before its first NUL, and no newline at all when it holds no NUL.
    Of the state only the mode and the selected index can have
    changed. *)
Theorem control_buffer_stays_within_capacity :
  forall st buf p,
    Z.of_nat (String.length buf) <= CTL_BUF_SIZE - 1 ->
    exists r,
      drain_ctl st buf p = Ret r /\
      match r with
      | None => True
      | Some (st', rest, p') =>
          Z.of_nat (String.length rest) <= CTL_BUF_SIZE - 1 /\
          find_newline rest = None /\
          (no_nul rest = true ->
           all_chars (fun c => negb (c =? "010")%char) rest = true) /\
          st' = set_mode st (mode st') (selected st')
      end.
Proof.
  intros st buf p Hle. unfold drain_ctl.
  destruct (fill_ctl_spec (ctl_bytes p) buf p Hle (Nat.le_refl _))
    as (buf1 & p' & Hfill & Hlen).
  rewrite Hfill.
  destruct (ctl_lines_spec (String.length buf1) st buf1 (Nat.le_refl _))
    as (r & Hr & Hp).
  rewrite Hr. destruct r as [[st' rest]|].
  - exists (Some (st', rest, p')). split; [reflexivity|].
    destruct Hp as (H1 & H2 & H3).
    split; [lia|]. split; [exact H2|].
    split; [apply find_newline_none; exact H2|exact H3].
  - exists None. split; [reflexivity|exact I].
Qed.

Lemma control_buffer_stays_within_capacity_witness :
  exists r,
    drain_ctl (startup 3 500 None 0) "sou"
      [("rce 2" ++ LF ++ " au")%string] = Ret r.
Proof.
  destruct (control_buffer_stays_within_capacity (startup 3 500 None 0)
              "sou" [("rce 2" ++ LF ++ " au")%string]) as (r & Hr & _).
  - unfold CTL_BUF_SIZE. simpl. lia.
  - exists r. exact Hr.
Defined.

(** *** Lines that arrive in pieces *)

Lemma no_nul_app a b : no_nul (a ++ b) = no_nul a && no_nul b.
Proof. unfold no_nul. apply all_chars_app. Qed.

(** As long as the buffer does not fill up, the read loop appends all
    the text of the pipe. *)
Lemma fill_ctl_small p :
  forall fuel buf,
    no_empty_text p ->
    (ctl_bytes p <= fuel)%nat ->
    Z.of_nat (String.length buf) + Z.of_nat (ctl_bytes p) < CTL_BUF_SIZE - 1 ->
    fill_ctl fuel buf p = Ret ((buf ++ ctl_text p)%string, []).
Proof.
  induction p as [|c p IH]; intros fuel buf Hne Hfuel Hlen;
    rewrite fill_ctl_eq; cbv zeta;
    rewrite ctl_size_small by (unfold CTL_BUF_SIZE in *; lia);
    (destruct (CTL_BUF_SIZE - Z.of_nat (String.length buf) - 1 =? 0) eqn:E0;
     [apply Z.eqb_eq in E0; lia|]).
  - simpl. rewrite append_empty_r. reflexivity.
  - assert (Hc : c <> EmptyString) by (apply Hne; left; reflexivity).
    assert (Hc1 : (1 <= String.length c)%nat)
      by (destruct c; [contradiction|simpl; lia]).
    change (ctl_bytes (c :: p))
      with (String.length c + ctl_bytes p)%nat in Hlen, Hfuel.
    unfold read_ctl.
    assert (E1 : (Z.of_nat (String.length c) <=?
                  CTL_BUF_SIZE - Z.of_nat (String.length buf) - 1) = true)
      by (apply Z.leb_le; lia).
    rewrite E1. rewrite Z.min_l by lia. rewrite Nat2Z.id, substring_all.
    assert (E2 : (Z.of_nat (String.length c) <=? 0) = false)
      by (apply Z.leb_gt; lia).
    rewrite E2.
    destruct fuel as [|fuel]; [lia|].
    rewrite IH.
    + simpl. rewrite append_assoc. reflexivity.
    + intros c' Hc'. apply Hne. right. exact Hc'.
    + lia.
    + rewrite length_append. lia.
Qed.

(** Where [strchr] stops is where [split_lines] cuts. *)
Lemma find_newline_split s :
  no_nul s = true ->
  match find_newline s with
  | None => split_lines s = ([], s)
  | Some k =>
      split_lines s =
      (String.substring 0 k s ::
       fst (split_lines (String.substring (S k) (String.length s - S k) s)),
       snd (split_lines (String.substring (S k) (String.length s - S k) s)))
      /\ no_nul (String.substring (S k) (String.length s - S k) s) = true
  end.
Proof.
  induction s as [|c s IH]; intros Hn; [reflexivity|].
  unfold no_nul in Hn. simpl in Hn. apply andb_true_iff in Hn.
  destruct Hn as [Hc Hs]. apply negb_true_iff in Hc.
  specialize (IH Hs).
  simpl find_newline. rewrite Hc.
  destruct (c =? "010")%char eqn:El.
  - change (String.substring 1 (String.length (String c s) - 1) (String c s))
      with (String.substring 0 (String.length s - 0) s).
    rewrite Nat.sub_0_r, substring_all.
    split; [|exact Hs].
    simpl. rewrite El. destruct (split_lines s). reflexivity.
  - destruct (find_newline s) as [k|]; simpl option_map.
    + destruct IH as (IH1 & IH2).
      change (String.substring (S (S k))
                (String.length (String c s) - S (S k)) (String c s))
        with (String.substring (S k) (String.length s - S k) s).
      split; [|exact IH2].
      simpl split_lines. rewrite IH1, El. reflexivity.
    + simpl split_lines. rewrite IH, El. reflexivity.
Qed.

(** On text without NUL the loop runs [process_ctl_line] on the
    complete lines in order and keeps the unterminated rest. *)
Lemma ctl_lines_split fuel :
  forall st s,
    no_nul s = true -> (String.length s <= fuel)%nat ->
    ctl_lines fuel st s =
    Ret (match process_ctl_lines st (fst (split_lines s)) with
         | Some st' => Some (st', snd (split_lines s))
         | None => None
         end).
Proof.
  induction fuel as [|fuel IH]; intros st s Hn Hlen; rewrite ctl_lines_eq;
    pose proof (find_newline_split s Hn) as Hsp;
    destruct (find_newline s) as [k|] eqn:Ef.
  - apply find_newline_lt in Ef. lia.
  - rewrite Hsp. reflexivity.
  - pose proof (find_newline_lt s k Ef) as Hk.
    destruct Hsp as (Hsp & Hn').
    rewrite Hsp. simpl fst. simpl snd. simpl process_ctl_lines.
    destruct (process_ctl_line st (String.substring 0 k s)); [|reflexivity].
    apply IH; [exact Hn'|].
    rewrite substring_length by lia. lia.
  - rewrite Hsp. reflexivity.
Qed.

(** Below the capacity of the control buffer and without NUL,
    [drain_ctl] runs the complete lines of all the text. *)
Lemma drain_ctl_small :
  forall st buf p,
    no_empty_text p ->
    no_nul (buf ++ ctl_text p) = true ->
    Z.of_nat (String.length buf) + Z.of_nat (ctl_bytes p) < CTL_BUF_SIZE - 1 ->
    drain_ctl st buf p =
    Ret (match process_ctl_lines st
                 (fst (split_lines (buf ++ ctl_text p))) with
         | Some st' => Some (st', snd (split_lines (buf ++ ctl_text p)), [])
         | None => None
         end).
Proof.
  intros st buf p Hne Hn Hlen. unfold drain_ctl.
  rewrite (fill_ctl_small p _ _ Hne (Nat.le_refl _) Hlen).
  rewrite (ctl_lines_split _ st _ Hn (Nat.le_refl _)).
  destruct (process_ctl_lines st (fst (split_lines (buf ++ ctl_text p))));
    reflexivity.
Qed.

(** X14: when the text already buffered and the text in the pipe hold
    no NUL and stay below the capacity of the control buffer,
    [drain_ctl] empties the pipe, runs [process_ctl_line] on every line
    of the two that ends in a newline, in order, and keeps the
    unterminated rest in the buffer.  How the text is cut into reads
    makes no difference. *)
Theorem drain_ctl_runs_the_complete_lines :
  forall st buf p,
    no_empty_text p ->
    no_nul (buf ++ ctl_text p) = true ->
    Z.of_nat (String.length buf) + Z.of_nat (ctl_bytes p) < CTL_BUF_SIZE - 1 ->
    drain_ctl st buf p =
    Ret (match process_ctl_lines st
                 (fst (split_lines (buf ++ ctl_text p))) with
         | Some st' => Some (st', snd (split_lines (buf ++ ctl_text p)), [])
         | None => None
         end).
Proof. exact drain_ctl_small. Qed.

Lemma drain_ctl_runs_the_complete_lines_witness :
  drain_ctl (startup 3 500 None 0) "sou"
    ["rce 2"%string; (LF ++ "testcard" ++ LF ++ " au")%string] =
  Ret (Some (set_mode (startup 3 500 None 0) MODE_TESTCARD (-1),
             " au"%string, [])).
Proof.
  rewrite (drain_ctl_runs_the_complete_lines (startup 3 500 None 0) "sou"
             ["rce 2"%string; (LF ++ "testcard" ++ LF ++ " au")%string]).
  - reflexivity.
  - intros c [H|[H|H]]; try contradiction; subst c; discriminate.
  - reflexivity.
  - unfold CTL_BUF_SIZE. simpl. lia.
Defined.

Lemma split_lines_cons c s :
  split_lines (String c s) =
  match split_lines s with
  | (ls, tail) =>
      if (c =? "010")%char then (EmptyString :: ls, tail)
      else match ls with
           | [] => ([], String c tail)
           | l :: ls' => (String c l :: ls', tail)
           end
  end.
Proof. reflexivity. Qed.

Lemma split_lines_app a : forall b,
  split_lines (a ++ b) =
  (fst (split_lines a) ++ fst (split_lines (snd (split_lines a) ++ b)),
   snd (split_lines (snd (split_lines a) ++ b))).
Proof.
  induction a as [|c a IH]; intros b.
  - simpl. destruct (split_lines b). reflexivity.
  - change (String c a ++ b)%string with (String c (a ++ b)).
    rewrite (split_lines_cons c (a ++ b)), IH, (split_lines_cons c a).
    destruct (split_lines a) as [la ta]. cbn [fst snd].
    destruct (c =? "010")%char eqn:El.
    + reflexivity.
    + destruct la as [|l ls]; cbn [fst snd app].
      * change (String c ta ++ b)%string with (String c (ta ++ b)).
        rewrite split_lines_cons.
        destruct (split_lines (ta ++ b)) as [lb tb]. cbn [fst snd].
        rewrite El. destruct lb; reflexivity.
      * reflexivity.
Qed.

Lemma process_ctl_lines_app l1 : forall st l2,
  process_ctl_lines st (l1 ++ l2) = then_lines (process_ctl_lines st l1) l2.
Proof.
  induction l1 as [|l l1 IH]; intros st l2; simpl; [reflexivity|].
  destruct (process_ctl_line st l); [apply IH|reflexivity].
Qed.

Lemma split_lines_tail s :
  (String.length (snd (split_lines s)) <= String.length s)%nat /\
  (no_nul s = true -> no_nul (snd (split_lines s)) = true).
Proof.
  induction s as [|c s (IH1 & IH2)]; [split; [simpl; lia|intros H; exact H]|].
  simpl split_lines. destruct (split_lines s) as [ls tail].
  simpl snd in *. unfold no_nul in *. simpl all_chars.
  destruct (c =? "010")%char.
  - simpl. split; [lia|]. intros H. apply andb_true_iff in H. apply IH2, H.
  - destruct ls; simpl.
    + split; [lia|]. intros H. apply andb_true_iff in H.
      destruct H as [Hc Hs]. rewrite Hc. simpl. apply IH2, Hs.
    + split; [lia|]. intros H. apply andb_true_iff in H. apply IH2, H.
Qed.

Lemma ctl_text_app p1 p2 :
  ctl_text (p1 ++ p2) = (ctl_text p1 ++ ctl_text p2)%string.
Proof.
  induction p1 as [|c p1 IH]; simpl; [reflexivity|].
  rewrite IH, append_assoc. reflexivity.
Qed.

(** X15: a line that is cut in two by the end of a call of [drain_ctl]
    is not lost: under the conditions of X14, a call on the text of
    [p1] followed by a call on the text of [p2], started from what the
    first call left in the buffer, ends in the same state and with the
    same buffer as one call on both texts. *)
Theorem drain_ctl_keeps_partial_lines :
  forall st buf p1 p2 st1 rest1,
    no_empty_text p1 -> no_empty_text p2 ->
    no_nul (buf ++ (ctl_text p1 ++ ctl_text p2)) = true ->
    Z.of_nat (String.length buf) + Z.of_nat (ctl_bytes p1) +
      Z.of_nat (ctl_bytes p2) < CTL_BUF_SIZE - 1 ->
    drain_ctl st buf p1 = Ret (Some (st1, rest1, [])) ->
    drain_ctl st1 rest1 p2 = drain_ctl st buf (p1 ++ p2).
Proof.
  intros st buf p1 p2 st1 rest1 Hne1 Hne2 Hn Hlen H1.
  rewrite <- append_assoc in Hn.
  assert (Hn1 : no_nul (buf ++ ctl_text p1) = true /\
                no_nul (ctl_text p2) = true).
  { rewrite no_nul_app in Hn. apply andb_true_iff in Hn. exact Hn. }
  destruct Hn1 as [Hn1 Hn2].
  rewrite (drain_ctl_small st buf p1 Hne1 Hn1) in H1
    by lia.
  destruct (process_ctl_lines st (fst (split_lines (buf ++ ctl_text p1))))
    as [st1'|] eqn:E1; [|discriminate H1].
  inversion H1; subst st1' rest1. clear H1.
  destruct (split_lines_tail (buf ++ ctl_text p1)) as (Ht1 & Ht2).
  rewrite length_append, <- ctl_bytes_text in Ht1.
  rewrite (drain_ctl_small st1).
  - rewrite (drain_ctl_small st buf (p1 ++ p2)).
    + rewrite ctl_text_app, <- append_assoc.
      rewrite (split_lines_app (buf ++ ctl_text p1) (ctl_text p2)).
      cbn [fst snd].
      rewrite process_ctl_lines_app, E1. reflexivity.
    + intros c Hc. apply in_app_or in Hc.
      destruct Hc; [apply Hne1|apply Hne2]; assumption.
    + rewrite ctl_text_app, <- append_assoc. exact Hn.
    + rewrite ctl_bytes_text, ctl_text_app, length_append,
        <- !ctl_bytes_text. lia.
  - exact Hne2.
  - rewrite no_nul_app, (Ht2 Hn1), Hn2. reflexivity.
  - lia.
Qed.

Lemma drain_ctl_keeps_partial_lines_witness :
  drain_ctl (set_mode (startup 3 500 None 0) MODE_TESTCARD (-1)) "sou"
    [("rce 2" ++ LF)%string] =
  drain_ctl (startup 3 500 None 0) ""
    (["bogus"%string; (LF ++ "testcard" ++ LF ++ "sou")%string] ++
     [("rce 2" ++ LF)%string]).
Proof.
  apply (drain_ctl_keeps_partial_lines (startup 3 500 None 0) ""
           ["bogus"%string; (LF ++ "testcard" ++ LF ++ "sou")%string]
           [("rce 2" ++ LF)%string]).
  - intros c [H|[H|H]]; try contradiction; subst c; discriminate.
  - intros c [H|H]; try contradiction; subst c; discriminate.
  - reflexivity.
  - unfold CTL_BUF_SIZE. simpl. lia.
  - reflexivity.
Defined.


End CtlBufferProps.

(** ** More on the sink and the main loop *)

Module LoopProps.

Import FrameExtractor MainLoop InputChannel InputProps Control Selection
  SelectionProps.

(** X16: when [write_stdout] returns 1, the answers of the system that
    it used up contain no fatal one and report at least [len - total]
    bytes written, and it stopped at the first answer with which the
    bytes written reached [len]: a frame is reported as sent only when
    all of it was written. *)
Theorem write_stdout_succeeds_only_when_all_is_written :
  forall evs len total rest,
    write_stdout len total evs = Ret (true, rest) ->
    exists pre,
      evs = pre ++ rest /\
      (forall ev, In ev pre -> fatal ev = false) /\
      len <= total + written pre /\
      (forall pre1 ev pre2,
          pre = pre1 ++ ev :: pre2 -> total + written pre1 < len).
Proof.
  induction evs as [|ev evs IH]; intros len total rest H;
    rewrite write_stdout_eq in H;
    destruct (total <? len) eqn:Et;
    try (apply Z.ltb_lt in Et); try (apply Z.ltb_ge in Et);
    try discriminate H.
  - inversion H; subst. exists []. split; [reflexivity|].
    split; [intros ev []|]. split; [simpl; lia|].
    intros pre1 ev pre2 Hp. destruct pre1; discriminate Hp.
  - assert (Hstep : forall total',
               total <= total' ->
               total' = total + (if 0 <? w_ret ev then w_ret ev else 0) ->
               fatal ev = false ->
               write_stdout len total' evs = Ret (true, rest) ->
               exists pre,
                 ev :: evs = pre ++ rest /\
                 (forall e, In e pre -> fatal e = false) /\
                 len <= total + written pre /\
                 (forall pre1 e pre2,
                     pre = pre1 ++ e :: pre2 -> total + written pre1 < len)).
    { intros total' Hle Htot Hnf Hrec.
      destruct (IH _ _ _ Hrec) as (pre & Hp & Hf & Hw & Hmin).
      exists (ev :: pre). split; [rewrite Hp; reflexivity|].
      split; [intros e [<-|He]; [exact Hnf|apply Hf; exact He]|].
      split; [simpl; lia|].
      intros pre1 e pre2 Hsplit. destruct pre1 as [|e1 pre1].
      - simpl. lia.
      - inversion Hsplit; subst. simpl.
        specialize (Hmin pre1 e pre2 eq_refl). lia. }
    unfold fatal in Hstep.
    destruct (w_ret ev <? 0) eqn:E1.
    + apply Z.ltb_lt in E1.
      destruct (w_again ev); [|discriminate H].
      destruct (w_poll ev <=? 0) eqn:E3; [discriminate H|].
      apply (Hstep total); [lia| |reflexivity|exact H].
      assert (E : (0 <? w_ret ev) = false) by (apply Z.ltb_ge; lia).
      rewrite E. lia.
    + apply Z.ltb_ge in E1.
      destruct (w_ret ev =? 0) eqn:E2; [discriminate H|].
      apply Z.eqb_neq in E2.
      assert (E : (0 <? w_ret ev) = true) by (apply Z.ltb_lt; lia).
      apply (Hstep (total + w_ret ev)); [lia| |reflexivity|exact H].
      rewrite E. reflexivity.
  - inversion H; subst. exists []. split; [reflexivity|].
    split; [intros e []|]. split; [simpl; lia|].
    intros pre1 e pre2 Hp. destruct pre1; discriminate Hp.
Qed.

Lemma write_stdout_succeeds_only_when_all_is_written_witness :
  exists pre,
    [{| w_ret := 3; w_again := false; w_poll := 0 |};
     {| w_ret := -1; w_again := true; w_poll := 1 |};
     {| w_ret := 2; w_again := false; w_poll := 0 |};
     {| w_ret := 9; w_again := false; w_poll := 0 |}] =
    pre ++ [{| w_ret := 9; w_again := false; w_poll := 0 |}] /\
    5 <= 0 + written pre.
Proof.
  destruct (write_stdout_succeeds_only_when_all_is_written
              [{| w_ret := 3; w_again := false; w_poll := 0 |};
               {| w_ret := -1; w_again := true; w_poll := 1 |};
               {| w_ret := 2; w_again := false; w_poll := 0 |};
               {| w_ret := 9; w_again := false; w_poll := 0 |}]
              5 0 [{| w_ret := 9; w_again := false; w_poll := 0 |}] eq_refl)
    as (pre & H1 & _ & H3 & _).
  exists pre. split; assumption.
Defined.

Lemma main_loop_stopped interval st last_out log ticks :
  main_loop interval st last_out false log ticks = Exit 0 (log ++ [MSG_DONE]).
Proof. rewrite main_loop_eq. reflexivity. Qed.

(** When [write_stdout] returns 0 it has met a fatal answer before
    all the bytes were written, and no fatal answer before that one. *)
Lemma write_stdout_fails_at evs :
  forall len total rest,
    write_stdout len total evs = Ret (false, rest) ->
    exists before ev,
      evs = before ++ ev :: rest /\ fatal ev = true /\
      (forall e, In e before -> fatal e = false) /\
      total + written before < len.
Proof.
  induction evs as [|ev evs IH]; intros len total rest H;
    rewrite write_stdout_eq in H;
    destruct (total <? len) eqn:Et; try discriminate H.
  apply Z.ltb_lt in Et.
  assert (Hhere : fatal ev = true -> rest = evs ->
                  exists before ev0,
                    ev :: evs = before ++ ev0 :: rest /\ fatal ev0 = true /\
                    (forall e, In e before -> fatal e = false) /\
                    total + written before < len).
  { intros Hf ->. exists [], ev. split; [reflexivity|].
    split; [exact Hf|]. split; [intros e []|simpl; lia]. }
  assert (Hstep : forall total',
             total' = total + (if 0 <? w_ret ev then w_ret ev else 0) ->
             fatal ev = false ->
             write_stdout len total' evs = Ret (false, rest) ->
             exists before ev0,
               ev :: evs = before ++ ev0 :: rest /\ fatal ev0 = true /\
               (forall e, In e before -> fatal e = false) /\
               total + written before < len).
  { intros total' Htot Hnf Hrec.
    destruct (IH _ _ _ Hrec) as (before & ev0 & Hp & Hf & Hnone & Hw).
    exists (ev :: before), ev0. split; [rewrite Hp; reflexivity|].
    split; [exact Hf|]. split.
    - intros e [<- | He]; [exact Hnf|apply Hnone; exact He].
    - simpl. lia. }
  unfold fatal in Hhere, Hstep.
  destruct (w_ret ev <? 0) eqn:E1.
  - apply Z.ltb_lt in E1.
    assert (E : (0 <? w_ret ev) = false) by (apply Z.ltb_ge; lia).
    destruct (w_again ev).
    + destruct (w_poll ev <=? 0) eqn:E3.
      * inversion H; subst. apply Hhere; reflexivity.
      * apply (Hstep total); [rewrite E; lia|reflexivity|exact H].
    + inversion H; subst. apply Hhere; reflexivity.
  - apply Z.ltb_ge in E1.
    destruct (w_ret ev =? 0) eqn:E2.
    + inversion H; subst. apply Hhere; reflexivity.
    + apply Z.eqb_neq in E2.
      assert (E : (0 <? w_ret ev) = true) by (apply Z.ltb_lt; lia).
      apply (Hstep (total + w_ret ev)); [rewrite E; reflexivity
                                        |reflexivity|exact H].
Qed.

Lemma written_nonneg evs : 0 <= written evs.
Proof.
  induction evs as [|ev evs IH]; simpl; [lia|].
  destruct (0 <? w_ret ev) eqn:E; [apply Z.ltb_lt in E|]; lia.
Qed.

(** The output step fails only when a frame was chosen and
    [write_stdout] met a fatal answer before the frame was written. *)
Lemma output_step_fails interval st last_out now evs last_out' :
  output_step interval st last_out now evs = Ret (last_out', true) ->
  exists ptr flen before ev after,
    choose_frame st now = Some (ptr, flen) /\ 0 < flen /\
    evs = before ++ ev :: after /\ fatal ev = true /\
    (forall e, In e before -> fatal e = false) /\
    written before < flen.
Proof.
  intros H.
  destruct (output_step_failure _ _ _ _ _ _ H) as (ptr & flen & rest & Hc & Hw).
  destruct (write_stdout_fails_at _ _ _ _ Hw)
    as (before & ev & Hp & Hf & Hnone & Hlt).
  exists ptr, flen, before, ev, rest.
  split; [exact Hc|]. split; [pose proof (written_nonneg before); lia|].
  split; [exact Hp|]. split; [exact Hf|]. split; [exact Hnone|lia].
Qed.

(** X17: [main] leaves its loop only in the first iteration in which a
    signal is delivered or [write_stdout] fails; the iterations before
    it saw no signal and handed the loop on with the log unchanged.
    The log on the way out tells the two apart.  It ends with the
    closing message alone exactly when a signal was delivered and the
    output step of that iteration did not fail.  The closing message is
    preceded by the failure message exactly when the output step of
    that iteration failed: a frame had been chosen and the system gave
    [write_stdout] a fatal answer, with no fatal answer before it,
    before all the bytes of the frame were written. *)
Theorem main_loop_stops_for_signal_or_sink_failure_only :
  forall ticks interval st last_out log status log',
    main_loop interval st last_out true log ticks = Exit status log' ->
    exists pre t post st_t lo_t,
      ticks = pre ++ t :: post /\
      (forall u, In u pre -> t_signal u = false) /\
      (forall log0 rest,
          main_loop interval st last_out true log0 (pre ++ rest) =
          main_loop interval st_t lo_t true log0 rest) /\
      ((t_signal t = true /\
        log' = log ++ [MSG_DONE] /\
        (t_idle t = true \/
         exists st2 lo',
           tick_state st_t t = Some st2 /\
           output_step interval st2 lo_t (t_now t) (t_writes t) =
             Ret (lo', false))) \/
       (log' = log ++ [MSG_WRITE_FAILED; MSG_DONE] /\
        t_idle t = false /\
        exists st2 lo' ptr flen before ev after,
          tick_state st_t t = Some st2 /\
          output_step interval st2 lo_t (t_now t) (t_writes t) =
            Ret (lo', true) /\
          choose_frame st2 (t_now t) = Some (ptr, flen) /\
          0 < flen /\
          t_writes t = before ++ ev :: after /\
          fatal ev = true /\
          (forall e, In e before -> fatal e = false) /\
          written before < flen)).
Proof.
  induction ticks as [|t rest IH]; intros interval st last_out log status
    log' H; rewrite main_loop_eq in H; [discriminate H|].
  assert (Hnext : forall st' lo,
             (forall log0 more,
                 main_loop interval st last_out true log0 (t :: more) =
                 main_loop interval st' lo (negb (t_signal t)) log0 more) ->
             t_signal t = false ->
             main_loop interval st' lo true log rest = Exit status log' ->
             exists pre t0 post st_t lo_t,
               t :: rest = pre ++ t0 :: post /\
               (forall u, In u pre -> t_signal u = false) /\
               (forall log0 more,
                   main_loop interval st last_out true log0 (pre ++ more) =
                   main_loop interval st_t lo_t true log0 more) /\
               ((t_signal t0 = true /\
                 log' = log ++ [MSG_DONE] /\
                 (t_idle t0 = true \/
                  exists st2 lo',
                    tick_state st_t t0 = Some st2 /\
                    output_step interval st2 lo_t (t_now t0) (t_writes t0) =
                      Ret (lo', false))) \/
                (log' = log ++ [MSG_WRITE_FAILED; MSG_DONE] /\
                 t_idle t0 = false /\
                 exists st2 lo' ptr flen before ev after,
                   tick_state st_t t0 = Some st2 /\
                   output_step interval st2 lo_t (t_now t0) (t_writes t0) =
                     Ret (lo', true) /\
                   choose_frame st2 (t_now t0) = Some (ptr, flen) /\
                   0 < flen /\
                   t_writes t0 = before ++ ev :: after /\
                   fatal ev = true /\
                   (forall e, In e before -> fatal e = false) /\
                   written before < flen))).
  { intros st' lo Hone Es Hn.
    destruct (IH _ _ _ _ _ _ Hn)
      as (pre & t0 & post & st_t & lo_t & Heq & Hsig & Hpin & Hcase).
    exists (t :: pre), t0, post, st_t, lo_t.
    split; [rewrite Heq; reflexivity|].
    split; [intros u [<- | Hu]; [exact Es|apply Hsig; exact Hu]|].
    split; [|exact Hcase].
    intros log0 more. simpl app. rewrite Hone, Es. simpl negb. apply Hpin. }
  destruct (t_idle t) eqn:Hidle.
  - destruct (t_signal t) eqn:Es; simpl negb in H.
    + rewrite main_loop_stopped in H. inversion H; subst.
      exists [], t, rest, st, last_out.
      split; [reflexivity|]. split; [intros u []|].
      split; [intros log0 more; reflexivity|].
      left. split; [exact Es|]. split; [reflexivity|left; exact Hidle].
    + apply (Hnext st last_out); [|reflexivity|exact H].
      intros log0 more. rewrite main_loop_eq, Hidle, Es. reflexivity.
  - cbv zeta in H.
    destruct (process_ctl_lines (fold_left drain_ready (t_inputs t) st)
                (t_ctl t)) as [st2|] eqn:Ectl; [|discriminate H].
    assert (Hst : tick_state st t = Some st2)
      by (unfold tick_state; rewrite Hidle; exact Ectl).
    destruct (output_step interval st2 last_out (t_now t) (t_writes t))
      as [[lo failed]|] eqn:Eo; [|discriminate H].
    destruct failed.
    + rewrite main_loop_stopped in H. inversion H; subst.
      exists [], t, rest, st, last_out.
      split; [reflexivity|]. split; [intros u []|].
      split; [intros log0 more; reflexivity|].
      right. split; [rewrite <- app_assoc; reflexivity|].
      split; [exact Hidle|].
      destruct (output_step_fails _ _ _ _ _ _ Eo)
        as (ptr & flen & before & ev & after & Hc & Hpos & Hw & Hf & Hnone
            & Hlt).
      exists st2, lo, ptr, flen, before, ev, after.
      split; [exact Hst|]. split; [exact Eo|]. split; [exact Hc|].
      split; [exact Hpos|]. split; [exact Hw|]. split; [exact Hf|].
      split; [exact Hnone|exact Hlt].
    + destruct (t_signal t) eqn:Es; simpl negb in H.
      * rewrite main_loop_stopped in H. inversion H; subst.
        exists [], t, rest, st, last_out.
        split; [reflexivity|]. split; [intros u []|].
        split; [intros log0 more; reflexivity|].
        left. split; [exact Es|]. split; [reflexivity|].
        right. exists st2, lo. split; [exact Hst|exact Eo].
      * apply (Hnext st2 lo); [|reflexivity|exact H].
        intros log0 more. rewrite main_loop_eq, Hidle. cbv zeta.
        rewrite Ectl, Eo, Es. reflexivity.
Qed.

Lemma main_loop_stops_for_signal_or_sink_failure_only_witness :
  exists pre t post,
    [idle_tick; failing_tick] = pre ++ t :: post /\
    t_idle t = false /\
    exists flen before ev after,
      0 < flen /\
      t_writes t = before ++ ev :: after /\
      fatal ev = true /\
      written before < flen.
Proof.
  destruct (main_loop_stops_for_signal_or_sink_failure_only
              [idle_tick; failing_tick] 100
              (startup 3 500 (Some [0xFF; 0xD8; 0xFF; 0xD9]) 4)
              {| tv_sec := 0; tv_nsec := 0 |} [] 0
              [MSG_WRITE_FAILED; MSG_DONE] eq_refl)
    as (pre & t & post & st_t & lo_t & Heq & _ & _ & Hcase).
  exists pre, t, post. split; [exact Heq|].
  destruct Hcase as [(_ & Hlog & _) | (_ & Hidle & Hfail)];
    [discriminate Hlog|].
  split; [exact Hidle|].
  destruct Hfail as (st2 & lo' & ptr & flen & before & ev & after & _ & _ & _
                     & Hpos & Hw & Hf & _ & Hlt).
  exists flen, before, ev, after.
  split; [exact Hpos|]. split; [exact Hw|]. split; [exact Hf|exact Hlt].
Defined.

(** *** What every iteration keeps *)

Lemma startup_mux_ok n t c cs : mux_ok (startup n t c cs).
Proof.
  split; [apply startup_ok|]. split; [apply startup_inputs_length|].
  split; [apply startup_num_inputs|].
  intros i Hi. unfold input_at. cbn [inputs startup].
  rewrite nth_repeat.
  split; [unfold read_used, READ_BUF_SIZE; simpl; lia|left; reflexivity].
Qed.

Lemma drain_ready_mux_ok st r : mux_ok st -> mux_ok (drain_ready st r).
Proof.
  intros (Hm & Hl & Hn & Hin). destruct r as [[i p] now].
  unfold drain_ready, set_input.
  split; [exact Hm|]. cbn [inputs num_inputs].
  split; [rewrite set_nth_length; exact Hl|]. split; [exact Hn|].
  intros j Hj. unfold input_at. cbn [inputs].
  destruct (Nat.eq_dec (Z.to_nat i) (Z.to_nat j)) as [E|E].
  - rewrite E. rewrite nth_set_nth_same by lia.
    destruct (Hin j Hj) as (H1 & H2). unfold input_at in H1, H2.
    split; [apply (drain_spec _ p now H1)|].
    apply drain_keeps_cache_ok; assumption.
  - rewrite nth_set_nth_other by exact E. apply (Hin j Hj).
Qed.

Lemma fold_drain_ready_mux_ok rs : forall st,
  mux_ok st -> mux_ok (fold_left drain_ready rs st).
Proof.
  induction rs as [|r rs IH]; intros st H; simpl; [exact H|].
  apply IH. apply drain_ready_mux_ok. exact H.
Qed.

Lemma process_ctl_lines_mux_ok lines st st' :
  mux_ok st -> process_ctl_lines st lines = Some st' -> mux_ok st'.
Proof.
  intros (Hm & Hl & Hn & Hin) H.
  destruct (process_ctl_lines_ok lines st st' Hm H) as (Hm' & Hn' & Hi').
  split; [exact Hm'|]. rewrite Hn', Hi'.
  split; [exact Hl|]. split; [exact Hn|].
  intros i Hi. unfold input_at. rewrite Hi'. apply (Hin i Hi).
Qed.

Lemma tick_state_mux_ok st t st' :
  mux_ok st -> tick_state st t = Some st' -> mux_ok st'.
Proof.
  intros Hok H. unfold tick_state in H.
  destruct (t_idle t); [inversion H; subst; exact Hok|].
  apply (process_ctl_lines_mux_ok _ _ _ (fold_drain_ready_mux_ok _ _ Hok) H).
Qed.

(** X18: whatever the inputs and the control pipe deliver, the globals
    stay sound through every iteration of the main loop: starting from
    the globals that [main] sets up, after any run of iterations the
    mode and the selected index fit each other, [num_inputs] is the
    number of inputs and lies between 1 and [MAX_INPUTS], and every
    input has a read buffer of at most [READ_BUF_SIZE] bytes and a
    frame cache that is empty or one complete frame of at most
    [MAX_FRAME_SIZE] bytes.  The state followed here is the one
    [main_loop] passes on from an iteration to the next. *)
Theorem main_loop_keeps_globals_sound :
  forall n_inputs timeout card card_size ticks st,
    run_ticks (startup n_inputs timeout card card_size) ticks = Some st ->
    mux_ok st /\
    (forall interval st0 last_out log t rest,
        main_loop interval st0 last_out true log (t :: rest) =
        match tick_state st0 t with
        | None => Undefined
        | Some st2 =>
            if t_idle t then
              main_loop interval st2 last_out (negb (t_signal t)) log rest
            else
              match output_step interval st2 last_out (t_now t)
                      (t_writes t) with
              | OutOfFuel => Starved
              | Ret (last_out', failed) =>
                  if failed then
                    main_loop interval st2 last_out' false
                      (log ++ [MSG_WRITE_FAILED]) rest
                  else
                    main_loop interval st2 last_out'
                      (negb (t_signal t)) log rest
              end
        end).
Proof.
  intros n timeout card cs ticks st H. split.
  - revert H. generalize (startup_mux_ok n timeout card cs).
    generalize (startup n timeout card cs).
    induction ticks as [|t rest IH]; intros st0 Hok H; simpl in H.
    + inversion H; subst. exact Hok.
    + destruct (tick_state st0 t) as [st1|] eqn:E; [|discriminate H].
      apply (IH st1); [|exact H].
      apply (tick_state_mux_ok st0 t st1 Hok E).
  - intros interval st0 last_out log t rest.
    rewrite main_loop_eq. unfold tick_state.
    destruct (t_idle t); reflexivity.
Qed.

Lemma main_loop_keeps_globals_sound_witness :
  mux_ok
    (set_input (set_mode (startup 2 500 None 0) MODE_SOURCE 1) 0
       (fst (drain zero_input [[0xFF; 0xD8; 0xFF; 0xD9; 3]] (at_time 2 0)))).
Proof.
  destruct (main_loop_keeps_globals_sound 2 500 None 0
              [{| t_signal := false; t_idle := false;
                  t_inputs := [(0, [[0xFF; 0xD8; 0xFF; 0xD9; 3]], at_time 2 0)];
                  t_ctl := ["source 1"%string];
                  t_now := at_time 2 0; t_writes := [] |}]
              (set_input (set_mode (startup 2 500 None 0) MODE_SOURCE 1) 0
                 (fst (drain zero_input [[0xFF; 0xD8; 0xFF; 0xD9; 3]]
                         (at_time 2 0))))
              eq_refl) as (H & _).
  exact H.
Defined.

(** *** From the pipe to the output *)

(** X19: a frame delivered to an input is what [choose_frame] returns
    for that input until the timeout has passed.  If a complete frame
    of at most [MAX_FRAME_SIZE] bytes arrives, in any number of reads,
    on input [i] whose read buffer is empty, and the mode is
    [MODE_SOURCE] with [selected = i], then after the [drain] at time
    [t] the cache of input [i] holds the frame, [choose_frame] returns
    it with its length at every reading less than [timeout_ms]
    milliseconds after [t], and goes to the test card from then on. *)
Theorem delivered_frame_is_chosen_until_timeout :
  forall st i F p t now,
    0 <= i < Z.of_nat (List.length (inputs st)) ->
    i < num_inputs st ->
    mode st = MODE_SOURCE ->
    selected st = i ->
    read_buf (input_at st i) = [] ->
    one_frame F ->
    Z.of_nat (List.length F) <= MAX_FRAME_SIZE ->
    no_empty_chunk p ->
    List.concat p = F ->
    frame (input_at (drain_ready st (i, p, t)) i) = F /\
    (nanos now - nanos t < timeout_ms st * 1000000 ->
     choose_frame (drain_ready st (i, p, t)) now =
       Some (InputFrame i, Z.of_nat (List.length F))) /\
    (timeout_ms st * 1000000 <= nanos now - nanos t ->
     choose_frame (drain_ready st (i, p, t)) now =
       use_testcard (drain_ready st (i, p, t))).
Proof.
  intros st i F p t now Hi Hn Hm Hsel Hb HF Hmax Hne Hp.
  assert (H4 : 4 <= Z.of_nat (List.length F))
    by (destruct HF as (_ & H & _); exact H).
  assert (Hinp : input_at (drain_ready st (i, p, t)) i =
                 {| read_buf := []; frame := F;
                    frame_size := Z.of_nat (List.length F);
                    frame_time := t |}).
  { unfold drain_ready, set_input, input_at. cbn [inputs].
    rewrite nth_set_nth_same by lia.
    fold (input_at st i).
    rewrite drain_small.
    - cbn [fst]. unfold extract_from. rewrite Hb, Hp. cbn [app].
      rewrite (one_frame_whole F HF Hmax).
      rewrite Z.add_0_l, Nat2Z.id. change (Z.to_nat 0) with 0%nat.
      rewrite skipn_0, firstn_all, skipn_all. reflexivity.
    - exact Hne.
    - unfold read_used. rewrite Hb, pipe_bytes_concat, Hp.
      pose proof (frame_bound_below_capacity _ Hmax). simpl. lia. }
  split; [rewrite Hinp; reflexivity|].
  assert (Hc : choose_frame (drain_ready st (i, p, t)) now =
               if recent (drain_ready st (i, p, t))
                    (input_at (drain_ready st (i, p, t)) i) now
               then Some (InputFrame i,
                          frame_size (input_at (drain_ready st (i, p, t)) i))
               else use_testcard (drain_ready st (i, p, t))).
  { rewrite <- Hsel.
    change (selected st) with (selected (drain_ready st (selected st, p, t))).
    apply choose_frame_source.
    - exact Hm.
    - change (0 <= selected st < num_inputs st). lia. }
  rewrite Hc. split.
  - intros Hfresh.
    assert (Hr : recent (drain_ready st (i, p, t))
                   (input_at (drain_ready st (i, p, t)) i) now = true).
    { apply recent_nanos. rewrite Hinp. cbn [frame_size frame_time].
      split; [lia|exact Hfresh]. }
    rewrite Hr, Hinp. reflexivity.
  - intros Hstale.
    destruct (recent (drain_ready st (i, p, t))
                (input_at (drain_ready st (i, p, t)) i) now) eqn:Er;
      [|reflexivity].
    apply recent_nanos in Er. rewrite Hinp in Er.
    cbn [frame_size frame_time] in Er.
    change (timeout_ms (drain_ready st (i, p, t))) with (timeout_ms st) in Er.
    lia.
Qed.

Lemma delivered_frame_is_chosen_until_timeout_witness :
  choose_frame
    (drain_ready
       (mux_with zero_input zero_input zero_input MODE_SOURCE 1)
       (1, [[0xFF; 0xD8; 1]; [0xFF; 0xD9]], at_time 5 0))
    (at_time 5 499) =
  Some (InputFrame 1, Z.of_nat (List.length [0xFF; 0xD8; 1; 0xFF; 0xD9])).
Proof.
  destruct (delivered_frame_is_chosen_until_timeout
              (mux_with zero_input zero_input zero_input MODE_SOURCE 1) 1
              [0xFF; 0xD8; 1; 0xFF; 0xD9]
              [[0xFF; 0xD8; 1]; [0xFF; 0xD9]] (at_time 5 0) (at_time 5 499))
    as (_ & H & _).
  - simpl. lia.
  - simpl. lia.
  - reflexivity.
  - reflexivity.
  - reflexivity.
  - pose proof (last_jpeg_spec [0xFF; 0xD8; 1; 0xFF; 0xD9] 5) as H.
    change (last_jpeg [0xFF; 0xD8; 1; 0xFF; 0xD9] 5) with (Some (0, 5)) in H.
    exact (proj1 H).
  - unfold MAX_FRAME_SIZE. simpl. lia.
  - intros c [Hc|[Hc|Hc]]; try contradiction; subst c; discriminate.
  - reflexivity.
  - apply H. vm_compute. reflexivity.
Defined.

End LoopProps.

